(** * config-rom-pretty-printer: a shallow embedding and its verification

    The development follows [src/config-rom-pretty-printer.c].  The program
    reads at most 1024 bytes of an IEEE 1212 configuration ROM, converts it
    to host byte order, discovers the blocks reachable from the bus
    information block and the root directory, clamps overlapping blocks,
    fills the gaps with orphan blocks and prints every block.

    Conventions of the embedding.

    - [uint32_t] values are integers of [Z] in [0, 2^32); every operation
      of the source that can leave that range is followed by [wrap32].
    - [size_t] and [ssize_t] values are integers of [Z].  The analyser only
      produces offsets and lengths below [2^27], far from the 64-bit
      limit, so their sums are written without reduction; [main] runs the
      analyser with [0 < length <= 1024] only.
    - The buffer [uint8_t data[1024]] is a [list byte]; a quadlet is loaded
      from it in the byte order of the host, which is a parameter of the
      whole development.
    - A pointer to a block descriptor is the offset of the descriptor: the
      analyser never creates two descriptors with one offset (this is
      proved below), and a descriptor is looked up in the block list, so a
      parent reached through the pointer is seen with the length the
      normaliser gave it.
    - The functions of the analysis come twice.  The first version takes
      every [malloc] to succeed.  The second, with names that end in
      [_run], has the [-ENOMEM] returns of the source and records the
      calls of the block detectors; it is related to the first below.
      [print_blocks] and [main] are modelled with allocations that
      succeed. *)

From Stdlib Require Import ZArith List Lia Bool String Ascii.
From Stdlib Require Import Strings.Byte.
Import ListNotations.
Local Open Scope string_scope.
Local Open Scope list_scope.
Local Open Scope Z_scope.

Infix "+++" := String.append (right associativity, at level 60).

(** ** Machine integers and the input buffer *)

Definition wrap32 (x : Z) : Z := x mod 2 ^ 32.

Definition EINVAL : Z := 22.
Definition ENOSPC : Z := 28.
Definition EXIT_SUCCESS : Z := 0.
Definition EXIT_FAILURE : Z := 1.

Inductive byte_order : Type :=
| LittleEndian
| BigEndian.

Definition byte_at (data : list byte) (i : Z) : Z :=
  if i <? 0 then 0
  else Z.of_N (Byte.to_N (nth (Z.to_nat i) data Byte.x00)).

Definition byte_of_Z (z : Z) : byte :=
  match Byte.of_N (Z.to_N (z mod 256)) with
  | Some b => b
  | None => Byte.x00
  end.

(** The value of four bytes [b0 b1 b2 b3], in memory order, as a quadlet. *)
Definition quadlet_of_bytes (host : byte_order) (b0 b1 b2 b3 : Z) : Z :=
  match host with
  | LittleEndian =>
      Z.lor b0 (Z.lor (Z.shiftl b1 8) (Z.lor (Z.shiftl b2 16) (Z.shiftl b3 24)))
  | BigEndian =>
      Z.lor b3 (Z.lor (Z.shiftl b2 8) (Z.lor (Z.shiftl b1 16) (Z.shiftl b0 24)))
  end.

(** The bytes of a quadlet, in memory order. *)
Definition bytes_of_quadlet (host : byte_order) (q : Z) : list byte :=
  let b k := byte_of_Z (Z.land (Z.shiftr q k) 255) in
  match host with
  | LittleEndian => [b 0; b 8; b 16; b 24]
  | BigEndian => [b 24; b 16; b 8; b 0]
  end.

(** [bswap_32], as glibc's [be32toh] uses it on a little-endian host. *)
Definition bswap_32 (q : Z) : Z :=
  Z.lor (Z.shiftl (Z.land q 255) 24)
    (Z.lor (Z.shiftl (Z.land (Z.shiftr q 8) 255) 16)
       (Z.lor (Z.shiftl (Z.land (Z.shiftr q 16) 255) 8)
          (Z.land (Z.shiftr q 24) 255))).

Definition be32toh (host : byte_order) (q : Z) : Z :=
  match host with
  | LittleEndian => bswap_32 q
  | BigEndian => q
  end.

(** ** Blocks *)

Inductive ieee1212_block_type : Type :=
| IEEE1212_BUS_INFO_BLOCK
| IEEE1212_ROOT_DIRECTORY_BLOCK
| IEEE1212_LEAF_BLOCK
| IEEE1212_DIRECTORY_BLOCK
| ORPHAN_BLOCK.

Definition block_type_eqb (a b : ieee1212_block_type) : bool :=
  match a, b with
  | IEEE1212_BUS_INFO_BLOCK, IEEE1212_BUS_INFO_BLOCK
  | IEEE1212_ROOT_DIRECTORY_BLOCK, IEEE1212_ROOT_DIRECTORY_BLOCK
  | IEEE1212_LEAF_BLOCK, IEEE1212_LEAF_BLOCK
  | IEEE1212_DIRECTORY_BLOCK, IEEE1212_DIRECTORY_BLOCK
  | ORPHAN_BLOCK, ORPHAN_BLOCK => true
  | _, _ => false
  end.

(** The member [data.leaf] (or [data.directory], the two have one layout)
    of the descriptor: the key id of the referring entry and the pointer to
    the parent descriptor, as the parent's offset. *)
Record block_data : Type := {
  key_id : Z;
  parent : Z
}.

(** [struct ieee1212_block].  [content] is [data + offset] in every
    descriptor the source builds and is not stored; [blk_data] is [None]
    where the source leaves the union uninitialised. *)
Record ieee1212_block : Type := {
  blk_offset : Z;
  blk_length : Z;
  block_type : ieee1212_block_type;
  blk_data : option block_data
}.

Definition list_head : Type := list ieee1212_block.

Definition set_length (entry : ieee1212_block) (len : Z) : ieee1212_block :=
  {| blk_offset := blk_offset entry;
     blk_length := len;
     block_type := block_type entry;
     blk_data := blk_data entry |}.

(** The loop of [insert_block_by_offset]: [cursor] is followed by [rest]. *)
Fixpoint insert_after_cursor (cursor : ieee1212_block) (rest : list_head)
    (entry : ieee1212_block) : list_head :=
  match rest with
  | [] => [cursor; entry]
  | peek :: rest' =>
      if blk_offset peek >? blk_offset entry
      then cursor :: entry :: peek :: rest'
      else cursor :: insert_after_cursor peek rest' entry
  end.

Definition insert_block_by_offset (head : list_head) (entry : ieee1212_block)
    : list_head :=
  match head with
  | [] => [entry]
  | cursor :: rest => insert_after_cursor cursor rest entry
  end.

(** The position at which [insert_block_by_offset] links the new
    descriptor; a cursor into the list at or after it moves by one. *)
Fixpoint insert_position_after (rest : list_head) (entry : ieee1212_block)
    (pos : nat) : nat :=
  match rest with
  | [] => pos
  | peek :: rest' =>
      if blk_offset peek >? blk_offset entry then pos
      else insert_position_after rest' entry (S pos)
  end.

Definition insert_position (head : list_head) (entry : ieee1212_block) : nat :=
  match head with
  | [] => O
  | _ :: rest => insert_position_after rest entry 1%nat
  end.

(** ** Results of the analyser *)

Inductive result (A : Type) : Type :=
| Ok (a : A)
| Err (errno : Z)
| OutOfFuel.

Arguments Ok {A} a.
Arguments Err {A} errno.
Arguments OutOfFuel {A}.

Definition bind {A B : Type} (r : result A) (k : A -> result B) : result B :=
  match r with
  | Ok a => k a
  | Err e => Err e
  | OutOfFuel => OutOfFuel
  end.

Notation "x <- r ;; k" := (bind r (fun x => k))
  (at level 61, r at next level, right associativity).

Definition IEEE1212_BUS_INFO_BLOCK_LENGTH_MASK : Z := 0xff000000.
Definition IEEE1212_BUS_INFO_BLOCK_LENGTH_SHIFT : Z := 24.
Definition IEEE1212_BUS_INFO_CRC_LENGTH_MASK : Z := 0x00ff0000.
Definition IEEE1212_BUS_INFO_CRC_LENGTH_SHIFT : Z := 16.
Definition IEEE1212_BUS_INFO_CRC_MASK : Z := 0x0000ffff.
Definition IEEE1212_BUS_INFO_CRC_SHIFT : Z := 0.

Definition IEEE1212_BLOCK_LENGTH_MASK : Z := 0xffff0000.
Definition IEEE1212_BLOCK_LENGTH_SHIFT : Z := 16.
Definition IEEE1212_BLOCK_CRC_MASK : Z := 0x0000ffff.
Definition IEEE1212_BLOCK_CRC_SHIFT : Z := 0.

Definition DIRECTORY_ENTRY_KEY_TYPE_MASK : Z := 0xc0000000.
Definition DIRECTORY_ENTRY_KEY_TYPE_SHIFT : Z := 30.
Definition DIRECTORY_ENTRY_KEY_ID_MASK : Z := 0x3f000000.
Definition DIRECTORY_ENTRY_KEY_ID_SHIFT : Z := 24.
Definition DIRECTORY_ENTRY_VALUE_MASK : Z := 0x00ffffff.
Definition DIRECTORY_ENTRY_VALUE_SHIFT : Z := 0.

Definition KEY_TYPE_IMMEDIATE : Z := 0.
Definition KEY_TYPE_CSR_OFFSET : Z := 1.
Definition KEY_TYPE_LEAF : Z := 2.
Definition KEY_TYPE_DIRECTORY : Z := 3.

(** [decode_directory_entry]: key type, key id and value of an entry. *)
Definition decode_directory_entry (quadlet : Z) : Z * Z * Z :=
  (Z.shiftr (Z.land quadlet DIRECTORY_ENTRY_KEY_TYPE_MASK)
     DIRECTORY_ENTRY_KEY_TYPE_SHIFT,
   Z.shiftr (Z.land quadlet DIRECTORY_ENTRY_KEY_ID_MASK)
     DIRECTORY_ENTRY_KEY_ID_SHIFT,
   Z.shiftr (Z.land quadlet DIRECTORY_ENTRY_VALUE_MASK)
     DIRECTORY_ENTRY_VALUE_SHIFT).

Definition block_exists (head : list_head) (block_offset : Z) : bool :=
  existsb (fun entry => blk_offset entry =? block_offset) head.

Definition find_block (head : list_head) (block_offset : Z)
    : option ieee1212_block :=
  find (fun entry => blk_offset entry =? block_offset) head.

Section Host.

Variable host : byte_order.

(** [*(uint32_t * )(data + offset)]. *)
Definition load32 (data : list byte) (offset : Z) : Z :=
  quadlet_of_bytes host (byte_at data offset) (byte_at data (offset + 1))
    (byte_at data (offset + 2)) (byte_at data (offset + 3)).

(** ** Block discovery *)

(** In [4 * (quadlet & MASK) >> SHIFT] the product is formed first, in
    [uint32_t], and shifted afterwards.  The comparison with [length], an
    [ssize_t], is made in [size_t]; it is the comparison of the integers
    for the values the callers pass: [main] runs the analysis on a positive
    [length] of at most [sizeof(data)], and the offsets lie below it. *)
Definition detect_ieee1212_bus_info_block_length (data : list byte)
    (length offset : Z) : result Z :=
  let quadlet := load32 data 0 in
  let block_length :=
    4 + Z.shiftr (wrap32 (4 * Z.land quadlet IEEE1212_BUS_INFO_BLOCK_LENGTH_MASK))
          IEEE1212_BUS_INFO_BLOCK_LENGTH_SHIFT in
  if offset + block_length >? length then Err (- EINVAL) else Ok block_length.

Definition detect_ieee1212_bus_info_block (data : list byte)
    (length offset block_length : Z) (head : list_head) : result list_head :=
  Ok (insert_block_by_offset head
        {| blk_offset := offset;
           blk_length := block_length;
           block_type := IEEE1212_BUS_INFO_BLOCK;
           blk_data := None |}).

(** As above, for the block at [offset]. *)
Definition detect_ieee1212_block_length (data : list byte)
    (length offset : Z) : result Z :=
  let quadlet := load32 data offset in
  let block_length :=
    4 + Z.shiftr (wrap32 (4 * Z.land quadlet IEEE1212_BLOCK_LENGTH_MASK))
          IEEE1212_BLOCK_LENGTH_SHIFT in
  if offset + block_length >? length then Err (- EINVAL) else Ok block_length.

Definition detect_ieee1212_leaf_block (data : list byte)
    (length block_offset block_length key_id parent : Z) (head : list_head)
    : result list_head :=
  if block_exists head block_offset then Ok head
  else
    Ok (insert_block_by_offset head
          {| blk_offset := block_offset;
             blk_length := block_length;
             block_type := IEEE1212_LEAF_BLOCK;
             blk_data := Some {| key_id := key_id; parent := parent |} |}).

(** The [for] loop of [detect_ieee1212_directory_entries], from entry [i]
    on, with [count] entries left.  [directory_offset] is the offset of the
    first entry.  [detect_directory] stands for
    [detect_ieee1212_directory_block], which the source declares ahead. *)
Fixpoint detect_entries_loop
    (detect_directory : Z -> Z -> Z -> Z -> list_head -> result list_head)
    (data : list byte) (length directory_offset parent : Z)
    (count : nat) (i : Z) (head : list_head) : result list_head :=
  match count with
  | O => Ok head
  | S count' =>
      let entry_offset := directory_offset + i * 4 in
      let quadlet := load32 data entry_offset in
      let '(key_type, key_id, value) := decode_directory_entry quadlet in
      if (key_type =? KEY_TYPE_LEAF) || (key_type =? KEY_TYPE_DIRECTORY) then
        let block_offset := entry_offset + wrap32 (4 * value) in
        if block_offset >=? length then Err (- ENOSPC)
        else
          block_length <- detect_ieee1212_block_length data length block_offset ;;
          head' <- (if key_type =? KEY_TYPE_LEAF
                    then detect_ieee1212_leaf_block data length block_offset
                           block_length key_id parent head
                    else detect_directory block_offset block_length key_id
                           parent head) ;;
          detect_entries_loop detect_directory data length directory_offset
            parent count' (i + 1) head'
      else
        detect_entries_loop detect_directory data length directory_offset
          parent count' (i + 1) head
  end.

Definition detect_ieee1212_directory_entries
    (detect_directory : Z -> Z -> Z -> Z -> list_head -> result list_head)
    (data : list byte) (length directory_offset directory_length parent : Z)
    (head : list_head) : result list_head :=
  let directory_offset := directory_offset + 4 in
  let quadlet_count := (directory_length - 4) / 4 in
  detect_entries_loop detect_directory data length directory_offset parent
    (Z.to_nat quadlet_count) 0 head.

(** [fuel] bounds the depth of the recursion through directories. *)
Fixpoint detect_ieee1212_directory_block (fuel : nat) (data : list byte)
    (length block_offset block_length key_id parent : Z) (head : list_head)
    : result list_head :=
  match fuel with
  | O => OutOfFuel
  | S fuel' =>
      if block_exists head block_offset then Ok head
      else
        let entry :=
          {| blk_offset := block_offset;
             blk_length := block_length;
             block_type := IEEE1212_DIRECTORY_BLOCK;
             blk_data := Some {| key_id := key_id; parent := parent |} |} in
        detect_ieee1212_directory_entries
          (detect_ieee1212_directory_block fuel' data length)
          data length block_offset block_length (blk_offset entry)
          (insert_block_by_offset head entry)
  end.

Definition detect_ieee1212_root_directory_block (fuel : nat)
    (data : list byte) (length block_offset block_length : Z)
    (head : list_head) : result list_head :=
  let entry :=
    {| blk_offset := block_offset;
       blk_length := block_length;
       block_type := IEEE1212_ROOT_DIRECTORY_BLOCK;
       blk_data := None |} in
  detect_ieee1212_directory_entries
    (detect_ieee1212_directory_block fuel data length)
    data length block_offset block_length (blk_offset entry)
    (insert_block_by_offset head entry).

Definition detect_ieee1212_blocks (fuel : nat) (data : list byte)
    (length : Z) (head : list_head) : result list_head :=
  let offset := 0 in
  block_length <- detect_ieee1212_bus_info_block_length data length offset ;;
  head <- detect_ieee1212_bus_info_block data length offset block_length head ;;
  let offset := offset + block_length in
  block_length <- detect_ieee1212_block_length data length offset ;;
  detect_ieee1212_root_directory_block fuel data length offset block_length head.

(** ** Normalisation and orphan blocks *)

(** The difference [next_offset - entry->offset] is one of [size_t]; it
    is taken only where the block ends behind [next_offset], and it is the
    difference of the integers on a list in ascending order whose last
    block starts in the buffer, as every list of the discovery is. *)
Fixpoint normalize_blocks (head : list_head) (length : Z) : list_head :=
  match head with
  | [] => []
  | entry :: rest =>
      let next_offset :=
        match rest with
        | peek :: _ => blk_offset peek
        | [] => length
        end in
      (if blk_offset entry + blk_length entry >? next_offset
       then set_length entry (next_offset - blk_offset entry)
       else entry) :: normalize_blocks rest length
  end.

(** The [while] loop of [fulfill_orphan_blocks]; the cursor [entry] is the
    [i]-th descriptor of the list, [NULL] when there is none. *)
Fixpoint fulfill_loop (fuel : nat) (length : Z) (i : nat) (head : list_head)
    : result list_head :=
  match fuel with
  | O => OutOfFuel
  | S fuel' =>
      match nth_error head i with
      | None => Ok head
      | Some entry =>
          let next_offset :=
            match nth_error head (S i) with
            | Some peek => blk_offset peek
            | None => length
            end in
          if blk_offset entry + blk_length entry >=? next_offset then
            fulfill_loop fuel' length (S i) head
          else
            let orphan_offset := blk_offset entry + blk_length entry in
            let orphan :=
              {| blk_offset := orphan_offset;
                 blk_length := next_offset - orphan_offset;
                 block_type := ORPHAN_BLOCK;
                 blk_data := None |} in
            fulfill_loop fuel' length
              (if (insert_position head orphan <=? i)%nat then S i else i)
              (insert_block_by_offset head orphan)
      end
  end.

(** On the lists the analyser builds the loop takes at most three steps
    for each descriptor it starts from (see [fulfill_loop_sorted]). *)
Definition fulfill_orphan_blocks (data : list byte) (length : Z)
    (head : list_head) : result list_head :=
  fulfill_loop (3 * List.length head + 1) length 0 head.

(** ** Byte order of the input *)

Definition bus_info_block_is_big_endian (data : list byte) (length offset : Z)
    : bool :=
  let quadlet := load32 data (4 * (offset + 1)) in
  quadlet =? 0x1394.

End Host.

(** ** Text

    A line buffer holds [LINE_WIDTH] bytes.  The formatters build a line as
    the concatenation of the pieces their [snprintf] calls append;
    [print_blocks] prints what the buffer keeps of it, its first
    [LINE_WIDTH - 1] characters ([clip_line]). *)

Definition LINE_WIDTH : Z := 100.

Definition clip_line (s : string) : string :=
  String.substring 0 (Z.to_nat (LINE_WIDTH - 1)) s.

Definition digit_char (d : Z) : ascii :=
  if d <? 10 then ascii_of_N (Z.to_N (48 + d)) else ascii_of_N (Z.to_N (87 + d)).

Fixpoint digits_of (base : Z) (fuel : nat) (n : Z) (acc : string) : string :=
  match fuel with
  | O => acc
  | S fuel' =>
      let acc' := String (digit_char (n mod base)) acc in
      if n / base =? 0 then acc' else digits_of base fuel' (n / base) acc'
  end.

(** [%d] and [%ld] of a value that is not negative; [%x] and [%lx]. *)
Definition dec (n : Z) : string := digits_of 10 64 n EmptyString.
Definition hex (n : Z) : string := digits_of 16 64 n EmptyString.

Fixpoint fill (c : ascii) (n : nat) : string :=
  match n with
  | O => EmptyString
  | S n' => String c (fill c n')
  end.

Definition pad_left (c : ascii) (width : nat) (s : string) : string :=
  fill c (width - String.length s) +++ s.

(** [%0<width>x] and [%<width>lx]. *)
Definition hex_zero (width : nat) (n : Z) : string := pad_left "0" width (hex n).
Definition hex_blank (width : nat) (n : Z) : string := pad_left " " width (hex n).

(** [%c]. *)
Definition char_of (letter : Z) : string :=
  String (ascii_of_N (Z.to_N letter)) EmptyString.

Definition dquote : string := String (ascii_of_N 34) EmptyString.

(** [%g] of [0.5 * n]. *)
Definition halves (n : Z) : string :=
  if n mod 2 =? 0 then dec (n / 2) else dec (n / 2) +++ ".5".

Definition bit (quadlet mask shift : Z) : Z :=
  if Z.shiftr (Z.land quadlet mask) shift =? 0 then 0 else 1.

Definition IEEE1212_REGISTER_SPACE_ADDRESS : Z := 0xfffff0000000.
Definition IEEE1212_CONFIG_ROM_OFFSET : Z := 0x400.

Definition KEY_ID_CSR_DESCRIPTOR : Z := 0x01.
Definition KEY_ID_CSR_BUS_DEP_INFO : Z := 0x02.
Definition KEY_ID_CSR_VENDOR_INFO : Z := 0x03.
Definition KEY_ID_CSR_HARDWARE_VERSION : Z := 0x04.
Definition KEY_ID_CSR_MODULE_INFO : Z := 0x07.
Definition KEY_ID_CSR_NODE_CAPS : Z := 0x0c.
Definition KEY_ID_CSR_EUI_64 : Z := 0x0d.
Definition KEY_ID_CSR_UNIT : Z := 0x11.
Definition KEY_ID_CSR_SPECIFIER_ID : Z := 0x12.
Definition KEY_ID_CSR_VERSION : Z := 0x13.
Definition KEY_ID_CSR_DEP_INFO : Z := 0x14.
Definition KEY_ID_CSR_UNIT_LOCATION : Z := 0x15.
Definition KEY_ID_CSR_MODEL : Z := 0x17.
Definition KEY_ID_CSR_INSTANCE : Z := 0x18.
Definition KEY_ID_CSR_KEYWORD : Z := 0x19.
Definition KEY_ID_CSR_FEATURE : Z := 0x1a.
Definition KEY_ID_CSR_MODIFIABLE_DESC : Z := 0x1f.
Definition KEY_ID_CSR_DIRECTORY_ID : Z := 0x20.

Definition INVALID_KEY_ID : Z := 0xff.
Definition INVALID_KEY_VALUE : Z := 0xffffffff.

Definition UNSPECIFIED_ENTRY_NAME : string := "(unspecified)".

Record spec_identifier : Type := {
  specifier_id : Z;
  version : Z
}.

Definition spec_identifier_eqb (a b : spec_identifier) : bool :=
  (specifier_id a =? specifier_id b) && (version a =? version b).

Definition format_line_prefix (offset quadlet : Z) (add_delimiter : bool)
    : string :=
  let offset := offset + IEEE1212_CONFIG_ROM_OFFSET in
  hex_blank 3 offset +++ "  " +++ hex_zero 8 quadlet
    +++ (if add_delimiter then "  " else EmptyString).

Definition format_blank_prefix : string :=
  fill " " (String.length
              (hex_blank 3 IEEE1212_CONFIG_ROM_OFFSET +++ "  " +++ hex_zero 8 0
                 +++ "  ")).

Definition format_horizontal_line : string :=
  "-----------------------------------------------------------------".

(** ** CRC *)

Definition crc_step (crc quadlet shift : Z) : Z :=
  let sum := Z.land (Z.lxor (Z.shiftr crc 12) (Z.shiftr quadlet shift)) 0x0000000f in
  Z.land
    (Z.lxor
       (Z.lxor (Z.lxor (wrap32 (Z.shiftl crc 4)) (Z.shiftl sum 12))
          (Z.shiftl sum 5))
       sum)
    0x0000ffff.

(** The inner loop, [shift] from 28 down to 0 in steps of 4. *)
Definition crc_quadlet (crc quadlet : Z) : Z :=
  fold_left (fun crc shift => crc_step crc quadlet shift)
    [28; 24; 20; 16; 12; 8; 4; 0] crc.

Fixpoint crc_loop (quadlet : Z -> Z) (count : nat) (i : Z) (crc : Z) : Z :=
  match count with
  | O => crc
  | S count' => crc_loop quadlet count' (i + 1) (crc_quadlet crc (quadlet i))
  end.

(** [quadlet i] is [quadlet[i]] of the source. *)
Definition compute_itu_t_crc_16 (quadlet : Z -> Z) (quadlet_count : Z) : Z :=
  crc_loop quadlet (Z.to_nat quadlet_count) 0 0.

(** ** Headers of blocks *)

Definition format_bus_info_metadata (quadlet : Z -> Z)
    (quadlet_count data_length : Z) : string :=
  let block_length :=
    Z.shiftr (Z.land (quadlet 0) IEEE1212_BUS_INFO_BLOCK_LENGTH_MASK)
      IEEE1212_BUS_INFO_BLOCK_LENGTH_SHIFT in
  let crc_length :=
    Z.shiftr (Z.land (quadlet 0) IEEE1212_BUS_INFO_CRC_LENGTH_MASK)
      IEEE1212_BUS_INFO_CRC_LENGTH_SHIFT in
  let crc :=
    Z.shiftr (Z.land (quadlet 0) IEEE1212_BUS_INFO_CRC_MASK)
      IEEE1212_BUS_INFO_CRC_SHIFT in
  let head_text :=
    "bus_info_length " +++ dec block_length +++ ", crc_length " +++ dec crc_length in
  let '(up_to, actual_crc) :=
    if 4 * (crc_length + 1) <=? data_length then
      (EmptyString, compute_itu_t_crc_16 (fun i => quadlet (i + 1)) crc_length)
    else
      let effective_crc_length := ((data_length - 4) / 4) mod 256 in
      (" (up to " +++ dec effective_crc_length +++ ")",
       compute_itu_t_crc_16 (fun i => quadlet (i + 1)) effective_crc_length) in
  head_text +++ up_to +++ ", crc " +++ dec crc
    +++ (if negb (crc =? actual_crc)
         then " (should be " +++ dec actual_crc +++ ")"
         else EmptyString).

Definition format_block_metadata (block_name : string) (quadlet : Z -> Z)
    (quadlet_count : Z) : string :=
  let block_length :=
    Z.shiftr (Z.land (quadlet 0) IEEE1212_BLOCK_LENGTH_MASK)
      IEEE1212_BLOCK_LENGTH_SHIFT in
  let block_crc :=
    Z.shiftr (Z.land (quadlet 0) IEEE1212_BLOCK_CRC_MASK)
      IEEE1212_BLOCK_CRC_SHIFT in
  let actual_block_crc :=
    compute_itu_t_crc_16 (fun i => quadlet (i + 1)) (quadlet_count - 1) in
  block_name +++ "_length " +++ dec block_length
    +++ (if negb (1 + block_length =? quadlet_count)
         then " (actual length " +++ dec (quadlet_count - 1) +++ ")"
         else EmptyString)
    +++ ", crc " +++ dec block_crc
    +++ (if negb (block_crc =? actual_block_crc)
         then " (should be " +++ dec actual_block_crc +++ ")"
         else EmptyString).

(** ** Key formatters *)

(** The union [format_content]: [NoContent] is the null pointer; the only
    directory printer of the source is [format_directory_entries].  A
    printer of the content of a leaf gets the offset of the content in the
    array [data] of [main]; its result is [None] where it reads behind the
    end of the array. *)
Inductive content_formatter : Type :=
| NoContent
| ImmediateContent (immediate : Z -> string)
| LeafContent (leaf : Z -> (Z -> Z) -> Z -> option (list string))
| DirectoryContent.

(** [sizeof(data)] in [main]. *)
Definition DATA_SIZE : Z := 1024.

(** A printer that tests [quadlet_count] before it reads: it reads the
    quadlets of the leaf only, which lie in the array. *)
Definition within_leaf (leaf : Z -> (Z -> Z) -> Z -> list string)
    : Z -> (Z -> Z) -> Z -> option (list string) :=
  fun offset quadlet quadlet_count => Some (leaf offset quadlet quadlet_count).

Record key_formatter : Type := {
  kf_key_type : Z;
  kf_key_id : Z;
  key_id_name : string;
  format_content : content_formatter
}.

(** [for (i = first; i < first + count; ++i)], one line for each [i]. *)
Fixpoint lines_loop (line : Z -> string) (count : nat) (i : Z) : list string :=
  match count with
  | O => []
  | S count' => line i :: lines_loop line count' (i + 1)
  end.

Definition quadlet_letter (quadlet j : Z) : Z :=
  Z.land (Z.shiftr quadlet (24 - j * 8)) 0xff.

(** The four letters of a quadlet, without the null ones. *)
Definition quadlet_text (quadlet : Z) : string :=
  String.concat EmptyString
    (map (fun j =>
            let letter := quadlet_letter quadlet j in
            if negb (letter =? 0) then char_of letter else EmptyString)
       [0; 1; 2; 3]).

Definition quoted_quadlet_line (offset quadlet : Z) : string :=
  format_line_prefix offset quadlet true
    +++ (if quadlet >? 0 then dquote +++ quadlet_text quadlet +++ dquote
         else EmptyString).

Definition format_csr_textual_descriptor_leaf_content (offset : Z)
    (quadlet : Z -> Z) (quadlet_count : Z) : list string :=
  if quadlet_count <? 2 then []
  else
    let width := Z.shiftr (quadlet 0) 28 in
    let character_set := Z.shiftr (Z.land (quadlet 0) 0x0fff0000) 16 in
    let language := Z.shiftr (Z.land (quadlet 0) 0x0000ffff) 0 in
    (format_line_prefix offset (quadlet 0) true
       +++ (if character_set =? 0 then "minimal ASCII"
            else "width " +++ dec width +++ ", character_set "
                   +++ dec character_set +++ ", language " +++ dec language))
      :: lines_loop (fun i => quoted_quadlet_line (offset + i * 4) (quadlet i))
           (Z.to_nat (quadlet_count - 1)) 1.

Definition format_csr_icon_descriptor_leaf_content (offset : Z)
    (quadlet : Z -> Z) (quadlet_count : Z) : list string :=
  lines_loop (fun i => format_line_prefix (offset + i * 4) (quadlet i) false)
    (Z.to_nat quadlet_count) 0.

Definition format_csr_unspecified_descriptor_leaf_content (offset : Z)
    (quadlet : Z -> Z) (quadlet_count : Z) : list string :=
  lines_loop (fun i => format_line_prefix (offset + i * 4) (quadlet i) false)
    (Z.to_nat quadlet_count) 0.

Definition CSR_DESC_TYPE_MASK : Z := 0xff000000.
Definition CSR_DESC_TYPE_SHIFT : Z := 24.
Definition CSR_SPEC_MASK : Z := 0x00ffffff.
Definition CSR_SPEC_SHIFT : Z := 0.
Definition CSR_DESC_TYPE_TEXTUAL : Z := 0x00.
Definition CSR_DESC_TYPE_ICON : Z := 0x01.

Definition format_csr_descriptor_leaf_content (offset : Z)
    (quadlet : Z -> Z) (quadlet_count : Z) : list string :=
  if quadlet_count <? 1 then []
  else
    let desc_type :=
      Z.shiftr (Z.land (quadlet 0) CSR_DESC_TYPE_MASK) CSR_DESC_TYPE_SHIFT in
    let spec_id := Z.land (Z.land (quadlet 0) CSR_SPEC_MASK) CSR_SPEC_SHIFT in
    let '(desc_type_name, format) :=
      if desc_type =? CSR_DESC_TYPE_TEXTUAL then
        ("textual descriptor", format_csr_textual_descriptor_leaf_content)
      else if desc_type =? CSR_DESC_TYPE_ICON then
        ("icon descriptor", format_csr_icon_descriptor_leaf_content)
      else
        ("descriptor_type " +++ hex_zero 2 desc_type +++ ", specifier_ID "
           +++ hex spec_id,
         format_csr_unspecified_descriptor_leaf_content) in
    (format_line_prefix offset (quadlet 0) true +++ desc_type_name)
      :: format (offset + 4) (fun i => quadlet (i + 1)) (quadlet_count - 1).

(** The letters of a keyword quadlet; [last] says that the quadlet is the
    last one of the leaf, where a null letter ends the loop. *)
Fixpoint keyword_letters (quadlet : Z) (last : bool) (js : list Z) : string :=
  match js with
  | [] => EmptyString
  | j :: js' =>
      let letter := quadlet_letter quadlet j in
      if negb (letter =? 0) then
        char_of letter +++ keyword_letters quadlet last js'
      else if negb last then
        (dquote +++ " " +++ dquote) +++ keyword_letters quadlet last js'
      else EmptyString
  end.

Definition format_csr_keyword_leaf_content (offset : Z)
    (quadlet : Z -> Z) (quadlet_count : Z) : list string :=
  lines_loop
    (fun i =>
       format_line_prefix (offset + 4 * i) (quadlet i) true
         +++ (if quadlet i >? 0 then
                dquote
                  +++ keyword_letters (quadlet i) (negb (i <? quadlet_count - 1))
                        [0; 1; 2; 3]
                  +++ dquote
              else EmptyString))
    (Z.to_nat quadlet_count) 0.

Definition format_csr_unit_location_leaf_content (offset : Z)
    (quadlet : Z -> Z) (quadlet_count : Z) : list string :=
  if quadlet_count <? 4 then []
  else
    let base_address := Z.lor (Z.shiftl (quadlet 0) 32) (quadlet 1) in
    let upper_bound := Z.lor (Z.shiftl (quadlet 2) 32) (quadlet 3) in
    [ format_line_prefix offset (quadlet 0) true
        +++ "base_address " +++ hex_zero 16 base_address;
      format_line_prefix (offset + 4) (quadlet 1) false;
      format_line_prefix (offset + 8) (quadlet 2) true
        +++ "upper_bound " +++ hex_zero 16 upper_bound;
      format_line_prefix (offset + 12) (quadlet 3) false ].

Definition company_id_text (q0 : Z) : string :=
  "company_id " +++ hex_zero 6 (Z.shiftr (Z.land q0 0xffffff00) 8) +++ "     | ".

Definition device_id_text (q0 q1 : Z) : string :=
  let device_id := Z.lor (Z.shiftl (Z.land q0 0x000000ff) 32) q1 in
  let eui64 := Z.lor (Z.shiftl q0 32) q1 in
  "device_id " +++ hex_zero 10 device_id +++ "  | EUI-64 " +++ hex_zero 16 eui64.

Definition format_csr_eui64_leaf_content (offset : Z)
    (quadlet : Z -> Z) (quadlet_count : Z) : list string :=
  if quadlet_count <? 2 then []
  else
    [ format_line_prefix offset (quadlet 0) true +++ company_id_text (quadlet 0);
      format_line_prefix (offset + 4) (quadlet 1) true
        +++ device_id_text (quadlet 0) (quadlet 1) ].

Definition format_unspecified_leaf_content (offset : Z)
    (quadlet : Z -> Z) (quadlet_count : Z) : list string :=
  lines_loop (fun i => format_line_prefix (offset + i * 4) (quadlet i) false)
    (Z.to_nat quadlet_count) 0.

Definition CSR_DESCRIPTOR_NAME : string := "descriptor".
Definition CSR_BUS_DEP_INFO_NAME : string := "bus dependent info".
Definition CSR_VENDOR_INFO_NAME : string := "vendor".
Definition CSR_HARDWARE_VERSION_NAME : string := "hardware version".
Definition CSR_MODULE_INFO_NAME : string := "module".
Definition CSR_NODE_CAPS_NAME : string := "node capabilities".
Definition CSR_EUI_64_NAME : string := "eui-64".
Definition CSR_UNIT_NAME : string := "unit".
Definition CSR_SPECIFIER_ID_NAME : string := "specifier id".
Definition CSR_VERSION_NAME : string := "version".
Definition CSR_DEP_INFO_NAME : string := "dependent info".
Definition CSR_UNIT_LOCATION_NAME : string := "unit location".
Definition CSR_MODEL_NAME : string := "model".
Definition CSR_INSTANCE_NAME : string := "instance".
Definition CSR_KEYWORD_NAME : string := "keyword".
Definition CSR_FEATURE_NAME : string := "feature".
Definition CSR_DIRECTORY_ID_NAME : string := "directory id".

Definition formatter (key_type key_id : Z) (name : string)
    (content : content_formatter) : key_formatter :=
  {| kf_key_type := key_type; kf_key_id := key_id; key_id_name := name;
     format_content := content |}.

Definition csr_key_formatters : list key_formatter :=
  [ formatter KEY_TYPE_LEAF KEY_ID_CSR_DESCRIPTOR CSR_DESCRIPTOR_NAME
      (LeafContent (within_leaf format_csr_descriptor_leaf_content));
    formatter KEY_TYPE_DIRECTORY KEY_ID_CSR_DESCRIPTOR CSR_DESCRIPTOR_NAME
      DirectoryContent;
    formatter KEY_TYPE_IMMEDIATE KEY_ID_CSR_BUS_DEP_INFO CSR_BUS_DEP_INFO_NAME
      NoContent;
    formatter KEY_TYPE_LEAF KEY_ID_CSR_BUS_DEP_INFO CSR_BUS_DEP_INFO_NAME
      (LeafContent (within_leaf format_unspecified_leaf_content));
    formatter KEY_TYPE_DIRECTORY KEY_ID_CSR_BUS_DEP_INFO CSR_BUS_DEP_INFO_NAME
      DirectoryContent;
    formatter KEY_TYPE_IMMEDIATE KEY_ID_CSR_VENDOR_INFO CSR_VENDOR_INFO_NAME
      NoContent;
    formatter KEY_TYPE_LEAF KEY_ID_CSR_VENDOR_INFO CSR_VENDOR_INFO_NAME
      (LeafContent (within_leaf format_unspecified_leaf_content));
    formatter KEY_TYPE_DIRECTORY KEY_ID_CSR_VENDOR_INFO CSR_VENDOR_INFO_NAME
      DirectoryContent;
    formatter KEY_TYPE_IMMEDIATE KEY_ID_CSR_HARDWARE_VERSION
      CSR_HARDWARE_VERSION_NAME NoContent;
    formatter KEY_TYPE_LEAF KEY_ID_CSR_MODULE_INFO CSR_MODULE_INFO_NAME
      (LeafContent (within_leaf format_csr_eui64_leaf_content));
    formatter KEY_TYPE_DIRECTORY KEY_ID_CSR_MODULE_INFO CSR_MODULE_INFO_NAME
      DirectoryContent;
    formatter KEY_TYPE_LEAF KEY_ID_CSR_EUI_64 CSR_EUI_64_NAME
      (LeafContent (within_leaf format_csr_eui64_leaf_content));
    formatter KEY_TYPE_DIRECTORY KEY_ID_CSR_UNIT CSR_UNIT_NAME DirectoryContent;
    formatter KEY_TYPE_IMMEDIATE KEY_ID_CSR_SPECIFIER_ID CSR_SPECIFIER_ID_NAME
      NoContent;
    formatter KEY_TYPE_IMMEDIATE KEY_ID_CSR_VERSION CSR_VERSION_NAME NoContent;
    formatter KEY_TYPE_IMMEDIATE KEY_ID_CSR_DEP_INFO CSR_DEP_INFO_NAME NoContent;
    formatter KEY_TYPE_CSR_OFFSET KEY_ID_CSR_DEP_INFO CSR_DEP_INFO_NAME NoContent;
    formatter KEY_TYPE_LEAF KEY_ID_CSR_DEP_INFO CSR_DEP_INFO_NAME
      (LeafContent (within_leaf format_unspecified_leaf_content));
    formatter KEY_TYPE_DIRECTORY KEY_ID_CSR_DEP_INFO CSR_DEP_INFO_NAME
      DirectoryContent;
    formatter KEY_TYPE_LEAF KEY_ID_CSR_UNIT_LOCATION CSR_UNIT_LOCATION_NAME
      (LeafContent (within_leaf format_csr_unit_location_leaf_content));
    formatter KEY_TYPE_IMMEDIATE KEY_ID_CSR_MODEL CSR_MODEL_NAME NoContent;
    formatter KEY_TYPE_DIRECTORY KEY_ID_CSR_INSTANCE CSR_INSTANCE_NAME
      DirectoryContent;
    formatter KEY_TYPE_LEAF KEY_ID_CSR_KEYWORD CSR_KEYWORD_NAME
      (LeafContent (within_leaf format_csr_keyword_leaf_content));
    formatter KEY_TYPE_DIRECTORY KEY_ID_CSR_FEATURE CSR_FEATURE_NAME
      DirectoryContent;
    formatter KEY_TYPE_IMMEDIATE KEY_ID_CSR_DIRECTORY_ID CSR_DIRECTORY_ID_NAME
      NoContent ].

(** *** IEEE 1394 bus *)

Definition format_ieee1394_bus_node_capabilities_immediate_value (value : Z)
    : string :=
  "per IEEE 1394".

Definition ieee1394_bus_key_formatters : list key_formatter :=
  [ formatter KEY_TYPE_IMMEDIATE KEY_ID_CSR_NODE_CAPS CSR_NODE_CAPS_NAME
      (ImmediateContent format_ieee1394_bus_node_capabilities_immediate_value) ].

(** *** SBP *)

Definition KEY_ID_SBP2_UNIT_UNIQUE_ID : Z := 0x0d.
Definition KEY_ID_SBP2_LOGICAL_UNIT_NUMBER : Z := 0x14.
Definition KEY_ID_SBP2_MANAGEMENT_AGENT : Z := 0x14.
Definition KEY_ID_SBP2_LOGICAL_UNIT : Z := 0x14.
Definition KEY_ID_SBP3_REVISION : Z := 0x21.
Definition KEY_ID_SBP3_PLUG_CONTROL_REGISTER : Z := 0x32.
Definition KEY_ID_SBP2_COMMAND_SET_SPEC_ID : Z := 0x38.
Definition KEY_ID_SBP2_COMMAND_SET : Z := 0x39.
Definition KEY_ID_SBP2_UNIT_CHARACTERISTIC : Z := 0x3a.
Definition KEY_ID_SBP2_COMMAND_SET_REVISION : Z := 0x3b.
Definition KEY_ID_SBP2_FIRMWARE_REVISION : Z := 0x3c.
Definition KEY_ID_SBP2_RECONNECT_TIMEOUT : Z := 0x3d.
Definition KEY_ID_SBP3_FAST_START : Z := 0x3e.

Definition SBP2_UNIT_UNIQUE_ID_NAME : string := "unit unique id".
Definition SBP2_LOGICAL_UNIT_NUMBER_NAME : string := "logical unit number".
Definition SBP2_MANAGEMENT_AGENT_NAME : string := "management agent CSR".
Definition SBP2_LOGICAL_UNIT_NAME : string := "logical unit".
Definition SBP3_REVISION_NAME : string := "revision".
Definition SBP3_PLUG_CONTROL_REGISTER_NAME : string := "plug control register".
Definition SBP2_COMMAND_SET_SPEC_ID_NAME : string := "command set spec id".
Definition SBP2_COMMAND_SET_NAME : string := "command set".
Definition SBP2_UNIT_CHARACTERISTIC_NAME : string := "unit char.".
Definition SBP2_COMMAND_SET_REVISION_NAME : string := "command set revision".
Definition SBP2_FIRMWARE_REVISION_NAME : string := "firmware revision".
Definition SBP2_RECONNECT_TIMEOUT_NAME : string := "reconnect timeout".
Definition SBP3_FAST_START_NAME : string := "fast start".

Definition device_types : list string :=
  [ "Disk"; "Tape"; "Printer"; "Processor"; "WORM"; "CD/DVD"; "Scanner"; "MOD";
    "Changer"; "Comm"; "Prepress"; "Prepress"; "RAID"; "Enclosure"; "RBC";
    "OCRW"; "Bridge"; "OSD"; "ADC-2" ].

Definition format_sbp_logical_unit_number_immediate_value (value : Z) : string :=
  let extended := bit value 0x800000 23 in
  let ordered := Z.shiftr (Z.land value 0x400000) 22 in
  let isoc := bit value 0x200000 21 in
  let device_type := Z.shiftr (Z.land value 0x1f) 16 in
  let logical_unit := Z.land value 0x00ffff in
  (if extended =? 1 then " extended_status 1," else EmptyString)
    +++ (" ordered " +++ dec ordered +++ ",")
    +++ (if isoc =? 1 then " isoch 1," else EmptyString)
    +++ (if device_type <? Z.of_nat (List.length device_types) then
           "type " +++ nth (Z.to_nat device_type) device_types EmptyString +++ ","
         else if logical_unit =? 0x1e then "type w.k.LUN,"
         else if logical_unit =? 0x1f then "type unknown,"
         else "type " +++ hex_zero 2 device_type +++ "?,").

Definition format_sbp3_revision_immediate_value (value : Z) : string :=
  dec value
    +++ (if value =? 0 then " = SBP-2"
         else if value =? 1 then " = SBP-3"
         else EmptyString).

Definition format_sbp3_plug_control_register_immediate_value (value : Z)
    : string :=
  let is_output := bit value 0x20 5 in
  let plug_index := Z.land value 0x1f in
  "plug control register: " +++ (if is_output =? 1 then "o" else "i")
    +++ "PCR, plug_index " +++ dec plug_index.

Definition format_sbp_command_set_immediate_value (value : Z) : string :=
  if value =? 0x0104d8 then "SCSI Primary Commands 2 and related standards"
  else if value =? 0x010001 then "AV/C"
  else EmptyString.

Definition format_sbp_unit_characteristic_immediate_value (value : Z) : string :=
  let distributed_data := bit value 0x010000 16 in
  let mgt_orb_timeout_halves := Z.shiftr (Z.land value 0x00ff00) 8 in
  let orb_size := Z.land value 0x0000ff in
  (if distributed_data =? 1 then "distrib. data 1, " else EmptyString)
    +++ "mgt_ORB_timeout " +++ halves mgt_orb_timeout_halves +++ "s, ORB_size "
    +++ dec orb_size +++ " quadlets".

Definition format_sbp_firmware_revision_immediate_value (value : Z) : string :=
  hex_zero 6 value.

Definition format_sbp_reconnect_timeout_immediate_value (value : Z) : string :=
  let max_reconnect_hold := 1 + Z.land value 0x00ffff in
  "reconnect timeout: max_reconnect_hold " +++ dec max_reconnect_hold +++ "s".

Definition format_sbp3_fast_start_immediate_value (value : Z) : string :=
  let max_payload := Z.shiftr (Z.land value 0x00ff00) 8 in
  let fast_start_offset := Z.land value 0x0000ff in
  (if max_payload >? 0 then
     " max_payload " +++ dec (Z.shiftl max_payload 2) +++ " bytes,"
   else " max_payload per max_rec,")
    +++ " offset " +++ dec fast_start_offset.

Definition incits_sbp_key_formatters : list key_formatter :=
  [ formatter KEY_TYPE_LEAF KEY_ID_SBP2_UNIT_UNIQUE_ID SBP2_UNIT_UNIQUE_ID_NAME
      (LeafContent (within_leaf format_csr_eui64_leaf_content));
    formatter KEY_TYPE_IMMEDIATE KEY_ID_SBP2_LOGICAL_UNIT_NUMBER
      SBP2_LOGICAL_UNIT_NUMBER_NAME
      (ImmediateContent format_sbp_logical_unit_number_immediate_value);
    formatter KEY_TYPE_CSR_OFFSET KEY_ID_SBP2_MANAGEMENT_AGENT
      SBP2_MANAGEMENT_AGENT_NAME NoContent;
    formatter KEY_TYPE_DIRECTORY KEY_ID_SBP2_LOGICAL_UNIT SBP2_LOGICAL_UNIT_NAME
      DirectoryContent;
    formatter KEY_TYPE_IMMEDIATE KEY_ID_SBP3_REVISION SBP3_REVISION_NAME
      (ImmediateContent format_sbp3_revision_immediate_value);
    formatter KEY_TYPE_IMMEDIATE KEY_ID_SBP3_PLUG_CONTROL_REGISTER
      SBP3_PLUG_CONTROL_REGISTER_NAME
      (ImmediateContent format_sbp3_plug_control_register_immediate_value);
    formatter KEY_TYPE_IMMEDIATE KEY_ID_SBP2_COMMAND_SET_SPEC_ID
      SBP2_COMMAND_SET_SPEC_ID_NAME NoContent;
    formatter KEY_TYPE_IMMEDIATE KEY_ID_SBP2_COMMAND_SET SBP2_COMMAND_SET_NAME
      (ImmediateContent format_sbp_command_set_immediate_value);
    formatter KEY_TYPE_IMMEDIATE KEY_ID_SBP2_UNIT_CHARACTERISTIC
      SBP2_UNIT_CHARACTERISTIC_NAME
      (ImmediateContent format_sbp_unit_characteristic_immediate_value);
    formatter KEY_TYPE_IMMEDIATE KEY_ID_SBP2_COMMAND_SET_REVISION
      SBP2_COMMAND_SET_REVISION_NAME NoContent;
    formatter KEY_TYPE_IMMEDIATE KEY_ID_SBP2_FIRMWARE_REVISION
      SBP2_FIRMWARE_REVISION_NAME
      (ImmediateContent format_sbp_firmware_revision_immediate_value);
    formatter KEY_TYPE_IMMEDIATE KEY_ID_SBP2_RECONNECT_TIMEOUT
      SBP2_RECONNECT_TIMEOUT_NAME
      (ImmediateContent format_sbp_reconnect_timeout_immediate_value);
    formatter KEY_TYPE_IMMEDIATE KEY_ID_SBP3_FAST_START SBP3_FAST_START_NAME
      (ImmediateContent format_sbp3_fast_start_immediate_value) ].

(** *** IIDC *)

Definition KEY_ID_IIDC_CMD_REG_BASE : Z := 0x00.
Definition KEY_ID_IIDC_VENDOR_NAME : Z := 0x01.
Definition KEY_ID_IIDC_MODEL_NAME : Z := 0x02.
Definition IIDC_CMD_REG_BASE_NAME : string := "command_regs_base".
Definition IIDC_VENDOR_NAME : string := "vendor name".
Definition IIDC_MODEL_NAME : string := "model name".

Definition KEY_ID_IIDC_131_UNIT_SUB_SW_VERSION : Z := 0x38.
Definition KEY_ID_IIDC_131_RESERVED_0 : Z := 0x39.
Definition KEY_ID_IIDC_131_RESERVED_1 : Z := 0x3a.
Definition KEY_ID_IIDC_131_RESERVED_2 : Z := 0x3b.
Definition KEY_ID_IIDC_131_VENDOR_UNIQUE_INFO_0 : Z := 0x3c.
Definition KEY_ID_IIDC_131_VENDOR_UNIQUE_INFO_1 : Z := 0x3d.
Definition KEY_ID_IIDC_131_VENDOR_UNIQUE_INFO_2 : Z := 0x3e.
Definition KEY_ID_IIDC_131_VENDOR_UNIQUE_INFO_3 : Z := 0x3f.
Definition IIDC_131_UNIT_SUB_SW_VERSION_NAME : string := "unit sub sw version".
Definition IIDC_131_RESERVED_NAME : string := "(reserved)".
Definition IIDC_131_VENDOR_UNIQUE_INFO_0_NAME : string := "vendor_unique_info_0".
Definition IIDC_131_VENDOR_UNIQUE_INFO_1_NAME : string := "vendor_unique_info_1".
Definition IIDC_131_VENDOR_UNIQUE_INFO_2_NAME : string := "vendor_unique_info_2".
Definition IIDC_131_VENDOR_UNIQUE_INFO_3_NAME : string := "vendor_unique_info_3".
Definition IIDC2_CMD_REG_BASE_NAME : string := "IIDC2Entry".

Definition format_iidc_131_unit_sub_sw_version_immediate_value (value : Z)
    : string :=
  "v1.3" +++ dec (Z.shiftr value 4).

Definition format_iidc2_100_unit_sub_sw_version_immediate_value (value : Z)
    : string :=
  let major := Z.shiftr value 16 in
  let minor := Z.land (Z.shiftr value 8) 0xff in
  let micro := Z.land value 0xff in
  "v" +++ dec major +++ "." +++ dec minor +++ "." +++ dec micro.

(** The first loop reads [quadlet[0]] and [quadlet[1]] and writes two
    lines whatever [quadlet_count] is: for a leaf whose content starts less
    than eight bytes before the end of the array, it reads behind the
    array. *)
Definition format_iidc_104_leaf_content (offset : Z) (quadlet : Z -> Z)
    (quadlet_count : Z) : option (list string) :=
  if offset + 8 >? DATA_SIZE then None
  else
    Some
      (lines_loop (fun i => format_line_prefix (offset + i * 4) (quadlet i) false)
         2 0
         ++ lines_loop (fun i => quoted_quadlet_line (offset + i * 4) (quadlet i))
              (Z.to_nat (quadlet_count - 2)) 2).

Definition ta1394_iidc_104_key_formatters : list key_formatter :=
  [ formatter KEY_TYPE_CSR_OFFSET KEY_ID_IIDC_CMD_REG_BASE IIDC_CMD_REG_BASE_NAME
      NoContent;
    formatter KEY_TYPE_LEAF KEY_ID_IIDC_VENDOR_NAME IIDC_VENDOR_NAME
      (LeafContent format_iidc_104_leaf_content);
    formatter KEY_TYPE_LEAF KEY_ID_IIDC_MODEL_NAME IIDC_MODEL_NAME
      (LeafContent format_iidc_104_leaf_content) ].

Definition iidc_131_immediate_formatters (unit_sub_sw_version : Z -> string)
    : list key_formatter :=
  [ formatter KEY_TYPE_IMMEDIATE KEY_ID_IIDC_131_UNIT_SUB_SW_VERSION
      IIDC_131_UNIT_SUB_SW_VERSION_NAME (ImmediateContent unit_sub_sw_version);
    formatter KEY_TYPE_IMMEDIATE KEY_ID_IIDC_131_RESERVED_0
      IIDC_131_RESERVED_NAME NoContent;
    formatter KEY_TYPE_IMMEDIATE KEY_ID_IIDC_131_RESERVED_1
      IIDC_131_RESERVED_NAME NoContent;
    formatter KEY_TYPE_IMMEDIATE KEY_ID_IIDC_131_RESERVED_2
      IIDC_131_RESERVED_NAME NoContent;
    formatter KEY_TYPE_IMMEDIATE KEY_ID_IIDC_131_VENDOR_UNIQUE_INFO_0
      IIDC_131_VENDOR_UNIQUE_INFO_0_NAME NoContent;
    formatter KEY_TYPE_IMMEDIATE KEY_ID_IIDC_131_VENDOR_UNIQUE_INFO_1
      IIDC_131_VENDOR_UNIQUE_INFO_1_NAME NoContent;
    formatter KEY_TYPE_IMMEDIATE KEY_ID_IIDC_131_VENDOR_UNIQUE_INFO_2
      IIDC_131_VENDOR_UNIQUE_INFO_2_NAME NoContent;
    formatter KEY_TYPE_IMMEDIATE KEY_ID_IIDC_131_VENDOR_UNIQUE_INFO_3
      IIDC_131_VENDOR_UNIQUE_INFO_3_NAME NoContent ].

Definition ta1394_iidc_131_key_formatters : list key_formatter :=
  ta1394_iidc_104_key_formatters
    ++ iidc_131_immediate_formatters
         format_iidc_131_unit_sub_sw_version_immediate_value.

Definition ta1394_iidc2_100_key_formatters : list key_formatter :=
  [ formatter KEY_TYPE_CSR_OFFSET KEY_ID_IIDC_CMD_REG_BASE
      IIDC2_CMD_REG_BASE_NAME NoContent;
    formatter KEY_TYPE_LEAF KEY_ID_IIDC_VENDOR_NAME IIDC_VENDOR_NAME
      (LeafContent format_iidc_104_leaf_content);
    formatter KEY_TYPE_LEAF KEY_ID_IIDC_MODEL_NAME IIDC_MODEL_NAME
      (LeafContent format_iidc_104_leaf_content) ]
    ++ iidc_131_immediate_formatters
         format_iidc2_100_unit_sub_sw_version_immediate_value.

(** *** DPP *)

Definition KEY_ID_DPP_111_COMMAND_SET_DIRECTORY : Z := 0x14.
Definition KEY_ID_DPP_111_COMMAND_SET_SPEC_ID : Z := 0x38.
Definition KEY_ID_DPP_111_COMMAND_SET : Z := 0x39.
Definition KEY_ID_DPP_111_COMMAND_SET_DETAILS : Z := 0x3a.
Definition KEY_ID_DPP_111_CONNECTION_REGISTER : Z := 0x3b.
Definition KEY_ID_DPP_111_WRITE_TRANSACTION_INTERVAL : Z := 0x3c.
Definition KEY_ID_DPP_111_UNIT_SW_DETAILS : Z := 0x3d.
Definition DPP_111_COMMAND_SET_DIRECTORY_NAME : string := "command set directory".
Definition DPP_111_COMMAND_SET_SPEC_ID_NAME : string := "command set spec id".
Definition DPP_111_COMMAND_SET_NAME : string := "command set".
Definition DPP_111_COMMAND_SET_DETAILS_NAME : string := "command set details".
Definition DPP_111_CONNECTION_REGISTER_NAME : string := "connection CSR".
Definition DPP_111_WRITE_TRANSACTION_INTERVAL_NAME : string :=
  "write transaction interval".
Definition DPP_111_UNIT_SW_DETAILS_NAME : string := "unit sw details".

Definition format_dpp_111_command_set_immediate_value (value : Z) : string :=
  if value =? 0xb081f2 then "DPC"
  else if value =? 0x020000 then "FTC"
  else EmptyString.

Definition format_dpp_111_write_transaction_interval_immediate_value
    (value : Z) : string :=
  dec value +++ "ms".

Definition format_dpp_111_unit_sw_details_immediate_value (value : Z) : string :=
  let major := Z.shiftr (Z.land value 0x00f00000) 20 in
  let minor := Z.shiftr (Z.land value 0x000f0000) 16 in
  let micro := Z.shiftr (Z.land value 0x0000f000) 12 in
  let sdu_write_order := Z.land value 1 in
  "v" +++ dec major +++ "." +++ dec minor +++ "." +++ dec micro
    +++ ", sdu_write_order " +++ dec sdu_write_order.

Definition ta1394_dpp_111_key_formatters : list key_formatter :=
  [ formatter KEY_TYPE_DIRECTORY KEY_ID_DPP_111_COMMAND_SET_DIRECTORY
      DPP_111_COMMAND_SET_DIRECTORY_NAME DirectoryContent;
    formatter KEY_TYPE_IMMEDIATE KEY_ID_DPP_111_COMMAND_SET_SPEC_ID
      DPP_111_COMMAND_SET_SPEC_ID_NAME NoContent;
    formatter KEY_TYPE_IMMEDIATE KEY_ID_DPP_111_COMMAND_SET
      DPP_111_COMMAND_SET_NAME
      (ImmediateContent format_dpp_111_command_set_immediate_value);
    formatter KEY_TYPE_IMMEDIATE KEY_ID_DPP_111_COMMAND_SET_DETAILS
      DPP_111_COMMAND_SET_DETAILS_NAME NoContent;
    formatter KEY_TYPE_CSR_OFFSET KEY_ID_DPP_111_CONNECTION_REGISTER
      DPP_111_CONNECTION_REGISTER_NAME NoContent;
    formatter KEY_TYPE_IMMEDIATE KEY_ID_DPP_111_WRITE_TRANSACTION_INTERVAL
      DPP_111_WRITE_TRANSACTION_INTERVAL_NAME
      (ImmediateContent
         format_dpp_111_write_transaction_interval_immediate_value);
    formatter KEY_TYPE_IMMEDIATE KEY_ID_DPP_111_UNIT_SW_DETAILS
      DPP_111_UNIT_SW_DETAILS_NAME
      (ImmediateContent format_dpp_111_unit_sw_details_immediate_value) ].

(** *** IICP *)

Definition KEY_ID_IICP_DETAILS : Z := 0x38.
Definition KEY_ID_IICP_COMMAND_SET_SPEC_ID : Z := 0x39.
Definition KEY_ID_IICP_COMMAND_SET : Z := 0x3a.
Definition KEY_ID_IICP_COMMAND_SET_DETAILS : Z := 0x3b.
Definition KEY_ID_IICP_CONNECTION_REG_OFFSET : Z := 0x3c.
Definition KEY_ID_IICP_CAPABILITIES : Z := 0x3d.
Definition KEY_ID_IICP_INTERRUPT_ENABLE_REG_OFFSET : Z := 0x3e.
Definition KEY_ID_IICP_INTERRUPT_HANDR_REG_OFFSET : Z := 0x3f.
Definition IICP_DETAILS_NAME : string := "details".
Definition IICP_COMMAND_SET_SPEC_ID_NAME : string := "command set spec id".
Definition IICP_COMMAND_SET_NAME : string := "command set".
Definition IICP_COMMAND_SET_DETAILS_NAME : string := "command set details".
Definition IICP_CONNECTION_REG_OFFSET_NAME : string := "connection CSR".
Definition IICP_CAPABILITIES_NAME : string := "capabilities".
Definition IICP_INTERRUPT_ENABLE_REG_OFFSET_NAME : string := "interrupt_enable CSR".
Definition IICP_INTERRUPT_HANDR_REG_OFFSET_NAME : string := "interrupt_handlr CSR".

Definition format_iicp_details_immediate_value (value : Z) : string :=
  let major :=
    Z.land (Z.shiftr (Z.land value 0xf00000) 20) 0xf * 10
    + Z.land (Z.shiftr (Z.land value 0x0f0000) 16) 0xf in
  let minor :=
    Z.land (Z.shiftr (Z.land value 0x00f000) 12) 0xf * 10
    + Z.land (Z.shiftr (Z.land value 0x000f00) 8) 0xf in
  "v" +++ dec major +++ "." +++ dec minor.

Definition format_iicp_command_set_immediate_value (value : Z) : string :=
  if value =? 0x4b661f then "IICP only"
  else if value =? 0xc27f10 then "IICP488"
  else EmptyString.

Definition format_iicp_command_set_details_immediate_value (value : Z)
    : string :=
  let major :=
    Z.land (Z.shiftr (Z.land value 0xf00000) 20) 0xf * 10
    + Z.land (Z.shiftr (Z.land value 0x0f0000) 16) 0xf in
  let minor :=
    Z.land (Z.shiftr (Z.land value 0x00f000) 12) 0xf * 10
    + Z.land (Z.shiftr (Z.land value 0x000f00) 8) 0xf in
  "v" +++ dec major +++ "." +++ dec minor.

Definition format_iicp_capabilities_immediate_value (value : Z) : string :=
  let reserved_high_proto := Z.shiftr (Z.land value 0xff0000) 16 in
  let reserved_iicp := Z.shiftr (Z.land value 0x00ffc0) 6 in
  let ccli := Z.shiftr (Z.land value 0x000020) 5 in
  let cmgr := Z.shiftr (Z.land value 0x000010) 4 in
  let max_int_length_exponent := Z.land value 0x00000f in
  "hi proto " +++ dec reserved_high_proto +++ ", IICP " +++ dec reserved_iicp
    +++ ", ccli " +++ dec ccli +++ ", cmgr " +++ dec cmgr
    +++ (if max_int_length_exponent >? 0 then
           "  maxIntLength " +++ dec (Z.shiftl 2 max_int_length_exponent)
             +++ " bytes"
         else "  maxIntLength -").

Definition ta1394_iicp_key_formatters : list key_formatter :=
  [ formatter KEY_TYPE_IMMEDIATE KEY_ID_IICP_DETAILS IICP_DETAILS_NAME
      (ImmediateContent format_iicp_details_immediate_value);
    formatter KEY_TYPE_IMMEDIATE KEY_ID_IICP_COMMAND_SET_SPEC_ID
      IICP_COMMAND_SET_SPEC_ID_NAME NoContent;
    formatter KEY_TYPE_IMMEDIATE KEY_ID_IICP_COMMAND_SET IICP_COMMAND_SET_NAME
      (ImmediateContent format_iicp_command_set_immediate_value);
    formatter KEY_TYPE_IMMEDIATE KEY_ID_IICP_COMMAND_SET_DETAILS
      IICP_COMMAND_SET_DETAILS_NAME
      (ImmediateContent format_iicp_command_set_details_immediate_value);
    formatter KEY_TYPE_CSR_OFFSET KEY_ID_IICP_CONNECTION_REG_OFFSET
      IICP_CONNECTION_REG_OFFSET_NAME NoContent;
    formatter KEY_TYPE_IMMEDIATE KEY_ID_IICP_CAPABILITIES IICP_CAPABILITIES_NAME
      (ImmediateContent format_iicp_capabilities_immediate_value);
    formatter KEY_TYPE_CSR_OFFSET KEY_ID_IICP_INTERRUPT_ENABLE_REG_OFFSET
      IICP_INTERRUPT_ENABLE_REG_OFFSET_NAME NoContent;
    formatter KEY_TYPE_CSR_OFFSET KEY_ID_IICP_INTERRUPT_HANDR_REG_OFFSET
      IICP_INTERRUPT_HANDR_REG_OFFSET_NAME NoContent ].

(** *** Apple iSight *)

Definition KEY_ID_APPLE_ISIGHT_AUDIO_REG : Z := 0x00.
Definition APPLE_ISIGHT_AUDIO_REG_NAME : string := "register file".

Definition apple_isight_audio_key_formatters : list key_formatter :=
  [ formatter KEY_TYPE_CSR_OFFSET KEY_ID_APPLE_ISIGHT_AUDIO_REG
      APPLE_ISIGHT_AUDIO_REG_NAME NoContent ].

Definition KEY_ID_APPLE_ISIGHT_IRIS_REG : Z := 0x00.
Definition APPLE_ISIGHT_IRIS_REG_NAME : string := "Iris Status Address register".

Definition apple_isight_iris_key_formatters : list key_formatter :=
  [ formatter KEY_TYPE_CSR_OFFSET KEY_ID_APPLE_ISIGHT_IRIS_REG
      APPLE_ISIGHT_IRIS_REG_NAME NoContent ].

(** ** Specifications *)

Definition OUI_ICANN_IANA : Z := 0x00005e.
Definition SPEC_VERSION_RFC_2734 : Z := 0x000001.
Definition SPEC_VERSION_RFC_3146 : Z := 0x000002.
Definition SPEC_NAME_RFC_2734 : string := "IPv4 over 1394 (RFC 2734)".
Definition SPEC_NAME_RFC_3146 : string := "IPv6 over 1394 (RFC 3146)".

Definition OUI_INCITS : Z := 0x00609e.
Definition SPEC_VERSION_SBP : Z := 0x010483.
Definition SPEC_VERSION_SBP_AVC : Z := 0x0105bb.
Definition SPEC_NAME_SBP : string := "SBP-2".
Definition SPEC_NAME_SBP_AVC : string := "AV/C over SBP-3".

Definition OUI_1394TA : Z := 0x00a02d.
Definition SPEC_VERSION_AVC : Z := 0x010001.
Definition SPEC_VERSION_CAL : Z := 0x010002.
Definition SPEC_VERSION_EHS : Z := 0x010004.
Definition SPEC_VERSION_HAVI : Z := 0x010008.
Definition SPEC_VERSION_VENDOR_UNIQUE : Z := 0x014000.
Definition SPEC_VERSION_VENDOR_UNIQUE_AVC : Z := 0x014001.
Definition SPEC_VERSION_IIDC_104 : Z := 0x000100.
Definition SPEC_VERSION_IIDC_120 : Z := 0x000101.
Definition SPEC_VERSION_IIDC_130 : Z := 0x000102.
Definition SPEC_VERSION_IIDC2 : Z := 0x000110.
Definition SPEC_VERSION_DPP_111 : Z := 0x0a6be2.
Definition SPEC_VERSION_IICP : Z := 0x4b661f.
Definition SPEC_NAME_AVC : string := "AV/C".
Definition SPEC_NAME_CAL : string := "CAL".
Definition SPEC_NAME_EHS : string := "EHS".
Definition SPEC_NAME_HAVI : string := "HAVi".
Definition SPEC_NAME_VENDOR_UNIQUE : string := "Vendor Unique".
Definition SPEC_NAME_VENDOR_UNIQUE_AVC : string := "Vendor Unique and AV/C".
Definition SPEC_NAME_IIDC_104 : string := "IIDC 1.04".
Definition SPEC_NAME_IIDC_120 : string := "IIDC 1.20".
Definition SPEC_NAME_IIDC_130 : string := "IIDC 1.30".
Definition SPEC_NAME_IIDC2 : string := "IIDC2".
Definition SPEC_NAME_DPP_111 : string := "DPP 1.0".
Definition SPEC_NAME_IICP : string := "IICP 1.0".

Definition OUI_ALESIS : Z := 0x000595.
Definition SPEC_VERSION_ALESIS_AUDIO : Z := 0x000001.
Definition SPEC_NAME_ALESIS_AUDIO : string := "audio".

Definition OUI_APPLE : Z := 0x000a27.
Definition SPEC_VERSION_ISIGHT_AUDIO : Z := 0x000010.
Definition SPEC_VERSION_ISIGHT_FACTORY : Z := 0x000011.
Definition SPEC_VERSION_ISIGHT_IRIS : Z := 0x000012.
Definition SPEC_NAME_ISIGHT_AUDIO : string := "iSight audio unit".
Definition SPEC_NAME_ISIGHT_FACTORY : string := "iSight factory unit".
Definition SPEC_NAME_ISIGHT_IRIS : string := "iSight iris unit".

Definition OUI_LACIE : Z := 0x00d04b.
Definition SPEC_VERSION_LACIE_HID : Z := 0x484944.
Definition SPEC_NAME_LACIE_HID : string := "HID".

Definition spec (oui spec_version : Z) : spec_identifier :=
  {| specifier_id := oui; version := spec_version |}.

Definition spec_iana_ipv4 := spec OUI_ICANN_IANA SPEC_VERSION_RFC_2734.
Definition spec_iana_ipv6 := spec OUI_ICANN_IANA SPEC_VERSION_RFC_3146.
Definition spec_incits_sbp := spec OUI_INCITS SPEC_VERSION_SBP.
Definition spec_incits_sbp_avc := spec OUI_INCITS SPEC_VERSION_SBP_AVC.
Definition spec_1394ta_avc := spec OUI_1394TA SPEC_VERSION_AVC.
Definition spec_1394ta_cal := spec OUI_1394TA SPEC_VERSION_CAL.
Definition spec_1394ta_ehs := spec OUI_1394TA SPEC_VERSION_EHS.
Definition spec_1394ta_havi := spec OUI_1394TA SPEC_VERSION_HAVI.
Definition spec_1394ta_vendor_unique := spec OUI_1394TA SPEC_VERSION_VENDOR_UNIQUE.
Definition spec_1394ta_vendor_unique_avc :=
  spec OUI_1394TA SPEC_VERSION_VENDOR_UNIQUE_AVC.
Definition spec_1394ta_iidc_104 := spec OUI_1394TA SPEC_VERSION_IIDC_104.
Definition spec_1394ta_iidc_120 := spec OUI_1394TA SPEC_VERSION_IIDC_120.
Definition spec_1394ta_iidc_130 := spec OUI_1394TA SPEC_VERSION_IIDC_130.
Definition spec_1394ta_iidc2 := spec OUI_1394TA SPEC_VERSION_IIDC2.
Definition spec_1394ta_dpp_111 := spec OUI_1394TA SPEC_VERSION_DPP_111.
Definition spec_1394ta_iicp := spec OUI_1394TA SPEC_VERSION_IICP.
Definition spec_alesis_audio := spec OUI_ALESIS SPEC_VERSION_ALESIS_AUDIO.
Definition spec_apple_isight_audio := spec OUI_APPLE SPEC_VERSION_ISIGHT_AUDIO.
Definition spec_apple_isight_factory := spec OUI_APPLE SPEC_VERSION_ISIGHT_FACTORY.
Definition spec_apple_isight_iris := spec OUI_APPLE SPEC_VERSION_ISIGHT_IRIS.
Definition spec_lacie_hid := spec OUI_LACIE SPEC_VERSION_LACIE_HID.

Record spec_entry : Type := {
  spec_name : string;
  identifier : spec_identifier;
  formatters : list key_formatter
}.

Definition spec_entries : list spec_entry :=
  [ {| spec_name := SPEC_NAME_RFC_2734; identifier := spec_iana_ipv4;
       formatters := [] |};
    {| spec_name := SPEC_NAME_RFC_3146; identifier := spec_iana_ipv6;
       formatters := [] |};
    {| spec_name := SPEC_NAME_SBP; identifier := spec_incits_sbp;
       formatters := incits_sbp_key_formatters |};
    {| spec_name := SPEC_NAME_SBP_AVC; identifier := spec_incits_sbp_avc;
       formatters := incits_sbp_key_formatters |};
    {| spec_name := SPEC_NAME_AVC; identifier := spec_1394ta_avc;
       formatters := [] |};
    {| spec_name := SPEC_NAME_CAL; identifier := spec_1394ta_cal;
       formatters := [] |};
    {| spec_name := SPEC_NAME_EHS; identifier := spec_1394ta_ehs;
       formatters := [] |};
    {| spec_name := SPEC_NAME_HAVI; identifier := spec_1394ta_havi;
       formatters := [] |};
    {| spec_name := SPEC_NAME_VENDOR_UNIQUE;
       identifier := spec_1394ta_vendor_unique; formatters := [] |};
    {| spec_name := SPEC_NAME_VENDOR_UNIQUE_AVC;
       identifier := spec_1394ta_vendor_unique_avc; formatters := [] |};
    {| spec_name := SPEC_NAME_IIDC_104; identifier := spec_1394ta_iidc_104;
       formatters := ta1394_iidc_104_key_formatters |};
    {| spec_name := SPEC_NAME_IIDC_120; identifier := spec_1394ta_iidc_120;
       formatters := ta1394_iidc_104_key_formatters |};
    {| spec_name := SPEC_NAME_IIDC_130; identifier := spec_1394ta_iidc_130;
       formatters := ta1394_iidc_131_key_formatters |};
    {| spec_name := SPEC_NAME_IIDC2; identifier := spec_1394ta_iidc2;
       formatters := ta1394_iidc2_100_key_formatters |};
    {| spec_name := SPEC_NAME_DPP_111; identifier := spec_1394ta_dpp_111;
       formatters := ta1394_dpp_111_key_formatters |};
    {| spec_name := SPEC_NAME_IICP; identifier := spec_1394ta_iicp;
       formatters := ta1394_iicp_key_formatters |};
    {| spec_name := SPEC_NAME_ALESIS_AUDIO; identifier := spec_alesis_audio;
       formatters := [] |};
    {| spec_name := SPEC_NAME_ISIGHT_AUDIO;
       identifier := spec_apple_isight_audio;
       formatters := apple_isight_audio_key_formatters |};
    {| spec_name := SPEC_NAME_ISIGHT_FACTORY;
       identifier := spec_apple_isight_factory; formatters := [] |};
    {| spec_name := SPEC_NAME_ISIGHT_IRIS; identifier := spec_apple_isight_iris;
       formatters := apple_isight_iris_key_formatters |};
    {| spec_name := SPEC_NAME_LACIE_HID; identifier := spec_lacie_hid;
       formatters := [] |} ].

Definition format_unspecified_immediate_value (value : Z) : string :=
  "(immediate value)".

(** [default_formatters[key_type]]; [key_type] has two bits. *)
Definition default_formatters (key_type : Z) : key_formatter :=
  if key_type =? KEY_TYPE_IMMEDIATE then
    formatter KEY_TYPE_IMMEDIATE INVALID_KEY_ID UNSPECIFIED_ENTRY_NAME
      (ImmediateContent format_unspecified_immediate_value)
  else if key_type =? KEY_TYPE_CSR_OFFSET then
    formatter KEY_TYPE_CSR_OFFSET INVALID_KEY_ID UNSPECIFIED_ENTRY_NAME NoContent
  else if key_type =? KEY_TYPE_LEAF then
    formatter KEY_TYPE_LEAF INVALID_KEY_ID UNSPECIFIED_ENTRY_NAME
      (LeafContent (within_leaf format_unspecified_leaf_content))
  else
    formatter KEY_TYPE_DIRECTORY INVALID_KEY_ID UNSPECIFIED_ENTRY_NAME
      DirectoryContent.

Definition find_formatter (formatters : list key_formatter)
    (key_type key_id : Z) : option key_formatter :=
  find (fun formatter =>
          (kf_key_type formatter =? key_type) && (kf_key_id formatter =? key_id))
    formatters.

(** The formatter and the name of the specification ([None]: the pointer
    [spec_name] is left as the caller set it, null in every caller). *)
Definition detect_key_formatter (identifier' : spec_identifier)
    (key_type key_id : Z) : key_formatter * option string :=
  let spec_entry :=
    find (fun entry => spec_identifier_eqb (identifier entry) identifier')
      spec_entries in
  let in_spec :=
    match spec_entry with
    | Some entry =>
        match find_formatter (formatters entry) key_type key_id with
        | Some formatter => Some (formatter, Some (spec_name entry))
        | None => None
        end
    | None => None
    end in
  match in_spec with
  | Some found => found
  | None =>
      match find_formatter ieee1394_bus_key_formatters key_type key_id with
      | Some formatter => (formatter, None)
      | None =>
          match find_formatter csr_key_formatters key_type key_id with
          | Some formatter => (formatter, None)
          | None => (default_formatters key_type, None)
          end
      end
  end.

(** ** Directory entries *)

Definition format_entry_spec_name (spec_name : option string) : string :=
  match spec_name with
  | Some name => name +++ " "
  | None => EmptyString
  end.

Definition format_immediate_entry (offset value : Z)
    (spec_name : option string) (formatter : key_formatter) : string :=
  format_entry_spec_name spec_name
    +++ (if negb (kf_key_id formatter =? INVALID_KEY_ID)
         then key_id_name formatter else EmptyString)
    +++ (match format_content formatter with
         | ImmediateContent immediate =>
             (if negb (kf_key_id formatter =? INVALID_KEY_ID)
              then ": " else EmptyString)
               +++ immediate value
         | _ => EmptyString
         end).

Definition format_csr_offset_entry (offset value : Z)
    (spec_name : option string) (formatter : key_formatter) : string :=
  let csr_offset := IEEE1212_REGISTER_SPACE_ADDRESS + 4 * value in
  "--> " +++ format_entry_spec_name spec_name
    +++ (if negb (kf_key_id formatter =? INVALID_KEY_ID)
         then key_id_name formatter +++ " " else "CSR ")
    +++ "at " +++ hex_zero 12 csr_offset.

Definition format_leaf_entry (offset value : Z)
    (spec_name : option string) (formatter : key_formatter) : string :=
  let leaf_offset := IEEE1212_CONFIG_ROM_OFFSET + offset + 4 * value in
  "--> " +++ format_entry_spec_name spec_name
    +++ (if negb (kf_key_id formatter =? INVALID_KEY_ID)
         then key_id_name formatter +++ " " else EmptyString)
    +++ "leaf at " +++ hex leaf_offset.

Definition format_directory_entry (offset value : Z)
    (spec_name : option string) (formatter : key_formatter) : string :=
  let directory_offset := IEEE1212_CONFIG_ROM_OFFSET + offset + 4 * value in
  "--> " +++ format_entry_spec_name spec_name
    +++ (if negb (kf_key_id formatter =? INVALID_KEY_ID)
         then key_id_name formatter +++ " " else EmptyString)
    +++ "directory at " +++ hex directory_offset.

(** [format_entry[key_type]]. *)
Definition format_entry (key_type : Z)
    : Z -> Z -> option string -> key_formatter -> string :=
  if key_type =? KEY_TYPE_IMMEDIATE then format_immediate_entry
  else if key_type =? KEY_TYPE_CSR_OFFSET then format_csr_offset_entry
  else if key_type =? KEY_TYPE_LEAF then format_leaf_entry
  else format_directory_entry.

(** The body of the loop of [format_directory_entries]: the line of the
    entry [quadlet[i]]. *)
Definition format_directory_entry_line (directory_offset : Z)
    (quadlet : Z -> Z) (identifier : spec_identifier) (i : Z) : string :=
  let offset := directory_offset + i * 4 in
  let '(key_type, key_id, value) := decode_directory_entry (quadlet i) in
  let '(formatter, spec_name) := detect_key_formatter identifier key_type key_id in
  format_line_prefix offset (quadlet i) true
    +++ format_entry key_type offset value spec_name formatter.

(** The function returns [quadlet_count], and so many lines are printed. *)
Definition format_directory_entries (directory_offset : Z) (quadlet : Z -> Z)
    (quadlet_count : Z) (identifier : spec_identifier) : list string :=
  firstn (Z.to_nat quadlet_count)
    ((format_line_prefix directory_offset (quadlet 0) true
        +++ format_block_metadata "directory" quadlet quadlet_count)
       :: lines_loop
            (format_directory_entry_line directory_offset quadlet identifier)
            (Z.to_nat (quadlet_count - 1)) 1).

(** ** The specification of a block *)

Definition invalid_identifier : spec_identifier :=
  {| specifier_id := INVALID_KEY_VALUE; version := INVALID_KEY_VALUE |}.

(** The body of the [for] loop that collects the identifier. *)
Definition collect_identifier_entry (quadlet : Z) (identifier : spec_identifier)
    : spec_identifier :=
  let '(key_type, key_id, value) := decode_directory_entry quadlet in
  if key_type =? KEY_TYPE_IMMEDIATE then
    if key_id =? KEY_ID_CSR_SPECIFIER_ID then
      if specifier_id identifier =? INVALID_KEY_VALUE
      then {| specifier_id := value; version := version identifier |}
      else identifier
    else if key_id =? KEY_ID_CSR_VERSION then
      if version identifier =? INVALID_KEY_VALUE
      then {| specifier_id := specifier_id identifier; version := value |}
      else identifier
    else if key_id =? KEY_ID_CSR_VENDOR_INFO then
      if specifier_id identifier =? INVALID_KEY_VALUE
      then {| specifier_id := value; version := version identifier |}
      else identifier
    else identifier
  else identifier.

Fixpoint collect_identifier_loop (quadlet : Z -> Z) (count : nat) (i : Z)
    (identifier : spec_identifier) : spec_identifier :=
  match count with
  | O => identifier
  | S count' =>
      collect_identifier_loop quadlet count' (i + 1)
        (collect_identifier_entry (quadlet i) identifier)
  end.

Section Printer.

Variable host : byte_order.

(** [((const uint32_t * )block->content)[i]]. *)
Definition block_quadlet (data : list byte) (block : ieee1212_block) (i : Z) : Z :=
  load32 host data (blk_offset block + 4 * i).

(** The [while (base != NULL)] loop of [format_leaf_block] and of
    [format_directory_block] (the two loops are the same text).  [base] is
    [None] for the null pointer; the result is [None] when the loop does
    not end within [fuel] descriptors or follows a pointer to no
    descriptor. *)
Fixpoint collect_identifier_walk (fuel : nat) (data : list byte)
    (head : list_head) (base : option Z) (identifier : spec_identifier)
    : option spec_identifier :=
  match base with
  | None => Some identifier
  | Some address =>
      match fuel with
      | O => None
      | S fuel' =>
          match find_block head address with
          | None => None
          | Some block =>
              let quadlet_count := blk_length block / 4 in
              let identifier :=
                collect_identifier_loop (block_quadlet data block)
                  (Z.to_nat (quadlet_count - 1)) 1 identifier in
              match block_type block, blk_data block with
              | IEEE1212_DIRECTORY_BLOCK, Some d =>
                  collect_identifier_walk fuel' data head (Some (parent d))
                    identifier
              | IEEE1212_DIRECTORY_BLOCK, None => None
              | _, _ => Some identifier
              end
          end
      end
  end.

(** ** Blocks *)

Definition format_ieee1394_bus_dependent_information (offset quadlet : Z)
    : list string :=
  let irm_capable := bit quadlet 0x80000000 31 in
  let cm_capable := bit quadlet 0x40000000 30 in
  let is_capable := bit quadlet 0x20000000 29 in
  let bm_capable := bit quadlet 0x10000000 28 in
  let cyc_clk_acc := Z.shiftr (Z.land quadlet 0x00ff0000) 16 in
  let max_rec := Z.shiftr (Z.land quadlet 0x0000f000) 12 in
  let generation := Z.shiftr (Z.land quadlet 0x000000f0) 4 in
  if generation >? 0 then
    let pm_capable := bit quadlet 0x08000000 27 in
    let max_rom := Z.shiftr (Z.land quadlet 0x00000300) 8 in
    let spd := Z.land quadlet 0x00000007 in
    [ format_line_prefix offset quadlet true
        +++ "irmc " +++ dec irm_capable +++ ", cmc " +++ dec cm_capable
        +++ ", isc " +++ dec is_capable +++ ", bmc " +++ dec bm_capable
        +++ ", pmc " +++ dec pm_capable +++ ", cyc_clk_acc " +++ dec cyc_clk_acc
        +++ ",";
      format_blank_prefix
        +++ "max_rec " +++ dec max_rec +++ " (" +++ dec (Z.shiftl 2 max_rec)
        +++ "), max_rom " +++ dec max_rom +++ ", gen " +++ dec generation
        +++ ", spd " +++ dec spd +++ " (S" +++ dec (Z.shiftl 1 spd) +++ "00)" ]
  else
    [ format_line_prefix offset quadlet true
        +++ "irmc " +++ dec irm_capable +++ ", cmc " +++ dec cm_capable
        +++ ", isc " +++ dec is_capable +++ ", bmc " +++ dec bm_capable
        +++ ", cyc_clk_acc " +++ dec cyc_clk_acc
        +++ ", max_rec " +++ dec max_rec +++ " (" +++ dec (Z.shiftl 2 max_rec)
        +++ ")" ].

Definition format_unspecified_bus_dependent_information (offset quadlet : Z)
    : list string :=
  [ format_line_prefix offset quadlet false ].

(** [bus_entries]: the name of the bus and the printer of its quadlet; an
    unknown name takes the last entry. *)
Definition bus_entry (bus_name_value : Z)
    : string * (Z -> Z -> list string) :=
  if bus_name_value =? 0x31333934 then
    ("1394", format_ieee1394_bus_dependent_information)
  else
    ("unspecified", format_unspecified_bus_dependent_information).

Definition format_bus_info_block (data : list byte)
    (bus_info : ieee1212_block) (data_length : Z) : list string :=
  let offset := blk_offset bus_info in
  let quadlet := block_quadlet data bus_info in
  let quadlet_count := blk_length bus_info / 4 in
  let '(bus_name, format) := bus_entry (quadlet 1) in
  [ format_blank_prefix +++ "ROM header and bus information block";
    format_blank_prefix +++ format_horizontal_line;
    format_line_prefix offset (quadlet 0) true
      +++ format_bus_info_metadata quadlet quadlet_count data_length;
    format_line_prefix (offset + 4) (quadlet 1) true
      +++ "bus_name " +++ dquote +++ bus_name +++ dquote ]
    ++ format (offset + 8) (quadlet 2)
    ++ [ format_line_prefix (offset + 12) (quadlet 3) true
           +++ company_id_text (quadlet 3);
         format_line_prefix (offset + 16) (quadlet 4) true
           +++ device_id_text (quadlet 3) (quadlet 4) ]
    ++ lines_loop
         (fun i => format_line_prefix (offset + 4 * 5) (quadlet i) false)
         (Z.to_nat (quadlet_count - 5)) 5.

(** [None] is undefined behaviour: a walk that does not end, a call
    through a member of [format_content] that was not set, or a read behind
    the array. *)
Definition format_leaf_block (data : list byte) (head : list_head)
    (leaf : ieee1212_block) (data_length : Z) : option (list string) :=
  match blk_data leaf with
  | None => None
  | Some d =>
      match collect_identifier_walk (S (List.length head)) data head
              (Some (parent d)) invalid_identifier with
      | None => None
      | Some identifier =>
          let '(formatter, spec_name) :=
            detect_key_formatter identifier KEY_TYPE_LEAF (key_id d) in
          let offset := blk_offset leaf in
          let quadlet := block_quadlet data leaf in
          let quadlet_count := blk_length leaf / 4 in
          match format_content formatter with
          | LeafContent leaf_content =>
              match leaf_content (offset + 4) (fun i => quadlet (i + 1))
                      (quadlet_count - 1) with
              | Some content =>
                  Some
                    ([ format_blank_prefix +++ format_entry_spec_name spec_name
                         +++ key_id_name formatter +++ " leaf at "
                         +++ hex (IEEE1212_CONFIG_ROM_OFFSET + offset);
                       format_blank_prefix +++ format_horizontal_line;
                       format_line_prefix offset (quadlet 0) true
                         +++ format_block_metadata "leaf" quadlet quadlet_count ]
                       ++ content)
              | None => None
              end
          | _ => None
          end
      end
  end.

(** The [switch] at the head of [format_directory_block]: the descriptor
    the walk starts from.  The outer [None] is the value of [base] where no
    case assigns it. *)
Definition directory_base (directory : ieee1212_block) (d : block_data)
    : option (option Z) :=
  let k := key_id d in
  if (k =? KEY_ID_CSR_VENDOR_INFO) || (k =? KEY_ID_CSR_MODULE_INFO)
     || (k =? KEY_ID_CSR_DESCRIPTOR) || (k =? KEY_ID_CSR_BUS_DEP_INFO)
     || (k =? KEY_ID_CSR_DEP_INFO) || (k =? KEY_ID_CSR_INSTANCE)
  then Some (Some (parent d))
  else if (k =? KEY_ID_CSR_UNIT) || (k =? KEY_ID_CSR_FEATURE)
  then Some (Some (blk_offset directory))
  else None.

Definition format_directory_block (data : list byte) (head : list_head)
    (directory : ieee1212_block) (data_length : Z) : option (list string) :=
  match blk_data directory with
  | None => None
  | Some d =>
      match directory_base directory d with
      | None => None
      | Some base =>
          match collect_identifier_walk (S (List.length head)) data head base
                  invalid_identifier with
          | None => None
          | Some identifier =>
              let offset := blk_offset directory in
              let quadlet := block_quadlet data directory in
              let quadlet_count := blk_length directory / 4 in
              let '(formatter, spec_name) :=
                detect_key_formatter identifier KEY_TYPE_DIRECTORY (key_id d) in
              match format_content formatter with
              | DirectoryContent =>
                  Some
                    ([ format_blank_prefix +++ key_id_name formatter
                         +++ " directory at "
                         +++ hex (IEEE1212_CONFIG_ROM_OFFSET + offset);
                       format_blank_prefix +++ format_horizontal_line ]
                       ++ format_directory_entries offset quadlet quadlet_count
                            identifier)
              | _ => None
              end
          end
      end
  end.

(** The loop of [format_root_directory_block]: every immediate vendor
    entry overwrites the specifier. *)
Fixpoint root_identifier_loop (quadlet : Z -> Z) (count : nat) (i : Z)
    (identifier : spec_identifier) : spec_identifier :=
  match count with
  | O => identifier
  | S count' =>
      let '(key_type, key_id, value) := decode_directory_entry (quadlet i) in
      root_identifier_loop quadlet count' (i + 1)
        (if (key_type =? KEY_TYPE_IMMEDIATE) && (key_id =? KEY_ID_CSR_VENDOR_INFO)
         then {| specifier_id := value; version := version identifier |}
         else identifier)
  end.

Definition format_root_directory_block (data : list byte)
    (root : ieee1212_block) (data_length : Z) : list string :=
  let offset := blk_offset root in
  let quadlet := block_quadlet data root in
  let quadlet_count := blk_length root / 4 in
  let identifier :=
    root_identifier_loop quadlet (Z.to_nat (quadlet_count - 1)) 1
      invalid_identifier in
  [ format_blank_prefix +++ "root directory";
    format_blank_prefix +++ format_horizontal_line ]
    ++ format_directory_entries offset quadlet quadlet_count identifier.

Definition format_orphan_block (data : list byte) (orphan : ieee1212_block)
    (data_length : Z) : list string :=
  let quadlet := block_quadlet data orphan in
  let quadlet_count := blk_length orphan / 4 in
  lines_loop
    (fun i =>
       format_line_prefix (blk_offset orphan + i * 4) (quadlet i) true
         +++ "(unreferenced data)")
    (Z.to_nat quadlet_count) 0.

(** [format[block->block_type]]. *)
Definition format_block (data : list byte) (head : list_head)
    (block : ieee1212_block) (data_length : Z) : option (list string) :=
  match block_type block with
  | IEEE1212_BUS_INFO_BLOCK => Some (format_bus_info_block data block data_length)
  | IEEE1212_ROOT_DIRECTORY_BLOCK =>
      Some (format_root_directory_block data block data_length)
  | IEEE1212_LEAF_BLOCK => format_leaf_block data head block data_length
  | IEEE1212_DIRECTORY_BLOCK => format_directory_block data head block data_length
  | ORPHAN_BLOCK => Some (format_orphan_block data block data_length)
  end.

(** The second [LIST_FOREACH] of [print_blocks], over [blocks]: the lines
    written to the standard output, each without its newline; an empty
    line follows every block. *)
Fixpoint print_blocks_loop (data : list byte) (data_length : Z)
    (head blocks : list_head) : option (list string) :=
  match blocks with
  | [] => Some []
  | block :: blocks' =>
      match format_block data head block data_length with
      | None => None
      | Some lines =>
          match print_blocks_loop data data_length head blocks' with
          | None => None
          | Some output => Some (map clip_line lines ++ [EmptyString] ++ output)
          end
      end
  end.

Definition print_blocks (data : list byte) (data_length : Z) (head : list_head)
    : option (list string) :=
  print_blocks_loop data data_length head head.

(** ** The program *)

(** What [read] returned: an error, or the bytes it stored. *)
Inductive read_result : Type :=
| ReadError
| ReadBytes (bytes : list byte).

(** What the process did: the lines on the two streams and the exit
    status. *)
Record outcome : Type := {
  stdout : list string;
  stderr : list string;
  exit_status : Z
}.

Definition terminal_diagnostic : string :=
  "A terminal is detected for standard input. Output from any process or shell redirection should be referred instead.".

(** The loop of [main] that converts the [length / 4] quadlets in place. *)
Definition convert_quadlets (data : list byte) (length : Z) : list byte :=
  let count := Z.to_nat (length / 4) in
  flat_map
    (fun i => bytes_of_quadlet host (be32toh host (load32 host data (4 * Z.of_nat i))))
    (seq 0 count)
    ++ skipn (4 * count) data.

(** The conversion of [main]: the quadlets are converted when the detector
    says that the buffer is big-endian. *)
Definition host_order_data (data : list byte) (length : Z) : list byte :=
  if bus_info_block_is_big_endian host data length 0
  then convert_quadlets data length
  else data.

(** The analysis of [main]: discovery, normalisation, orphans. *)
Definition analyse_blocks (data : list byte) (length : Z) : result list_head :=
  head <- detect_ieee1212_blocks host (Z.to_nat (length / 4)) data length [] ;;
  fulfill_orphan_blocks data length (normalize_blocks head length).

(** [stack] is what the array [data] holds before [read] fills its first
    bytes; [read] stores at most [sizeof(data)] bytes.  The result is [None]
    for undefined behaviour. *)
Definition main (isatty : bool) (stack : list byte) (input : read_result)
    : option outcome :=
  if isatty then
    Some {| stdout := []; stderr := [terminal_diagnostic];
            exit_status := EXIT_FAILURE |}
  else
    let '(length, data) :=
      match input with
      | ReadError => (-1, stack)
      | ReadBytes bytes =>
          let bytes := firstn 1024 bytes in
          (Z.of_nat (List.length bytes),
           bytes ++ skipn (List.length bytes) stack)
      end in
    if length <=? 0 then
      Some {| stdout := []; stderr := []; exit_status := EXIT_FAILURE |}
    else
      let data := host_order_data data length in
      match analyse_blocks data length with
      | OutOfFuel => None
      | Err _ => Some {| stdout := []; stderr := []; exit_status := EXIT_FAILURE |}
      | Ok head =>
          match print_blocks data length head with
          | None => None
          | Some output =>
              Some {| stdout := output; stderr := []; exit_status := EXIT_SUCCESS |}
          end
      end.

End Printer.

(** * Specification

    The predicates the theorems are stated with. *)

(** The length fields of the first quadlet of a block, as the formatters
    read them. *)
Definition bus_info_length_field (quadlet : Z) : Z :=
  Z.land (Z.shiftr quadlet 24) 0xff.

Definition block_length_field (quadlet : Z) : Z :=
  Z.land (Z.shiftr quadlet 16) 0xffff.

Fixpoint ascending (head : list_head) : Prop :=
  match head with
  | [] => True
  | entry :: rest =>
      match rest with
      | [] => True
      | peek :: _ => blk_offset entry < blk_offset peek
      end /\ ascending rest
  end.

Definition is_directory (b : ieee1212_block) : Prop :=
  block_type b = IEEE1212_ROOT_DIRECTORY_BLOCK
  \/ block_type b = IEEE1212_DIRECTORY_BLOCK.

Definition well_placed (length : Z) (b : ieee1212_block) : Prop :=
  0 <= blk_offset b /\ blk_offset b mod 4 = 0
  /\ 4 <= blk_length b /\ blk_length b mod 4 = 0
  /\ blk_offset b + blk_length b <= length.

(** The entry [i] of the directory [p] refers to the block [b], whose
    descriptor data are [d]: it is a leaf or directory entry according to
    the type of [b], with the key id of [d], and points to the offset of [b]. *)
Definition refers (host : byte_order) (data : list byte)
    (p : ieee1212_block) (i : Z) (b : ieee1212_block) (d : block_data) : Prop :=
  let entry_offset := blk_offset p + 4 + i * 4 in
  let '(key_type, key_id', value) :=
    decode_directory_entry (load32 host data entry_offset) in
  0 <= i < (blk_length p - 4) / 4
  /\ (key_type = KEY_TYPE_LEAF /\ block_type b = IEEE1212_LEAF_BLOCK
      \/ key_type = KEY_TYPE_DIRECTORY /\ block_type b = IEEE1212_DIRECTORY_BLOCK)
  /\ key_id d = key_id'
  /\ blk_offset b = entry_offset + wrap32 (4 * value).

Definition referenced (host : byte_order) (data : list byte)
    (head : list_head) (b : ieee1212_block) : Prop :=
  match block_type b with
  | IEEE1212_LEAF_BLOCK | IEEE1212_DIRECTORY_BLOCK =>
      exists d p i,
        blk_data b = Some d /\ In p head /\ is_directory p
        /\ blk_offset p = parent d /\ refers host data p i b d
  | _ => True
  end.

Record discovered (host : byte_order) (data : list byte) (length : Z)
    (head : list_head) : Prop := {
  disc_first : exists b rest, head = b :: rest /\ blk_offset b = 0;
  disc_ascending : ascending head;
  disc_placed : Forall (well_placed length) head;
  disc_referenced : Forall (referenced host data head) head
}.

Definition new_block (t : ieee1212_block_type) (o l k p : Z) : ieee1212_block :=
  {| blk_offset := o; blk_length := l; block_type := t;
     blk_data := Some {| key_id := k; parent := p |} |}.

(** What the callers of the two block detectors establish: the new
    descriptor lies in the buffer and an entry of a directory refers to it. *)
Definition admissible (host : byte_order) (data : list byte) (length : Z)
    (head : list_head) (entry : ieee1212_block) : Prop :=
  well_placed length entry /\ referenced host data head entry.

(** The contract of a directory detector: it keeps the invariant and the
    descriptors that are there, and it returns when the list holds at least
    [N] descriptors. *)
Definition directory_contract (host : byte_order) (data : list byte)
    (length : Z) (N : nat)
    (detect_directory : Z -> Z -> Z -> Z -> list_head -> result list_head)
    : Prop :=
  forall o l k p head,
    discovered host data length head ->
    admissible host data length head (new_block IEEE1212_DIRECTORY_BLOCK o l k p) ->
    (forall head',
        detect_directory o l k p head = Ok head' ->
        discovered host data length head' /\ incl head head')
    /\ ((N <= List.length head)%nat ->
        detect_directory o l k p head <> OutOfFuel).

(** [head] covers [start, stop) block after block. *)
Fixpoint tiles (start : Z) (head : list_head) (stop : Z) : Prop :=
  match head with
  | [] => start = stop
  | entry :: rest =>
      blk_offset entry = start /\ 0 < blk_length entry
      /\ tiles (start + blk_length entry) rest stop
  end.

Definition next_offset_of (rest : list_head) (length : Z) : Z :=
  match rest with
  | peek :: _ => blk_offset peek
  | [] => length
  end.

(** No block runs into its successor or past the end of the buffer. *)
Fixpoint packed (length : Z) (head : list_head) : Prop :=
  match head with
  | [] => True
  | entry :: rest =>
      0 < blk_length entry
      /\ blk_offset entry + blk_length entry <= next_offset_of rest length
      /\ packed length rest
  end.

(** The fields that normalisation keeps. *)
Definition same_block (x y : ieee1212_block) : Prop :=
  blk_offset x = blk_offset y /\ block_type x = block_type y
  /\ blk_data x = blk_data y.

(** The steps [fulfill_loop] takes over [suf]: three for a block that is
    followed by a gap, one for any other. *)
Fixpoint fulfill_work (length : Z) (suf : list_head) : nat :=
  match suf with
  | [] => O
  | entry :: rest =>
      ((if blk_offset entry + blk_length entry >=? next_offset_of rest length
        then 1 else 3) + fulfill_work length rest)%nat
  end.

(** [dd'] returns what [dd] returns, wherever [dd] returns. *)
Definition extends
    (dd dd' : Z -> Z -> Z -> Z -> list_head -> result list_head) : Prop :=
  forall o l k p head,
    dd o l k p head <> OutOfFuel -> dd' o l k p head = dd o l k p head.

(** The detectors only add descriptors. *)
Definition keeps (dd : Z -> Z -> Z -> Z -> list_head -> result list_head) : Prop :=
  forall o l k p head head', dd o l k p head = Ok head' -> incl head head'.

(** ** Sample images *)

(** The bytes of an image given by its quadlets, as the host stores them. *)
Definition image (host : byte_order) (quadlets : list Z) : list byte :=
  flat_map (bytes_of_quadlet host) quadlets.

(** A bus information block of five quadlets, a root directory with a
    vendor entry, a descriptor leaf and a unit directory for SBP-2 with a
    logical unit number, and one quadlet that nothing refers to. *)
Definition sample_rom : list Z :=
  [ 0x04040400; 0x31333934; 0x0064dc00; 0x0008278b; 0x00000001;
    0x00030000; 0x03001234; 0x81000002; 0xd1000004;
    0x00020000; 0x00000000; 0x41424300;
    0x00030000; 0x1200609e; 0x13010483; 0x14000000;
    0xdeadbeef ].

Definition sample_blocks : list_head :=
  Eval vm_compute in
    match analyse_blocks LittleEndian (image LittleEndian sample_rom) 68 with
    | Ok head => head
    | _ => []
    end.

Definition sample_discovered : list_head :=
  Eval vm_compute in
    match detect_ieee1212_blocks LittleEndian 17 (image LittleEndian sample_rom)
            68 [] with
    | Ok head => head
    | _ => []
    end.

(** A bus information block whose length byte is [0x40], and a root
    directory without entries. *)
Definition long_bus_info_rom : list Z := [ 0x40000000; 0x00000000 ].

(** ** Text and CRC of the specification *)

(** [needle] is a part of [s]. *)
Fixpoint contains (needle s : string) : bool :=
  String.prefix needle s
  || match s with
     | EmptyString => false
     | String _ s' => contains needle s'
     end.

(** The character [c] is in [s]. *)
Fixpoint occurs (c : ascii) (s : string) : bool :=
  match s with
  | EmptyString => false
  | String a s' => Ascii.eqb a c || occurs c s'
  end.

(** The CRC of section 4.4 of the specification, over a run of quadlets. *)
Definition crc16_step (crc q shift : Z) : Z :=
  let sum := Z.land (Z.lxor (Z.shiftr crc 12) (Z.shiftr q shift)) 0xF in
  Z.land
    (Z.lxor (Z.lxor (Z.lxor (Z.shiftl crc 4) (Z.shiftl sum 12)) (Z.shiftl sum 5))
       sum)
    0xFFFF.

Definition crc16_quadlet (crc q : Z) : Z :=
  fold_left (fun crc shift => crc16_step crc q shift)
    [28; 24; 20; 16; 12; 8; 4; 0] crc.

Definition crc16 (quadlets : list Z) : Z := fold_left crc16_quadlet quadlets 0.

(** The quadlets [first], ..., [first + count - 1] of a block. *)
Definition block_quadlets (host : byte_order) (data : list byte)
    (block : ieee1212_block) (first : Z) (count : nat) : list Z :=
  map (fun i => block_quadlet host data block (first + Z.of_nat i)) (seq 0 count).

(** The error codes of the analysis. *)
Definition analysis_error (e : Z) : Prop := e = - EINVAL \/ e = - ENOSPC.

(** ** The shape of the block list *)

(** A descriptor that an entry of a directory made: a leaf or a directory
    whose pointer [parent] names a directory descriptor of the list, at a
    smaller offset. *)
Definition linked (head : list_head) (b : ieee1212_block) : Prop :=
  (block_type b = IEEE1212_LEAF_BLOCK \/ block_type b = IEEE1212_DIRECTORY_BLOCK)
  /\ exists d p,
       blk_data b = Some d /\ In p head /\ is_directory p
       /\ blk_offset p = parent d /\ blk_offset p < blk_offset b.

(** The detectors of leaves and directories only add leaves and
    directories. *)
Definition adds_entries
    (dd : Z -> Z -> Z -> Z -> list_head -> result list_head) : Prop :=
  forall o l k p head head',
    dd o l k p head = Ok head' ->
    forall b, In b head' ->
      In b head
      \/ block_type b = IEEE1212_LEAF_BLOCK
      \/ block_type b = IEEE1212_DIRECTORY_BLOCK.

Definition bus_info_descriptor (host : byte_order) (data : list byte)
    : ieee1212_block :=
  {| blk_offset := 0;
     blk_length := 4 + 4 * (bus_info_length_field (load32 host data 0) mod 64);
     block_type := IEEE1212_BUS_INFO_BLOCK;
     blk_data := None |}.

Definition root_descriptor (host : byte_order) (data : list byte)
    : ieee1212_block :=
  let offset := blk_length (bus_info_descriptor host data) in
  {| blk_offset := offset;
     blk_length := 4 + 4 * (block_length_field (load32 host data offset) mod 16384);
     block_type := IEEE1212_ROOT_DIRECTORY_BLOCK;
     blk_data := None |}.

(** A descriptor of the analysed list behind the root directory: under a
    directory, or an orphan. *)
Definition analysed_entry (final : list_head) (b : ieee1212_block) : Prop :=
  linked final b \/ (block_type b = ORPHAN_BLOCK /\ blk_data b = None).

(** Normalisation keeps a descriptor or shortens it. *)
Definition shortened (x y : ieee1212_block) : Prop :=
  same_block x y /\ blk_length x <= blk_length y.

(** ** The tables of key formatters *)

(** Every table [detect_key_formatter] searches. *)
Definition known_formatters : list key_formatter :=
  ieee1394_bus_key_formatters ++ csr_key_formatters
    ++ flat_map formatters spec_entries.






(** The buffer [main] hands to the analysis when [read] stored [bytes]. *)
Definition input_length (bytes : list byte) : Z :=
  Z.of_nat (List.length (firstn 1024 bytes)).

Definition input_data (host : byte_order) (stack bytes : list byte) : list byte :=
  host_order_data host
    (firstn 1024 bytes ++ skipn (List.length (firstn 1024 bytes)) stack)
    (input_length bytes).





(** The characters [%x] and [%d] write. *)
Definition hex_digits : list ascii :=
  list_ascii_of_string "0123456789abcdef".

(** The fields of the first quadlet of the bus information block, as
    [format_bus_info_metadata] reads them. *)
Definition bus_info_crc_length (quadlet : Z) : Z := (quadlet / 2 ^ 16) mod 2 ^ 8.

(** The number of quadlets the CRC of the bus information block is
    computed over: the field, or what the buffer holds behind the first
    quadlet when that is less, as a [uint8_t]. *)
Definition bus_info_crc_extent (quadlet data_length : Z) : Z :=
  if 4 * (bus_info_crc_length quadlet + 1) <=? data_length
  then bus_info_crc_length quadlet
  else ((data_length - 4) / 4) mod 256.

(** The value of the first immediate entry with a key id of [keys] among
    the [count] entries from [quadlet i] on. *)
Fixpoint first_immediate (keys : list Z) (quadlet : Z -> Z) (count : nat) (i : Z)
    : option Z :=
  match count with
  | O => None
  | S count' =>
      let '(key_type, key_id, value) := decode_directory_entry (quadlet i) in
      if (key_type =? KEY_TYPE_IMMEDIATE) && existsb (Z.eqb key_id) keys
      then Some value
      else first_immediate keys quadlet count' (i + 1)
  end.

Definition value_or_invalid (value : option Z) : Z :=
  match value with
  | Some v => v
  | None => INVALID_KEY_VALUE
  end.

(** A full image of an IIDC camera: the root directory carries the
    specifier and the version of IIDC 1.04 and refers to a vendor name leaf
    in the last quadlet of the array. *)
Definition overrun_rom : list Z :=
  [ 0x04040400; 0x31333934; 0x00000000; 0x00000000; 0x00000000;
    0x00030000; 0x1200a02d; 0x13000100; 0x810000f7 ]
    ++ repeat 0 246 ++ [ 0x00000000 ].

(** The quadlet [i] of the directory [p] is an entry for the block [b]: a
    leaf or directory entry according to the type of [b], with the key id
    and the parent that the descriptor of [b] stores, and with the offset
    of [b] as its target. *)
Definition entry_points_to (host : byte_order) (data : list byte)
    (p : ieee1212_block) (i : Z) (b : ieee1212_block) : Prop :=
  let '(key_type, key_id', value) :=
    decode_directory_entry (block_quadlet host data p i) in
  (key_type = KEY_TYPE_LEAF /\ block_type b = IEEE1212_LEAF_BLOCK
   \/ key_type = KEY_TYPE_DIRECTORY /\ block_type b = IEEE1212_DIRECTORY_BLOCK)
  /\ blk_data b = Some {| key_id := key_id'; parent := blk_offset p |}
  /\ blk_offset b = blk_offset p + 4 * i + 4 * value.

(** An image of 40 bytes in which the first entry of the root directory
    points to a leaf at the second entry: the root directory is shortened
    to one entry, and its third quadlet, the entry for the leaf at offset
    36, is printed as content of the leaf at offset 28. *)
Definition overlap_rom : list Z :=
  [ 0x04040400; 0x31333934; 0x00000000; 0x00000000; 0x00000000;
    0x00030000; 0x81000001; 0x00020000; 0x81000001; 0x00000000 ].

(** ** The analysis with its allocations and its detector calls

    The functions above take every [malloc] to succeed.  The functions of
    this section are the same functions with the two things they leave
    out: a call of [malloc] can return [NULL], and then the function
    returns [-ENOMEM]; and every call [detect_block(...)] that
    [detect_ieee1212_directory_entries] makes is recorded, in the order of
    the calls. *)

Definition ENOMEM : Z := 12.

(** One call [detect_block(data, length, block_offset, block_length, key_id,
    parent, head)]: the directory whose entry is decoded (the argument
    [parent], as its offset), the index [i] of the entry, and what the entry
    was decoded to. *)
Record detector_call : Type := {
  call_parent : Z;
  call_entry : Z;
  call_key_type : Z;
  call_key_id : Z;
  call_offset : Z;
  call_length : Z
}.

(** The block list, the calls made so far, the earliest first, and the
    number of calls of [malloc] that still succeed ([None]: all do). *)
Record run_state : Type := {
  run_blocks : list_head;
  run_calls : list detector_call;
  run_mallocs : option nat
}.

Definition initial_state (mallocs : option nat) : run_state :=
  {| run_blocks := []; run_calls := []; run_mallocs := mallocs |}.

Definition with_blocks (st : run_state) (head : list_head) : run_state :=
  {| run_blocks := head; run_calls := run_calls st;
     run_mallocs := run_mallocs st |}.

Definition with_call (st : run_state) (c : detector_call) : run_state :=
  {| run_blocks := run_blocks st; run_calls := run_calls st ++ [c];
     run_mallocs := run_mallocs st |}.

(** [malloc(sizeof( *entry))]: [None] when it returns [NULL]. *)
Definition malloc (st : run_state) : option run_state :=
  match run_mallocs st with
  | None => Some st
  | Some O => None
  | Some (S n) =>
      Some {| run_blocks := run_blocks st; run_calls := run_calls st;
              run_mallocs := Some n |}
  end.

(** [entry = malloc(...); if (entry == NULL) return -ENOMEM;], the
    assignments to the members of [entry], and
    [insert_block_by_offset(head, entry)]. *)
Definition allocate (st : run_state) (entry : ieee1212_block)
    : result run_state :=
  match malloc st with
  | None => Err (- ENOMEM)
  | Some st' => Ok (with_blocks st' (insert_block_by_offset (run_blocks st') entry))
  end.

Section HostRun.

Variable host : byte_order.

Definition detect_ieee1212_bus_info_block_run (data : list byte)
    (length offset block_length : Z) (st : run_state) : result run_state :=
  allocate st
    {| blk_offset := offset;
       blk_length := block_length;
       block_type := IEEE1212_BUS_INFO_BLOCK;
       blk_data := None |}.

Definition detect_ieee1212_leaf_block_run (data : list byte)
    (length block_offset block_length key_id parent : Z) (st : run_state)
    : result run_state :=
  if block_exists (run_blocks st) block_offset then Ok st
  else
    allocate st
      {| blk_offset := block_offset;
         blk_length := block_length;
         block_type := IEEE1212_LEAF_BLOCK;
         blk_data := Some {| key_id := key_id; parent := parent |} |}.

Fixpoint detect_entries_loop_run
    (detect_directory : Z -> Z -> Z -> Z -> run_state -> result run_state)
    (data : list byte) (length directory_offset parent : Z)
    (count : nat) (i : Z) (st : run_state) : result run_state :=
  match count with
  | O => Ok st
  | S count' =>
      let entry_offset := directory_offset + i * 4 in
      let quadlet := load32 host data entry_offset in
      let '(key_type, key_id, value) := decode_directory_entry quadlet in
      if (key_type =? KEY_TYPE_LEAF) || (key_type =? KEY_TYPE_DIRECTORY) then
        let block_offset := entry_offset + wrap32 (4 * value) in
        if block_offset >=? length then Err (- ENOSPC)
        else
          block_length <-
            detect_ieee1212_block_length host data length block_offset ;;
          let st :=
            with_call st
              {| call_parent := parent; call_entry := i;
                 call_key_type := key_type; call_key_id := key_id;
                 call_offset := block_offset; call_length := block_length |} in
          st' <- (if key_type =? KEY_TYPE_LEAF
                  then detect_ieee1212_leaf_block_run data length block_offset
                         block_length key_id parent st
                  else detect_directory block_offset block_length key_id
                         parent st) ;;
          detect_entries_loop_run detect_directory data length directory_offset
            parent count' (i + 1) st'
      else
        detect_entries_loop_run detect_directory data length directory_offset
          parent count' (i + 1) st
  end.

Definition detect_ieee1212_directory_entries_run
    (detect_directory : Z -> Z -> Z -> Z -> run_state -> result run_state)
    (data : list byte) (length directory_offset directory_length parent : Z)
    (st : run_state) : result run_state :=
  let directory_offset := directory_offset + 4 in
  let quadlet_count := (directory_length - 4) / 4 in
  detect_entries_loop_run detect_directory data length directory_offset parent
    (Z.to_nat quadlet_count) 0 st.

Fixpoint detect_ieee1212_directory_block_run (fuel : nat) (data : list byte)
    (length block_offset block_length key_id parent : Z) (st : run_state)
    : result run_state :=
  match fuel with
  | O => OutOfFuel
  | S fuel' =>
      if block_exists (run_blocks st) block_offset then Ok st
      else
        let entry :=
          {| blk_offset := block_offset;
             blk_length := block_length;
             block_type := IEEE1212_DIRECTORY_BLOCK;
             blk_data := Some {| key_id := key_id; parent := parent |} |} in
        st' <- allocate st entry ;;
        detect_ieee1212_directory_entries_run
          (detect_ieee1212_directory_block_run fuel' data length)
          data length block_offset block_length (blk_offset entry) st'
  end.

Definition detect_ieee1212_root_directory_block_run (fuel : nat)
    (data : list byte) (length block_offset block_length : Z)
    (st : run_state) : result run_state :=
  let entry :=
    {| blk_offset := block_offset;
       blk_length := block_length;
       block_type := IEEE1212_ROOT_DIRECTORY_BLOCK;
       blk_data := None |} in
  st' <- allocate st entry ;;
  detect_ieee1212_directory_entries_run
    (detect_ieee1212_directory_block_run fuel data length)
    data length block_offset block_length (blk_offset entry) st'.

Definition detect_ieee1212_blocks_run (fuel : nat) (data : list byte)
    (length : Z) (st : run_state) : result run_state :=
  let offset := 0 in
  block_length <- detect_ieee1212_bus_info_block_length host data length offset ;;
  st <- detect_ieee1212_bus_info_block_run data length offset block_length st ;;
  let offset := offset + block_length in
  block_length <- detect_ieee1212_block_length host data length offset ;;
  detect_ieee1212_root_directory_block_run fuel data length offset block_length st.

Fixpoint fulfill_loop_run (fuel : nat) (length : Z) (i : nat) (st : run_state)
    : result run_state :=
  match fuel with
  | O => OutOfFuel
  | S fuel' =>
      let head := run_blocks st in
      match nth_error head i with
      | None => Ok st
      | Some entry =>
          let next_offset :=
            match nth_error head (S i) with
            | Some peek => blk_offset peek
            | None => length
            end in
          if blk_offset entry + blk_length entry >=? next_offset then
            fulfill_loop_run fuel' length (S i) st
          else
            let orphan_offset := blk_offset entry + blk_length entry in
            let orphan :=
              {| blk_offset := orphan_offset;
                 blk_length := next_offset - orphan_offset;
                 block_type := ORPHAN_BLOCK;
                 blk_data := None |} in
            st' <- allocate st orphan ;;
            fulfill_loop_run fuel' length
              (if (insert_position head orphan <=? i)%nat then S i else i)
              st'
      end
  end.

Definition fulfill_orphan_blocks_run (data : list byte) (length : Z)
    (st : run_state) : result run_state :=
  fulfill_loop_run (3 * List.length (run_blocks st) + 1) length 0 st.

(** The analysis of [main], when [mallocs] calls of [malloc] succeed. *)
Definition analyse_blocks_run (data : list byte) (length : Z)
    (mallocs : option nat) : result run_state :=
  st <- detect_ieee1212_blocks_run (Z.to_nat (length / 4)) data length
          (initial_state mallocs) ;;
  fulfill_orphan_blocks_run data length
    (with_blocks st (normalize_blocks (run_blocks st) length)).

End HostRun.

(** ** Runs and the functions without allocation *)

(** The descriptors a run added are the calls of [malloc] it used up. *)
Definition consumed (st st' : run_state) : Prop :=
  match run_mallocs st with
  | None => run_mallocs st' = None
  | Some n =>
      exists n',
        run_mallocs st' = Some n'
        /\ (n' + List.length (run_blocks st')
            = n + List.length (run_blocks st))%nat
  end.

(** [malloc] failed: it was to succeed fewer times than the function
    without allocation failures adds descriptors. *)
Definition starved (st : run_state) (plain : result list_head) : Prop :=
  exists n,
    run_mallocs st = Some n
    /\ forall head',
         plain = Ok head' ->
         (n + List.length (run_blocks st) < List.length head')%nat.

(** The result of a run from [st] against the result of the function
    without allocation failures on the blocks of [st]. *)
Definition follows (st : run_state) (run : result run_state)
    (plain : result list_head) : Prop :=
  match run with
  | Ok st' => plain = Ok (run_blocks st') /\ consumed st st'
  | Err e => (e = - ENOMEM /\ starved st plain) \/ plain = Err e
  | OutOfFuel => plain = OutOfFuel
  end.

(** ** Calls and blocks *)

(** The call [c] was made for a leaf or directory entry of a directory of
    the list: the entry [call_entry c] of the directory at [call_parent c],
    which decodes to the key type, the key id and the offset of the call,
    an offset in the buffer at which a block of [call_length c] bytes
    fits. *)
Definition call_of_entry (host : byte_order) (data : list byte) (length : Z)
    (head : list_head) (c : detector_call) : Prop :=
  exists p,
    In p head /\ is_directory p /\ blk_offset p = call_parent c
    /\ 0 <= call_entry c < (blk_length p - 4) / 4
    /\ (call_key_type c = KEY_TYPE_LEAF \/ call_key_type c = KEY_TYPE_DIRECTORY)
    /\ (exists value,
          decode_directory_entry
            (load32 host data (blk_offset p + 4 + call_entry c * 4))
          = (call_key_type c, call_key_id c, value)
          /\ call_offset c
             = blk_offset p + 4 + call_entry c * 4 + wrap32 (4 * value))
    /\ call_offset c < length
    /\ detect_ieee1212_block_length host data length (call_offset c)
       = Ok (call_length c).

(** The descriptor [b] is as the first call for its offset made it: a leaf
    or a directory according to the key type of that call, with the block
    length, the key id and the parent of that call. *)
Definition made_by_first_call (calls : list detector_call) (b : ieee1212_block)
    : Prop :=
  exists before c after,
    calls = before ++ c :: after
    /\ (forall c', In c' before -> call_offset c' <> blk_offset b)
    /\ call_offset c = blk_offset b
    /\ blk_length b = call_length c
    /\ block_type b
       = (if call_key_type c =? KEY_TYPE_LEAF
          then IEEE1212_LEAF_BLOCK else IEEE1212_DIRECTORY_BLOCK)
    /\ blk_data b = Some {| key_id := call_key_id c; parent := call_parent c |}.

(** Every leaf or directory entry of the directory [p], as long as the
    header of [p] says it is, had its call. *)
Definition entries_called (host : byte_order) (data : list byte)
    (calls : list detector_call) (p : ieee1212_block) : Prop :=
  forall i key_type key_id' value,
    0 <= i < (blk_length p - 4) / 4 ->
    decode_directory_entry (load32 host data (blk_offset p + 4 + i * 4))
    = (key_type, key_id', value) ->
    key_type = KEY_TYPE_LEAF \/ key_type = KEY_TYPE_DIRECTORY ->
    exists c, In c calls /\ call_parent c = blk_offset p /\ call_entry c = i.


(** The functions without allocation failures never take a descriptor
    from the list. *)
Definition grows (dd : Z -> Z -> Z -> Z -> list_head -> result list_head)
    : Prop :=
  forall o l k p head head',
    dd o l k p head = Ok head' -> (List.length head <= List.length head')%nat.

(** ** States of a run *)

(** What holds of the state between two detector calls: no two
    descriptors have one offset; every call found or made a descriptor at
    its offset; every call was made for an entry of a directory of the
    list; and every leaf and every directory is as the first call for its
    offset made it. *)
Record traced (host : byte_order) (data : list byte) (length : Z)
    (st : run_state) : Prop := {
  traced_unique :
    forall b b',
      In b (run_blocks st) -> In b' (run_blocks st) ->
      blk_offset b = blk_offset b' -> b = b';
  traced_blocks :
    forall c,
      In c (run_calls st) ->
      exists b, In b (run_blocks st) /\ blk_offset b = call_offset c;
  traced_entries :
    forall c,
      In c (run_calls st) -> call_of_entry host data length (run_blocks st) c;
  traced_first :
    forall b,
      In b (run_blocks st) ->
      block_type b = IEEE1212_LEAF_BLOCK
      \/ block_type b = IEEE1212_DIRECTORY_BLOCK ->
      made_by_first_call (run_calls st) b
}.

(** The leaf and directory entries of [p] below the entry [n] had their
    calls. *)
Definition called_below (host : byte_order) (data : list byte)
    (calls : list detector_call) (p : ieee1212_block) (n : Z) : Prop :=
  forall i key_type key_id' value,
    0 <= i < n ->
    decode_directory_entry (load32 host data (blk_offset p + 4 + i * 4))
    = (key_type, key_id', value) ->
    key_type = KEY_TYPE_LEAF \/ key_type = KEY_TYPE_DIRECTORY ->
    exists c, In c calls /\ call_parent c = blk_offset p /\ call_entry c = i.

(** Every directory of the list had the calls for its entries, but for
    the directories whose entries are being decoded: [pending] has their
    offsets. *)
Definition complete (host : byte_order) (data : list byte) (pending : list Z)
    (st : run_state) : Prop :=
  forall q,
    In q (run_blocks st) -> is_directory q ->
    entries_called host data (run_calls st) q \/ In (blk_offset q) pending.

(** A later state has the descriptors and the calls of an earlier one. *)
Definition later (st st' : run_state) : Prop :=
  incl (run_blocks st) (run_blocks st')
  /\ exists more, run_calls st' = run_calls st ++ more.

(** The descriptor the call [c] makes if there is none at its offset. *)
Definition block_of_call (c : detector_call) : ieee1212_block :=
  {| blk_offset := call_offset c;
     blk_length := call_length c;
     block_type := if call_key_type c =? KEY_TYPE_LEAF
                   then IEEE1212_LEAF_BLOCK else IEEE1212_DIRECTORY_BLOCK;
     blk_data := Some {| key_id := call_key_id c; parent := call_parent c |} |}.

(** What the loop over the entries asks of the directory detector. *)
Definition directory_run_contract (host : byte_order) (data : list byte)
    (length : Z)
    (dd : Z -> Z -> Z -> Z -> run_state -> result run_state) : Prop :=
  forall pending c st st',
    traced host data length st ->
    complete host data pending st ->
    call_of_entry host data length (run_blocks st) c ->
    call_key_type c = KEY_TYPE_DIRECTORY ->
    dd (call_offset c) (call_length c) (call_key_id c) (call_parent c)
      (with_call st c)
    = Ok st' ->
    traced host data length st' /\ complete host data pending st'
    /\ later (with_call st c) st'.

(** A root directory whose two entries, with the key ids 1 and 2, point to
    one leaf, the last quadlet of the image. *)
Definition shared_rom : list Z :=
  [ 0x04040400; 0x31333934; 0x00000000; 0x00000000; 0x00000000;
    0x00020000; 0x81000002; 0x82000001; 0x00000000 ].

(** ** Registered specifications *)

(** [detect_key_formatter] finds the entry [e] of [spec_entries] for the
    identifier. *)
Definition registered (identifier' : spec_identifier) (e : spec_entry) : Prop :=
  find (fun entry => spec_identifier_eqb (identifier entry) identifier')
    spec_entries
  = Some e.

(** A root directory with one entry, for a directory with the key id
    [0x30], which [format_directory_block] has no case for. *)
Definition stray_rom : list Z :=
  [ 0x04040400; 0x31333934; 0x00000000; 0x00000000; 0x00000000;
    0x00010000; 0xf0000001; 0x00000000 ].

(** The unit directory of [sample_rom], with the specifier and the version
    of SBP-2 and a logical unit number, but referred to by the root
    directory as a dependent info directory. *)
Definition dependent_rom : list Z :=
  [ 0x04040400; 0x31333934; 0x00000000; 0x00000000; 0x00000000;
    0x00010000; 0xd4000001;
    0x00030000; 0x1200609e; 0x13010483; 0x14000000 ].

(** * Verification *)

Lemma Ok_inj {A : Type} (a b : A) : Ok a = Ok b -> a = b.
Proof. intros H. injection H. auto. Qed.

Lemma Some_inj {A : Type} (a b : A) : Some a = Some b -> a = b.
Proof. intros H. injection H. auto. Qed.

(** * Arithmetic of the declared lengths *)

Lemma land_shifted_mask (q m s : Z) :
  0 <= s -> Z.land q (Z.shiftl m s) = Z.shiftl (Z.land (Z.shiftr q s) m) s.
Proof.
  intros Hs. apply Z.bits_inj'. intros n Hn.
  rewrite Z.land_spec.
  destruct (Z.lt_ge_cases n s) as [Hlt | Hge].
  - rewrite !Z.shiftl_spec_low by lia. apply andb_false_r.
  - rewrite !Z.shiftl_spec by lia. rewrite Z.land_spec, Z.shiftr_spec by lia.
    replace (n - s + s) with n by lia. reflexivity.
Qed.

Lemma scaled_length (q m s k : Z) :
  0 <= s -> 0 <= k -> 2 + k + s = 32 ->
  Z.shiftr (wrap32 (4 * Z.land q (Z.shiftl m s))) s
  = 4 * (Z.land (Z.shiftr q s) m mod 2 ^ k).
Proof.
  intros Hs Hk Hsum. rewrite land_shifted_mask by assumption.
  set (x := Z.land (Z.shiftr q s) m).
  unfold wrap32. rewrite Z.shiftl_mul_pow2, Z.shiftr_div_pow2 by assumption.
  replace (2 ^ 32) with (2 ^ k * (4 * 2 ^ s)).
  2:{ replace 32 with (k + (2 + s)) by lia.
      rewrite Z.pow_add_r, Z.pow_add_r by lia. reflexivity. }
  replace (4 * (x * 2 ^ s)) with (x * (4 * 2 ^ s)) by ring.
  assert (Hp : 0 < 2 ^ s) by (apply Z.pow_pos_nonneg; lia).
  assert (Hk2 : 0 < 2 ^ k) by (apply Z.pow_pos_nonneg; lia).
  rewrite Z.mul_mod_distr_r by lia.
  replace (x mod 2 ^ k * (4 * 2 ^ s)) with (4 * (x mod 2 ^ k) * 2 ^ s) by ring.
  rewrite Z.div_mul by lia. reflexivity.
Qed.

Lemma bus_info_scaled_length (q : Z) :
  Z.shiftr (wrap32 (4 * Z.land q IEEE1212_BUS_INFO_BLOCK_LENGTH_MASK))
    IEEE1212_BUS_INFO_BLOCK_LENGTH_SHIFT
  = 4 * (bus_info_length_field q mod 64).
Proof.
  change IEEE1212_BUS_INFO_BLOCK_LENGTH_MASK with (Z.shiftl 0xff 24).
  apply (scaled_length q 0xff 24 6); lia.
Qed.

Lemma block_scaled_length (q : Z) :
  Z.shiftr (wrap32 (4 * Z.land q IEEE1212_BLOCK_LENGTH_MASK))
    IEEE1212_BLOCK_LENGTH_SHIFT
  = 4 * (block_length_field q mod 16384).
Proof.
  change IEEE1212_BLOCK_LENGTH_MASK with (Z.shiftl 0xffff 16).
  apply (scaled_length q 0xffff 16 14); lia.
Qed.

(** * Insertion *)

Lemma in_insert_after_cursor (cursor : ieee1212_block) (rest : list_head)
    (entry x : ieee1212_block) :
  In x (insert_after_cursor cursor rest entry) <-> x = entry \/ In x (cursor :: rest).
Proof.
  revert cursor. induction rest as [| peek rest IH]; intros cursor; simpl.
  - intuition congruence.
  - destruct (blk_offset peek >? blk_offset entry); simpl.
    + intuition congruence.
    + rewrite IH. simpl. intuition congruence.
Qed.

Lemma in_insert_block_by_offset (head : list_head) (entry x : ieee1212_block) :
  In x (insert_block_by_offset head entry) <-> x = entry \/ In x head.
Proof.
  destruct head as [| cursor rest]; simpl.
  - intuition congruence.
  - apply in_insert_after_cursor.
Qed.

Lemma length_insert_after_cursor (cursor : ieee1212_block) (rest : list_head)
    (entry : ieee1212_block) :
  List.length (insert_after_cursor cursor rest entry) = S (S (List.length rest)).
Proof.
  revert cursor. induction rest as [| peek rest IH]; intros cursor; simpl.
  - reflexivity.
  - destruct (blk_offset peek >? blk_offset entry); simpl.
    + reflexivity.
    + now rewrite IH.
Qed.

Lemma length_insert_block_by_offset (head : list_head) (entry : ieee1212_block) :
  List.length (insert_block_by_offset head entry) = S (List.length head).
Proof.
  destruct head as [| cursor rest]; simpl.
  - reflexivity.
  - apply length_insert_after_cursor.
Qed.

Lemma hd_insert_after_cursor (cursor : ieee1212_block) (rest : list_head)
    (entry : ieee1212_block) :
  exists rest', insert_after_cursor cursor rest entry = cursor :: rest'.
Proof.
  destruct rest as [| peek rest]; simpl.
  - eauto.
  - destruct (blk_offset peek >? blk_offset entry); eauto.
Qed.

Lemma block_exists_false (head : list_head) (o : Z) :
  block_exists head o = false <-> forall b, In b head -> blk_offset b <> o.
Proof.
  unfold block_exists. induction head as [| b head IH]; simpl.
  - intuition.
  - rewrite orb_false_iff, IH, Z.eqb_neq. split.
    + intros [H1 H2] x [<- | Hx]; auto.
    + intros H. split; auto.
Qed.

Lemma block_exists_true (head : list_head) (o : Z) :
  block_exists head o = true <-> exists b, In b head /\ blk_offset b = o.
Proof.
  unfold block_exists. rewrite existsb_exists.
  split; intros [b [Hin Hb]]; exists b; split; auto; lia.
Qed.

Lemma ascending_insert_after_cursor (cursor : ieee1212_block) (rest : list_head)
    (entry : ieee1212_block) :
  ascending (cursor :: rest) ->
  blk_offset cursor < blk_offset entry ->
  (forall b, In b rest -> blk_offset b <> blk_offset entry) ->
  ascending (insert_after_cursor cursor rest entry).
Proof.
  revert cursor. induction rest as [| peek rest IH]; intros cursor Hasc Hlt Hfresh.
  - simpl. auto.
  - cbn [insert_after_cursor].
    destruct (blk_offset peek >? blk_offset entry) eqn:Hcmp.
    + apply Z.gtb_lt in Hcmp. destruct Hasc as [_ Hrest].
      cbn [ascending]. repeat split; auto; try lia. apply Hrest. apply Hrest.
    + assert (Hpe : blk_offset peek < blk_offset entry).
      { pose proof (Hfresh peek (or_introl eq_refl)).
        pose proof (Zgt_cases (blk_offset peek) (blk_offset entry)) as Hc.
        rewrite Hcmp in Hc. lia. }
      destruct Hasc as [Hcp Hrest].
      specialize (IH peek Hrest Hpe (fun b Hb => Hfresh b (or_intror Hb))).
      destruct (hd_insert_after_cursor peek rest entry) as [rest' Heq].
      rewrite Heq in *. cbn [ascending]. split; auto.
Qed.

Lemma ascending_lower_bound (head : list_head) (b x : ieee1212_block) :
  ascending (b :: head) -> In x head -> blk_offset b < blk_offset x.
Proof.
  revert b. induction head as [| c head IH]; intros b Hasc Hin.
  - destruct Hin.
  - destruct Hasc as [Hbc Hrest]. destruct Hin as [<- | Hin]; auto.
    specialize (IH c Hrest Hin). lia.
Qed.

Lemma ascending_NoDup (head : list_head) :
  ascending head -> NoDup (map blk_offset head).
Proof.
  induction head as [| b head IH]; intros Hasc; simpl.
  - constructor.
  - constructor.
    + rewrite in_map_iff. intros [x [Hx Hin]].
      pose proof (ascending_lower_bound head b x Hasc Hin). lia.
    + apply IH. apply Hasc.
Qed.

Section Discovery.

Variable host : byte_order.
Variable data : list byte.
Variable length : Z.

Local Abbreviation discovered := (discovered host data length).
Local Abbreviation referenced := (referenced host data).

Lemma referenced_incl (head head' : list_head) (b : ieee1212_block) :
  incl head head' -> referenced head b -> referenced head' b.
Proof.
  intros Hincl. unfold referenced.
  destruct (block_type b); auto;
    intros (d & p & i & H1 & H2 & H3); exists d, p, i; intuition.
Qed.

Lemma incl_insert (head : list_head) (entry : ieee1212_block) :
  incl head (insert_block_by_offset head entry).
Proof.
  intros x Hx. apply in_insert_block_by_offset. now right.
Qed.

Lemma discovered_insert (head : list_head) (entry : ieee1212_block) :
  discovered head ->
  well_placed length entry ->
  referenced head entry ->
  block_exists head (blk_offset entry) = false ->
  discovered (insert_block_by_offset head entry).
Proof.
  intros [Hfirst Hasc Hplaced Href] Hwp Hre Hfresh.
  rewrite block_exists_false in Hfresh.
  destruct Hfirst as (b & rest & -> & Hb0).
  assert (Hlt : blk_offset b < blk_offset entry).
  { pose proof (Hfresh b (or_introl eq_refl)). destruct Hwp as [H0 _]. lia. }
  split.
  - simpl. destruct (hd_insert_after_cursor b rest entry) as [rest' ->]. eauto.
  - simpl. apply ascending_insert_after_cursor; auto.
    intros x Hx. apply Hfresh. now right.
  - apply Forall_forall. intros x Hx.
    apply in_insert_block_by_offset in Hx. destruct Hx as [-> | Hx]; auto.
    rewrite Forall_forall in Hplaced. auto.
  - apply Forall_forall. intros x Hx.
    apply in_insert_block_by_offset in Hx.
    apply referenced_incl with (head := b :: rest).
    + apply incl_insert.
    + destruct Hx as [-> | Hx]; auto.
      rewrite Forall_forall in Href. auto.
Qed.

(** Descriptors at distinct aligned offsets: at most one for each quadlet. *)
Lemma ascending_count (head : list_head) (lo : Z) :
  ascending head ->
  Forall (well_placed length) head ->
  (forall b rest, head = b :: rest -> lo <= blk_offset b) ->
  lo mod 4 = 0 ->
  head <> [] ->
  lo + 4 * Z.of_nat (List.length head) <= length.
Proof.
  revert lo. induction head as [| b head IH]; intros lo Hasc Hpl Hlo Hmod Hne.
  - congruence.
  - inversion Hpl as [| ? ? Hb Hrest]; subst.
    pose proof (Hlo b head eq_refl) as Hlob.
    destruct Hb as (Hb0 & Hbm & Hbl & _ & Hbe).
    destruct head as [| c head].
    + simpl. lia.
    + destruct Hasc as [Hbc Hasc].
      specialize (IH (blk_offset b + 4) Hasc Hrest).
      assert (Hc : blk_offset b + 4 <= blk_offset c).
      { inversion Hrest as [| ? ? Hcw _]; subst.
        destruct Hcw as (_ & Hcm & _).
        rewrite Z.mod_divide in Hbm, Hcm by lia.
        destruct Hbm as [x Hx], Hcm as [y Hy]. lia. }
      assert (Hm : (blk_offset b + 4) mod 4 = 0).
      { rewrite Z.mod_divide in * by lia. destruct Hbm as [x Hx].
        exists (x + 1). lia. }
      specialize (IH (fun b' rest' E => ltac:(inversion E; subst; exact Hc)) Hm
                    ltac:(discriminate)).
      change (List.length (b :: c :: head)) with (S (List.length (c :: head))).
      lia.
Qed.

Lemma discovered_count (head : list_head) :
  discovered head -> (List.length head <= Z.to_nat (length / 4))%nat.
Proof.
  intros [Hfirst Hasc Hplaced _].
  destruct Hfirst as (b & rest & -> & Hb0).
  pose proof (ascending_count (b :: rest) 0 Hasc Hplaced) as H.
  assert (0 + 4 * Z.of_nat (List.length (b :: rest)) <= length).
  { apply H; try discriminate; auto. intros b' rest' E. inversion E; subst. lia. }
  assert (Z.of_nat (List.length (b :: rest)) <= length / 4).
  { apply Z.div_le_lower_bound; lia. }
  lia.
Qed.

End Discovery.

Section Contracts.

Variable host : byte_order.
Variable data : list byte.
Variable length : Z.

Local Abbreviation discovered := (discovered host data length).
Local Abbreviation referenced := (referenced host data).
Local Abbreviation admissible := (admissible host data length).
Local Abbreviation directory_contract := (directory_contract host data length).

(** What a call of [detect_ieee1212_block_length] that succeeds tells. *)
Lemma detect_ieee1212_block_length_ok (offset block_length : Z) :
  detect_ieee1212_block_length host data length offset = Ok block_length ->
  block_length = 4 + 4 * (block_length_field (load32 host data offset) mod 16384)
  /\ offset + block_length <= length.
Proof.
  unfold detect_ieee1212_block_length. rewrite block_scaled_length.
  destruct (_ >? length) eqn:Hcmp; intros H; [discriminate |].
  apply Ok_inj in H. subst block_length.
  split; auto. rewrite Z.gtb_ltb in Hcmp. apply Z.ltb_ge in Hcmp. exact Hcmp.
Qed.

Lemma detect_ieee1212_bus_info_block_length_ok (offset block_length : Z) :
  detect_ieee1212_bus_info_block_length host data length offset = Ok block_length ->
  block_length = 4 + 4 * (bus_info_length_field (load32 host data 0) mod 64)
  /\ offset + block_length <= length.
Proof.
  unfold detect_ieee1212_bus_info_block_length. rewrite bus_info_scaled_length.
  destruct (_ >? length) eqn:Hcmp; intros H; [discriminate |].
  apply Ok_inj in H. subst block_length.
  split; auto. rewrite Z.gtb_ltb in Hcmp. apply Z.ltb_ge in Hcmp. exact Hcmp.
Qed.

Lemma wrap32_scaled (value : Z) :
  0 <= wrap32 (4 * value) /\ wrap32 (4 * value) mod 4 = 0.
Proof.
  unfold wrap32. split.
  - apply Z.mod_pos_bound. lia.
  - change (2 ^ 32) with (4 * 2 ^ 30). rewrite Z.mul_mod_distr_l by lia.
    rewrite Z.mul_comm. apply Z.mod_mul. lia.
Qed.

Lemma detect_ieee1212_leaf_block_spec (o l k p : Z) (head head' : list_head) :
  discovered head ->
  admissible head (new_block IEEE1212_LEAF_BLOCK o l k p) ->
  detect_ieee1212_leaf_block data length o l k p head = Ok head' ->
  discovered head' /\ incl head head'.
Proof.
  intros Hd [Hwp Hre]. unfold detect_ieee1212_leaf_block.
  destruct (block_exists head o) eqn:Hex; intros H; inversion H; subst.
  - split; auto. apply incl_refl.
  - split.
    + apply discovered_insert; auto.
    + apply incl_insert.
Qed.

Lemma incl_length_discovered (head head' : list_head) :
  discovered head -> incl head head' -> discovered head' ->
  (List.length head <= List.length head')%nat.
Proof.
  intros Hd Hincl Hd'.
  rewrite <- (length_map blk_offset head), <- (length_map blk_offset head').
  apply NoDup_incl_length.
  - apply ascending_NoDup, Hd.
  - intros x Hx. apply in_map_iff in Hx. destruct Hx as (b & <- & Hb).
    apply in_map. auto.
Qed.

Lemma detect_entries_loop_spec (N : nat)
    (detect_directory : Z -> Z -> Z -> Z -> list_head -> result list_head)
    (p : ieee1212_block) :
  directory_contract N detect_directory ->
  is_directory p ->
  forall (count : nat) (i : Z) (head : list_head),
    discovered head ->
    In p head ->
    0 <= i ->
    i + Z.of_nat count <= (blk_length p - 4) / 4 ->
    (forall head',
        detect_entries_loop host detect_directory data length
          (blk_offset p + 4) (blk_offset p) count i head = Ok head' ->
        discovered head' /\ incl head head')
    /\ ((N <= List.length head)%nat ->
        detect_entries_loop host detect_directory data length
          (blk_offset p + 4) (blk_offset p) count i head <> OutOfFuel).
Proof.
  intros Hdd Hp. induction count as [| count IH]; intros i head Hd Hin Hi Hcount.
  - simpl. split; [| discriminate].
    intros head' H. inversion H; subst. split; auto. apply incl_refl.
  - cbn [detect_entries_loop].
    destruct (decode_directory_entry (load32 host data (blk_offset p + 4 + i * 4)))
      as [[key_type kid] value] eqn:Hdec.
    assert (Hnext : i + 1 + Z.of_nat count <= (blk_length p - 4) / 4) by lia.
    destruct ((key_type =? KEY_TYPE_LEAF) || (key_type =? KEY_TYPE_DIRECTORY)) eqn:Hkt.
    2:{ apply IH; auto; lia. }
    set (block_offset := blk_offset p + 4 + i * 4 + wrap32 (4 * value)).
    destruct (block_offset >=? length) eqn:Hge.
    { split; [discriminate | discriminate]. }
    destruct (detect_ieee1212_block_length host data length block_offset)
      as [block_length | e |] eqn:Hlen; cbn [bind].
    2:{ split; discriminate. }
    2:{ unfold detect_ieee1212_block_length in Hlen.
        destruct (_ >? length) in Hlen; discriminate. }
    apply detect_ieee1212_block_length_ok in Hlen. destruct Hlen as [Hbl Hend].
    assert (Hpw : well_placed length p).
    { destruct Hd as [_ _ Hpl _]. rewrite Forall_forall in Hpl. auto. }
    destruct Hpw as (Hp0 & Hpm & _).
    pose proof (wrap32_scaled value) as [Hw0 Hwm].
    assert (Hbm : block_length_field (load32 host data block_offset) mod 16384 >= 0).
    { pose proof (Z.mod_pos_bound (block_length_field (load32 host data block_offset)) 16384). lia. }
    assert (Hadm : forall t,
               (key_type = KEY_TYPE_LEAF /\ t = IEEE1212_LEAF_BLOCK
                \/ key_type = KEY_TYPE_DIRECTORY /\ t = IEEE1212_DIRECTORY_BLOCK) ->
               admissible head (new_block t block_offset block_length kid (blk_offset p))).
    { intros t Ht. split.
      - unfold well_placed, new_block; cbn.
        repeat split; try lia.
        + unfold block_offset.
          rewrite Z.mod_divide in * by lia.
          destruct Hpm as [x Hx], Hwm as [y Hy]. exists (x + 1 + i + y). lia.
        + rewrite Hbl. rewrite Z.mod_divide by lia.
          exists (1 + block_length_field (load32 host data block_offset) mod 16384). lia.
      - assert (Href : exists d p' i',
                   Some {| key_id := kid; parent := blk_offset p |} = Some d
                   /\ In p' head /\ is_directory p'
                   /\ blk_offset p' = parent d
                   /\ refers host data p' i'
                        (new_block t block_offset block_length kid (blk_offset p)) d).
        { exists {| key_id := kid; parent := blk_offset p |}, p, i.
          split; [reflexivity |]. split; [exact Hin |]. split; [exact Hp |].
          split; [reflexivity |].
          unfold refers. cbv zeta. rewrite Hdec. cbn.
          split; [lia |]. split; [| split; [reflexivity | reflexivity]].
          destruct Ht as [[? ->] | [? ->]]; auto. }
        unfold referenced. destruct Ht as [[_ ->] | [_ ->]]; exact Href. }
    destruct (key_type =? KEY_TYPE_LEAF) eqn:Hleaf.
    + apply Z.eqb_eq in Hleaf.
      specialize (Hadm IEEE1212_LEAF_BLOCK (or_introl (conj Hleaf eq_refl))).
      destruct (detect_ieee1212_leaf_block data length block_offset block_length
                  kid (blk_offset p) head) as [head1 | e |] eqn:Hleafres; cbn [bind].
      * destruct (detect_ieee1212_leaf_block_spec _ _ _ _ _ _ Hd Hadm Hleafres)
          as [Hd1 Hincl1].
        destruct (IH (i + 1) head1 Hd1 (Hincl1 _ Hin) ltac:(lia) Hnext) as [IHa IHb].
        split.
        -- intros head' H. destruct (IHa head' H) as [Hd' Hincl'].
           split; auto. eapply incl_tran; eauto.
        -- intros HN. apply IHb.
           pose proof (incl_length_discovered _ _ Hd Hincl1 Hd1). lia.
      * split; discriminate.
      * unfold detect_ieee1212_leaf_block in Hleafres.
        destruct (block_exists head block_offset); discriminate.
    + cbn [orb] in Hkt. apply Z.eqb_eq in Hkt.
      specialize (Hadm IEEE1212_DIRECTORY_BLOCK (or_intror (conj Hkt eq_refl))).
      destruct (Hdd block_offset block_length kid (blk_offset p) head Hd Hadm)
        as [Hdda Hddb].
      destruct (detect_directory block_offset block_length kid (blk_offset p) head)
        as [head1 | e |] eqn:Hdirres; cbn [bind].
      * destruct (Hdda head1 eq_refl) as [Hd1 Hincl1].
        destruct (IH (i + 1) head1 Hd1 (Hincl1 _ Hin) ltac:(lia) Hnext) as [IHa IHb].
        split.
        -- intros head' H. destruct (IHa head' H) as [Hd' Hincl'].
           split; auto. eapply incl_tran; eauto.
        -- intros HN. apply IHb.
           pose proof (incl_length_discovered _ _ Hd Hincl1 Hd1). lia.
      * split; discriminate.
      * split; [discriminate |]. intros HN. exfalso. apply (Hddb HN). reflexivity.
Qed.

Lemma detect_ieee1212_directory_block_contract (fuel : nat) :
  directory_contract (S (Z.to_nat (length / 4)) - fuel)
    (detect_ieee1212_directory_block host fuel data length).
Proof.
  induction fuel as [| fuel IH]; intros o l k p head Hd Hadm.
  - simpl. split; [discriminate |].
    intros HN. pose proof (discovered_count host data length head Hd). lia.
  - cbn [detect_ieee1212_directory_block].
    destruct (block_exists head o) eqn:Hex.
    + split; [| discriminate].
      intros head' H. inversion H; subst. split; auto. apply incl_refl.
    + set (entry := new_block IEEE1212_DIRECTORY_BLOCK o l k p).
      fold entry.
      assert (Hd1 : discovered (insert_block_by_offset head entry)).
      { destruct Hadm. apply discovered_insert; auto. }
      unfold detect_ieee1212_directory_entries.
      assert (Hcount : 0 + Z.of_nat (Z.to_nat ((l - 4) / 4)) <= (blk_length entry - 4) / 4).
      { cbn. destruct Hadm as [(_ & _ & Hl & _) _]. cbn in Hl.
        assert (0 <= (l - 4) / 4) by (apply Z.div_pos; lia). lia. }
      destruct (detect_entries_loop_spec _ _ entry IH (or_intror eq_refl)
                  (Z.to_nat ((l - 4) / 4)) 0 (insert_block_by_offset head entry)
                  Hd1 ltac:(apply in_insert_block_by_offset; now left)
                  ltac:(lia) Hcount) as [Ha Hb].
      cbn [blk_offset entry new_block] in Ha, Hb.
      split.
      * intros head' H. destruct (Ha head' H) as [Hd' Hincl']. split; auto.
        eapply incl_tran; [apply incl_insert | eauto].
      * intros HN. apply Hb. rewrite length_insert_block_by_offset. lia.
Qed.
End Contracts.

Section Pipeline.

Variable host : byte_order.
Variable data : list byte.
Variable length : Z.

Local Abbreviation discovered := (discovered host data length).

Theorem detect_ieee1212_blocks_spec (fuel : nat) :
  (forall head,
      detect_ieee1212_blocks host fuel data length [] = Ok head ->
      discovered head)
  /\ ((Z.to_nat (length / 4) <= fuel)%nat ->
      detect_ieee1212_blocks host fuel data length [] <> OutOfFuel).
Proof.
  unfold detect_ieee1212_blocks.
  destruct (detect_ieee1212_bus_info_block_length host data length 0)
    as [bus_length | e |] eqn:Hbus; cbn [bind].
  2:{ split; discriminate. }
  2:{ unfold detect_ieee1212_bus_info_block_length in Hbus.
      destruct (_ >? length) in Hbus; discriminate. }
  apply detect_ieee1212_bus_info_block_length_ok in Hbus.
  destruct Hbus as [Hbl Hbe].
  unfold detect_ieee1212_bus_info_block; cbn [bind insert_block_by_offset].
  destruct (detect_ieee1212_block_length host data length (0 + bus_length))
    as [root_length | e |] eqn:Hroot; cbn [bind].
  2:{ split; discriminate. }
  2:{ unfold detect_ieee1212_block_length in Hroot.
      destruct (_ >? length) in Hroot; discriminate. }
  apply detect_ieee1212_block_length_ok in Hroot.
  destruct Hroot as [Hrl Hre].
  unfold detect_ieee1212_root_directory_block, detect_ieee1212_directory_entries.
  cbn [insert_block_by_offset insert_after_cursor blk_offset].
  set (bus := {| blk_offset := 0; blk_length := bus_length;
                 block_type := IEEE1212_BUS_INFO_BLOCK; blk_data := None |}).
  set (root := {| blk_offset := 0 + bus_length; blk_length := root_length;
                  block_type := IEEE1212_ROOT_DIRECTORY_BLOCK; blk_data := None |}).
  pose proof (Z.mod_pos_bound (bus_info_length_field (load32 host data 0)) 64
                ltac:(lia)) as Hb64.
  pose proof (Z.mod_pos_bound
                (block_length_field (load32 host data (0 + bus_length))) 16384
                ltac:(lia)) as Hr16.
  assert (Hd : discovered [bus; root]).
  { split.
    - exists bus, [root]. auto.
    - cbn. lia.
    - repeat constructor; cbn; try lia.
      + rewrite Hbl, Z.mod_divide by lia.
        exists (1 + bus_info_length_field (load32 host data 0) mod 64). lia.
      + rewrite Hbl, Z.mod_divide by lia.
        exists (1 + bus_info_length_field (load32 host data 0) mod 64). lia.
      + rewrite Hrl, Z.mod_divide by lia.
        exists (1 + block_length_field (load32 host data (0 + bus_length)) mod 16384).
        lia.
    - repeat constructor. }
  assert (Hcount : 0 + Z.of_nat (Z.to_nat ((root_length - 4) / 4))
                   <= (blk_length root - 4) / 4).
  { cbn. assert (0 <= (root_length - 4) / 4) by (apply Z.div_pos; lia). lia. }
  destruct (detect_entries_loop_spec host data length _ _ root
              (detect_ieee1212_directory_block_contract host data length fuel)
              (or_introl eq_refl) (Z.to_nat ((root_length - 4) / 4)) 0 [bus; root]
              Hd ltac:(cbn; auto) ltac:(lia) Hcount) as [Ha Hb].
  cbn [blk_offset root] in Ha, Hb.
  split.
  - intros head H. apply (Ha head H).
  - intros Hfuel. apply Hb. cbn [List.length]. lia.
Qed.

(** ** Normalisation *)

Lemma normalize_blocks_next (head : list_head) :
  next_offset_of (normalize_blocks head length) length = next_offset_of head length.
Proof.
  destruct head as [| entry rest]; cbn; auto.
  destruct (_ >? _); reflexivity.
Qed.

Lemma normalize_blocks_packed (head : list_head) :
  ascending head ->
  Forall (well_placed length) head ->
  packed length (normalize_blocks head length).
Proof.
  induction head as [| entry rest IH]; intros Hasc Hpl; cbn [normalize_blocks packed].
  - exact I.
  - inversion Hpl as [| ? ? He Hrest]; subst.
    destruct Hasc as [Hnext Hasc].
    rewrite normalize_blocks_next.
    fold (next_offset_of rest length).
    destruct He as (_ & _ & Hl & _ & Hend).
    assert (Hlt : blk_offset entry < next_offset_of rest length).
    { destruct rest; cbn; lia. }
    destruct (blk_offset entry + blk_length entry >? next_offset_of rest length)
      eqn:Hcmp; cbn.
    + repeat split; auto; lia.
    + rewrite Z.gtb_ltb in Hcmp. apply Z.ltb_ge in Hcmp. repeat split; auto; lia.
Qed.

Lemma normalize_blocks_same (head : list_head) :
  Forall2 same_block (normalize_blocks head length) head.
Proof.
  induction head as [| entry rest IH]; cbn [normalize_blocks].
  - constructor.
  - constructor; auto.
    destruct (_ >? _); repeat split; reflexivity.
Qed.

Lemma normalize_blocks_length (head : list_head) :
  List.length (normalize_blocks head length) = List.length head.
Proof.
  induction head as [| entry rest IH]; cbn [normalize_blocks List.length]; auto.
Qed.

(** ** Orphan blocks *)

Lemma tiles_app (start mid stop : Z) (pre suf : list_head) :
  tiles start pre mid -> tiles mid suf stop -> tiles start (pre ++ suf) stop.
Proof.
  revert start. induction pre as [| b pre IH]; intros start Hpre Hsuf; cbn in *.
  - now subst.
  - destruct Hpre as (H1 & H2 & H3). repeat split; auto.
Qed.

Lemma tiles_offsets (start stop : Z) (head : list_head) (x : ieee1212_block) :
  tiles start head stop -> In x head -> start <= blk_offset x < stop.
Proof.
  revert start. induction head as [| b head IH]; intros start Ht Hin.
  - destruct Hin.
  - destruct Ht as (H1 & H2 & H3).
    assert (Hle : start + blk_length b <= stop).
    { clear - H3. revert H3. generalize (start + blk_length b).
      induction head as [| c head IHh]; intros s Hs; cbn in Hs.
      - lia.
      - destruct Hs as (? & ? & Hs). apply IHh in Hs. lia. }
    destruct Hin as [<- | Hin].
    + lia.
    + specialize (IH _ H3 Hin). lia.
Qed.

Lemma insert_after_cursor_at (mid rest : list_head) (c e : ieee1212_block)
    (pos : nat) :
  (forall x, In x mid -> blk_offset x <= blk_offset e) ->
  blk_offset e < next_offset_of rest (blk_offset e + 1) ->
  insert_after_cursor c (mid ++ rest) e = c :: mid ++ e :: rest
  /\ insert_position_after (mid ++ rest) e pos = (pos + List.length mid)%nat.
Proof.
  intros Hmid Hrest. revert c pos.
  induction mid as [| m mid IH]; intros c pos; cbn [app List.length].
  - destruct rest as [| peek rest]; cbn [insert_after_cursor insert_position_after].
    + split; auto.
    + cbn in Hrest. replace (blk_offset peek >? blk_offset e) with true.
      2:{ symmetry. rewrite Z.gtb_ltb. apply Z.ltb_lt. lia. }
      split; auto.
  - cbn [insert_after_cursor insert_position_after].
    replace (blk_offset m >? blk_offset e) with false.
    2:{ symmetry. rewrite Z.gtb_ltb. apply Z.ltb_ge. apply Hmid. now left. }
    destruct (IH (fun x Hx => Hmid x (or_intror Hx)) m (S pos)) as [E1 E2].
    rewrite E1, E2. split; [reflexivity | lia].
Qed.

Lemma insert_block_by_offset_at (front rest : list_head) (e : ieee1212_block) :
  front <> [] ->
  (forall x, In x front -> blk_offset x <= blk_offset e) ->
  blk_offset e < next_offset_of rest (blk_offset e + 1) ->
  insert_block_by_offset (front ++ rest) e = front ++ e :: rest
  /\ insert_position (front ++ rest) e = List.length front.
Proof.
  destruct front as [| c mid]; [congruence |]. intros _ Hfront Hrest.
  cbn [insert_block_by_offset insert_position app List.length].
  apply insert_after_cursor_at; auto.
  intros x Hx. apply Hfront. now right.
Qed.

End Pipeline.

Section Orphans.

Variable length : Z.

Lemma fulfill_work_bound (suf : list_head) :
  (fulfill_work length suf <= 3 * List.length suf)%nat.
Proof.
  induction suf as [| entry rest IH]; cbn [fulfill_work List.length].
  - lia.
  - destruct (_ >=? _); lia.
Qed.

Lemma nth_error_middle (pre rest : list_head) (x : ieee1212_block) :
  nth_error (pre ++ x :: rest) (List.length pre) = Some x.
Proof.
  rewrite nth_error_app2 by lia. now rewrite Nat.sub_diag.
Qed.

Lemma nth_error_after (pre rest : list_head) (x : ieee1212_block) :
  nth_error (pre ++ x :: rest) (S (List.length pre)) = nth_error rest 0.
Proof.
  rewrite nth_error_app2 by lia.
  replace (S (List.length pre) - List.length pre)%nat with 1%nat by lia.
  reflexivity.
Qed.

Lemma next_offset_of_nth (rest : list_head) :
  match nth_error rest 0 with
  | Some peek => blk_offset peek
  | None => length
  end = next_offset_of rest length.
Proof. destruct rest; reflexivity. Qed.

Lemma fulfill_loop_packed (fuel : nat) :
  forall (suf pre : list_head),
    packed length suf ->
    tiles 0 pre (next_offset_of suf length) ->
    (fulfill_work length suf < fuel)%nat ->
    exists final,
      fulfill_loop fuel length (List.length pre) (pre ++ suf) = Ok final
      /\ tiles 0 final length
      /\ incl (pre ++ suf) final
      /\ (forall x, In x final ->
                    In x (pre ++ suf)
                    \/ block_type x = ORPHAN_BLOCK /\ blk_data x = None).
Proof.
  induction fuel as [| fuel IH]; intros suf pre Hpacked Htiles Hfuel; [lia |].
  destruct suf as [| entry rest].
  - cbn [fulfill_loop]. rewrite app_nil_r.
    replace (nth_error pre (List.length pre)) with (@None ieee1212_block).
    2:{ symmetry. apply nth_error_None. lia. }
    exists pre. cbn in Htiles. repeat split; auto using incl_refl.
  - cbn [fulfill_loop]. rewrite nth_error_middle, nth_error_after, next_offset_of_nth.
    destruct Hpacked as (Hlen & Hend & Hrest).
    cbn [fulfill_work] in Hfuel. cbn [next_offset_of] in Htiles.
    destruct (blk_offset entry + blk_length entry >=? next_offset_of rest length)
      eqn:Hcmp.
    + rewrite Z.geb_leb in Hcmp. apply Z.leb_le in Hcmp.
      assert (Ht : tiles 0 (pre ++ [entry]) (next_offset_of rest length)).
      { eapply tiles_app; eauto. cbn. repeat split; auto; lia. }
      destruct (IH rest (pre ++ [entry]) Hrest Ht ltac:(lia))
        as (final & Hrun & Hfinal & Hincl & Horph).
      rewrite length_app in Hrun. cbn [List.length] in Hrun.
      rewrite Nat.add_1_r, <- app_assoc in Hrun. cbn [app] in Hrun.
      rewrite <- app_assoc in Hincl, Horph. cbn [app] in Hincl, Horph.
      exists final. auto.
    + rewrite Z.geb_leb in Hcmp. apply Z.leb_gt in Hcmp.
      set (orphan := {| blk_offset := blk_offset entry + blk_length entry;
                        blk_length := next_offset_of rest length
                                      - (blk_offset entry + blk_length entry);
                        block_type := ORPHAN_BLOCK; blk_data := None |}).
      destruct (insert_block_by_offset_at (pre ++ [entry]) rest orphan)
        as [Eins Epos].
      { destruct pre; discriminate. }
      { intros x Hx. apply in_app_or in Hx. cbn [blk_offset orphan].
        destruct Hx as [Hx | [<- | []]]; [| lia].
        pose proof (tiles_offsets _ _ _ _ Htiles Hx). lia. }
      { cbn [blk_offset orphan]. destruct rest; cbn in *; lia. }
      rewrite <- app_assoc in Eins, Epos. cbn [app] in Eins, Epos.
      rewrite Eins, Epos.
      rewrite length_app. cbn [List.length].
      replace (Datatypes.length pre + 1 <=? Datatypes.length pre)%nat with false.
      2:{ symmetry. apply Nat.leb_gt. lia. }
      rewrite <- app_assoc. cbn [app].
      assert (Hpacked' : packed length (entry :: orphan :: rest)).
      { cbn [packed next_offset_of blk_offset blk_length orphan].
        repeat split; auto; lia. }
      assert (Hwork : (fulfill_work length (entry :: orphan :: rest) < fuel)%nat).
      { cbn [fulfill_work next_offset_of blk_offset blk_length orphan].
        replace (blk_offset entry + blk_length entry
                 >=? blk_offset entry + blk_length entry) with true.
        2:{ symmetry. rewrite Z.geb_leb. apply Z.leb_le. lia. }
        replace (blk_offset entry + blk_length entry
                 + (next_offset_of rest length
                    - (blk_offset entry + blk_length entry))
                 >=? next_offset_of rest length) with true.
        2:{ symmetry. rewrite Z.geb_leb. apply Z.leb_le. lia. }
        lia. }
      destruct (IH (entry :: orphan :: rest) pre Hpacked' Htiles Hwork)
        as (final & Hrun & Hfinal & Hincl & Horph).
      exists final. repeat split; auto.
      * intros x Hx. apply Hincl. apply in_app_or in Hx. apply in_or_app.
        destruct Hx as [Hx | [<- | Hx]]; cbn; auto.
      * intros x Hx. destruct (Horph x Hx) as [Hin | Ho]; auto.
        apply in_app_or in Hin.
        destruct Hin as [Hin | [<- | [<- | Hin]]].
        -- left. apply in_or_app. auto.
        -- left. apply in_or_app. cbn. auto.
        -- right. auto.
        -- left. apply in_or_app. cbn. auto.
Qed.

Lemma fulfill_orphan_blocks_packed (data : list byte) (head : list_head) :
  packed length head ->
  next_offset_of head length = 0 ->
  exists final,
    fulfill_orphan_blocks data length head = Ok final
    /\ tiles 0 final length
    /\ incl head final
    /\ (forall x, In x final ->
                  In x head \/ block_type x = ORPHAN_BLOCK /\ blk_data x = None).
Proof.
  intros Hpacked Hfirst. unfold fulfill_orphan_blocks.
  apply (fulfill_loop_packed _ head []); auto.
  - cbn. auto.
  - pose proof (fulfill_work_bound head). lia.
Qed.

End Orphans.

Section Fuel.

Variable host : byte_order.
Variable data : list byte.
Variable length : Z.

Lemma detect_entries_loop_extends dd dd' :
  extends dd dd' ->
  forall directory_offset parent count i head,
    detect_entries_loop host dd data length directory_offset parent count i head
    <> OutOfFuel ->
    detect_entries_loop host dd' data length directory_offset parent count i head
    = detect_entries_loop host dd data length directory_offset parent count i head.
Proof.
  intros Hext directory_offset parent count.
  induction count as [| count IH]; intros i head; cbn [detect_entries_loop].
  - reflexivity.
  - destruct (decode_directory_entry _) as [[key_type kid] value].
    destruct ((key_type =? KEY_TYPE_LEAF) || (key_type =? KEY_TYPE_DIRECTORY)); auto.
    destruct (_ >=? length); auto.
    destruct (detect_ieee1212_block_length host data length _); cbn [bind]; auto.
    destruct (key_type =? KEY_TYPE_LEAF).
    + destruct (detect_ieee1212_leaf_block _ _ _ _ _ _ _); cbn [bind]; auto.
    + intros H.
      destruct (dd _ a kid parent head) as [head1 | e |] eqn:Hdd; cbn [bind] in *.
      * rewrite Hext by (rewrite Hdd; discriminate). rewrite Hdd. cbn [bind]. auto.
      * rewrite Hext by (rewrite Hdd; discriminate). rewrite Hdd. reflexivity.
      * congruence.
Qed.

Lemma detect_ieee1212_directory_block_extends (fuel : nat) :
  extends (detect_ieee1212_directory_block host fuel data length)
    (detect_ieee1212_directory_block host (S fuel) data length).
Proof.
  induction fuel as [| fuel IH]; intros o l k p head H.
  - cbn in H. congruence.
  - cbn [detect_ieee1212_directory_block] in *.
    destruct (block_exists head o); auto.
    unfold detect_ieee1212_directory_entries in *.
    apply detect_entries_loop_extends; auto.
Qed.

Lemma detect_ieee1212_directory_block_more_fuel (fuel extra : nat) :
  extends (detect_ieee1212_directory_block host fuel data length)
    (detect_ieee1212_directory_block host (extra + fuel) data length).
Proof.
  induction extra as [| extra IH]; intros o l k p head H.
  - reflexivity.
  - cbn [Nat.add]. rewrite detect_ieee1212_directory_block_extends.
    + apply IH, H.
    + rewrite IH; auto.
Qed.

Lemma detect_ieee1212_blocks_more_fuel (fuel fuel' : nat) (head : list_head) :
  (fuel <= fuel')%nat ->
  detect_ieee1212_blocks host fuel data length head <> OutOfFuel ->
  detect_ieee1212_blocks host fuel' data length head
  = detect_ieee1212_blocks host fuel data length head.
Proof.
  intros Hle. replace fuel' with ((fuel' - fuel) + fuel)%nat by lia.
  unfold detect_ieee1212_blocks.
  destruct (detect_ieee1212_bus_info_block_length host data length 0); cbn [bind]; auto.
  destruct (detect_ieee1212_bus_info_block data length 0 a head); cbn [bind]; auto.
  destruct (detect_ieee1212_block_length host data length (0 + a)); cbn [bind]; auto.
  unfold detect_ieee1212_root_directory_block, detect_ieee1212_directory_entries.
  apply detect_entries_loop_extends.
  apply detect_ieee1212_directory_block_more_fuel.
Qed.

Lemma detect_ieee1212_leaf_block_keeps (o l k p : Z) (head head' : list_head) :
  detect_ieee1212_leaf_block data length o l k p head = Ok head' ->
  incl head head'.
Proof.
  unfold detect_ieee1212_leaf_block.
  destruct (block_exists head o); intros H; inversion H; subst.
  - apply incl_refl.
  - apply incl_insert.
Qed.

Lemma detect_entries_loop_keeps dd :
  keeps dd ->
  forall directory_offset parent count i head head',
    detect_entries_loop host dd data length directory_offset parent count i head
    = Ok head' ->
    incl head head'.
Proof.
  intros Hdd directory_offset parent count.
  induction count as [| count IH]; intros i head head'; cbn [detect_entries_loop].
  - intros H. inversion H. apply incl_refl.
  - destruct (decode_directory_entry _) as [[key_type kid] value].
    destruct ((key_type =? KEY_TYPE_LEAF) || (key_type =? KEY_TYPE_DIRECTORY)); eauto.
    destruct (_ >=? length); [discriminate |].
    destruct (detect_ieee1212_block_length host data length _); cbn [bind];
      try discriminate.
    destruct (key_type =? KEY_TYPE_LEAF).
    + destruct (detect_ieee1212_leaf_block _ _ _ _ _ _ _) eqn:Hleaf; cbn [bind];
        try discriminate.
      intros H. eapply incl_tran; [eapply detect_ieee1212_leaf_block_keeps | eapply IH]; eauto.
    + destruct (dd _ a kid parent head) eqn:Hd; cbn [bind]; try discriminate.
      intros H. eapply incl_tran; [eapply Hdd | eapply IH]; eauto.
Qed.

Lemma detect_ieee1212_directory_block_keeps (fuel : nat) :
  keeps (detect_ieee1212_directory_block host fuel data length).
Proof.
  induction fuel as [| fuel IH]; intros o l k p head head'.
  - discriminate.
  - cbn [detect_ieee1212_directory_block].
    destruct (block_exists head o).
    + intros H. inversion H. apply incl_refl.
    + unfold detect_ieee1212_directory_entries. intros H.
      eapply incl_tran; [apply incl_insert |].
      eapply detect_entries_loop_keeps; eauto.
Qed.

End Fuel.

(** * The analysis as a whole *)

Section Analysis.

Variable host : byte_order.
Variable data : list byte.
Variable length : Z.

Lemma tiles_stop (start stop : Z) (head : list_head) :
  tiles start head stop -> start <= stop.
Proof.
  revert start. induction head as [| b head IH]; intros start Ht; cbn in Ht.
  - lia.
  - destruct Ht as (_ & Hlen & Ht). apply IH in Ht. lia.
Qed.

Lemma tiles_consecutive (start stop : Z) (head : list_head) (i : nat)
    (b b' : ieee1212_block) :
  tiles start head stop ->
  nth_error head i = Some b ->
  nth_error head (S i) = Some b' ->
  blk_offset b < blk_offset b' /\ blk_offset b' = blk_offset b + blk_length b.
Proof.
  revert start i. induction head as [| c head IH]; intros start i Ht Hb Hb'.
  - destruct i; discriminate.
  - destruct Ht as (Hc & Hlen & Ht). destruct i as [| i].
    + cbn in Hb, Hb'. apply Some_inj in Hb. subst c.
      destruct head as [| c' head]; [discriminate |].
      cbn in Hb'. apply Some_inj in Hb'. subst c'.
      destruct Ht as (Hc' & _). lia.
    + cbn in Hb, Hb'. eapply IH; eauto.
Qed.

Lemma tiles_last (start stop : Z) (front : list_head) (last : ieee1212_block) :
  tiles start (front ++ [last]) stop ->
  blk_offset last + blk_length last = stop.
Proof.
  revert start. induction front as [| c front IH]; intros start Ht; cbn in Ht.
  - destruct Ht as (H1 & _ & H3). lia.
  - destruct Ht as (_ & _ & Ht). eapply IH; eauto.
Qed.

Lemma tiles_ascending (start stop : Z) (head : list_head) :
  tiles start head stop -> ascending head.
Proof.
  revert start. induction head as [| b head IH]; intros start Ht; cbn.
  - exact I.
  - destruct Ht as (Hb & Hlen & Ht). split; [| eauto].
    destruct head as [| c head]; [exact I |].
    destruct Ht as (Hc & _). lia.
Qed.

Lemma Forall2_same_block_in_l (xs ys : list_head) (x : ieee1212_block) :
  Forall2 same_block xs ys -> In x xs -> exists y, In y ys /\ same_block x y.
Proof.
  induction 1 as [| x' y' xs ys Hxy _ IH]; intros Hin.
  - destruct Hin.
  - destruct Hin as [<- | Hin].
    + exists y'. cbn. auto.
    + destruct (IH Hin) as (y & Hy & Hs). exists y. cbn. auto.
Qed.

Lemma Forall2_same_block_in_r (xs ys : list_head) (y : ieee1212_block) :
  Forall2 same_block xs ys -> In y ys -> exists x, In x xs /\ same_block x y.
Proof.
  induction 1 as [| x' y' xs ys Hxy _ IH]; intros Hin.
  - destruct Hin.
  - destruct Hin as [<- | Hin].
    + exists x'. cbn. auto.
    + destruct (IH Hin) as (x & Hx & Hs). exists x. cbn. auto.
Qed.

(** What normalisation and the orphan blocks make of a discovered list. *)
Lemma analysis_of_discovered (head : list_head) :
  discovered host data length head ->
  exists final,
    fulfill_orphan_blocks data length (normalize_blocks head length) = Ok final
    /\ tiles 0 final length
    /\ final <> []
    /\ (forall x, In x final ->
                  (exists y, In y head /\ same_block x y)
                  \/ block_type x = ORPHAN_BLOCK /\ blk_data x = None)
    /\ (forall y, In y head -> exists x, In x final /\ same_block x y).
Proof.
  intros Hd. pose proof Hd as [Hfirst Hasc Hplaced _].
  destruct (fulfill_orphan_blocks_packed length data (normalize_blocks head length))
    as (final & Hrun & Htiles & Hincl & Horph).
  - apply normalize_blocks_packed; auto.
  - rewrite normalize_blocks_next. destruct Hfirst as (b & rest & -> & Hb). exact Hb.
  - exists final. split; [exact Hrun |]. split; [exact Htiles |].
    pose proof (normalize_blocks_same length head) as Hsame.
    split; [| split].
    + destruct Hfirst as (b & rest & -> & _).
      destruct (Forall2_same_block_in_r _ _ b Hsame (or_introl eq_refl))
        as (x & Hx & _).
      intros ->. exact (Hincl x Hx).
    + intros x Hx. destruct (Horph x Hx) as [Hin | Ho]; auto.
      left. eapply Forall2_same_block_in_l; eauto.
    + intros y Hy.
      destruct (Forall2_same_block_in_r _ _ y Hsame Hy) as (x & Hx & Hs).
      exists x. auto.
Qed.

Lemma analyse_blocks_inv (final : list_head) :
  analyse_blocks host data length = Ok final ->
  exists head,
    detect_ieee1212_blocks host (Z.to_nat (length / 4)) data length [] = Ok head
    /\ fulfill_orphan_blocks data length (normalize_blocks head length) = Ok final.
Proof.
  unfold analyse_blocks.
  destruct (detect_ieee1212_blocks host (Z.to_nat (length / 4)) data length [])
    as [head | e |]; cbn [bind]; try discriminate.
  intros H. exists head. auto.
Qed.

(** The analysis returns: a block list or an error code. *)
Lemma analyse_blocks_returns :
  analyse_blocks host data length <> OutOfFuel.
Proof.
  unfold analyse_blocks.
  destruct (detect_ieee1212_blocks_spec host data length (Z.to_nat (length / 4)))
    as [Hd Hfuel].
  destruct (detect_ieee1212_blocks host (Z.to_nat (length / 4)) data length [])
    as [head | e |]; cbn [bind].
  - destruct (analysis_of_discovered head (Hd head eq_refl)) as (final & -> & _).
    discriminate.
  - discriminate.
  - exfalso. apply Hfuel; auto.
Qed.

End Analysis.

(** * Tiling *)

(** C1.  When discovery, normalisation and the orphan blocks succeed on a
    buffer of [length] bytes, the block list starts with a block at offset
    0, every block starts where its predecessor ends (so the offsets
    ascend strictly), and the last block ends at [length]. *)
Theorem analysis_tiles_buffer (host : byte_order) (data : list byte)
    (length : Z) (final : list_head) :
  analyse_blocks host data length = Ok final ->
  (exists first rest, final = first :: rest /\ blk_offset first = 0)
  /\ (forall i b b',
         nth_error final i = Some b ->
         nth_error final (S i) = Some b' ->
         blk_offset b < blk_offset b'
         /\ blk_offset b' = blk_offset b + blk_length b)
  /\ (exists front last,
         final = front ++ [last]
         /\ blk_offset last + blk_length last = length).
Proof.
  intros Hrun. apply analyse_blocks_inv in Hrun.
  destruct Hrun as (head & Hdetect & Hfill).
  destruct (detect_ieee1212_blocks_spec host data length (Z.to_nat (length / 4)))
    as [Hd _].
  destruct (analysis_of_discovered host data length head (Hd head Hdetect))
    as (final' & Hfill' & Htiles & Hne & _).
  rewrite Hfill in Hfill'. apply Ok_inj in Hfill'. subst final'.
  split; [| split].
  - destruct final as [| first rest]; [congruence |].
    exists first, rest. split; auto. apply Htiles.
  - intros i b b' Hb Hb'. eapply tiles_consecutive; eauto.
  - destruct (exists_last Hne) as (front & last & ->).
    exists front, last. split; auto. eapply tiles_last; eauto.
Qed.

Lemma analysis_tiles_buffer_sample :
  analyse_blocks LittleEndian (image LittleEndian sample_rom) 68 = Ok sample_blocks
  /\ (forall i b b',
         nth_error sample_blocks i = Some b ->
         nth_error sample_blocks (S i) = Some b' ->
         blk_offset b < blk_offset b'
         /\ blk_offset b' = blk_offset b + blk_length b).
Proof.
  split.
  - vm_compute. reflexivity.
  - apply (analysis_tiles_buffer LittleEndian (image LittleEndian sample_rom) 68
             sample_blocks).
    vm_compute. reflexivity.
Defined.

(** * Termination of discovery *)

(** C10.  Discovery returns on every buffer when the recursion through
    directories may be as deep as the buffer has quadlets, and more depth
    changes nothing; a leaf or directory whose offset is in the block list
    is skipped, the list being returned as it is, so that no offset is in
    the list twice. *)
Theorem discovery_terminates (host : byte_order) (data : list byte)
    (length : Z) :
  detect_ieee1212_blocks host (Z.to_nat (length / 4)) data length [] <> OutOfFuel
  /\ (forall fuel,
         (Z.to_nat (length / 4) <= fuel)%nat ->
         detect_ieee1212_blocks host fuel data length []
         = detect_ieee1212_blocks host (Z.to_nat (length / 4)) data length [])
  /\ (forall fuel o l k p head,
         block_exists head o = true ->
         detect_ieee1212_directory_block host (S fuel) data length o l k p head
         = Ok head)
  /\ (forall o l k p head,
         block_exists head o = true ->
         detect_ieee1212_leaf_block data length o l k p head = Ok head)
  /\ (forall fuel head,
         detect_ieee1212_blocks host fuel data length [] = Ok head ->
         NoDup (map blk_offset head)).
Proof.
  destruct (detect_ieee1212_blocks_spec host data length (Z.to_nat (length / 4)))
    as [_ Hfuel].
  split; [auto |]. split; [| split; [| split]].
  - intros fuel Hle. apply detect_ieee1212_blocks_more_fuel; auto.
  - intros fuel o l k p head Hex. cbn [detect_ieee1212_directory_block].
    now rewrite Hex.
  - intros o l k p head Hex. unfold detect_ieee1212_leaf_block. now rewrite Hex.
  - intros fuel head Hrun.
    destruct (detect_ieee1212_blocks_spec host data length fuel) as [Hd _].
    apply ascending_NoDup. apply (Hd head Hrun).
Qed.

(** * Uniqueness of blocks *)

Lemma insert_new_block (head : list_head) (entry : ieee1212_block) :
  In entry (insert_block_by_offset head entry).
Proof. apply in_insert_block_by_offset. now left. Qed.

(** * The length of the bus information block *)

(** The length the analyser takes for the bus information block: the
    length byte counts modulo 64. *)
Lemma bus_info_block_length_formula (host : byte_order) (data : list byte)
    (length offset block_length : Z) :
  detect_ieee1212_bus_info_block_length host data length offset = Ok block_length ->
  block_length = 4 + 4 * (bus_info_length_field (load32 host data 0) mod 64).
Proof.
  intros H. apply detect_ieee1212_bus_info_block_length_ok in H. apply H.
Qed.

(** C3.  With the length byte [0x40] the claimed length is
    [4 + 4 * 0x40 = 260] bytes, which is past the end of a buffer of 8
    bytes; the analyser takes 4 bytes, and discovery succeeds. *)
Theorem bus_info_length_byte_wraps (host : byte_order) :
  let data := image host long_bus_info_rom in
  Z.land (Z.shiftr (load32 host data 0) 24) 0xFF = 0x40
  /\ detect_ieee1212_bus_info_block_length host data 8 0 = Ok 4
  /\ detect_ieee1212_blocks host 2 data 8 []
     = Ok [ {| blk_offset := 0; blk_length := 4;
               block_type := IEEE1212_BUS_INFO_BLOCK; blk_data := None |};
            {| blk_offset := 4; blk_length := 4;
               block_type := IEEE1212_ROOT_DIRECTORY_BLOCK; blk_data := None |} ].
Proof.
  destruct host; vm_compute; auto.
Qed.

(** * Byte order *)

(** The detector compares the second quadlet with [0x1394]. *)
Lemma bus_info_block_is_big_endian_spec (host : byte_order) (data : list byte)
    (length : Z) :
  bus_info_block_is_big_endian host data length 0 = (load32 host data 4 =? 0x1394).
Proof. reflexivity. Qed.

(** C2.  A buffer whose second quadlet, read in native order, is
    [0x31333934] is not taken as big-endian and is left as it is: the
    detector compares the quadlet with [0x1394]. *)
Theorem bus_name_quadlet_is_not_detected (host : byte_order)
    (data : list byte) (length : Z) :
  load32 host data 4 = 0x31333934 ->
  bus_info_block_is_big_endian host data length 0 = false
  /\ host_order_data host data length = data.
Proof.
  intros Hq. unfold host_order_data.
  rewrite bus_info_block_is_big_endian_spec, Hq. split; reflexivity.
Qed.

Lemma bus_name_quadlet_is_not_detected_sample :
  load32 LittleEndian (image LittleEndian sample_rom) 4 = 0x31333934
  /\ host_order_data LittleEndian (image LittleEndian sample_rom) 68
     = image LittleEndian sample_rom
  /\ convert_quadlets LittleEndian (image LittleEndian sample_rom) 68
     <> image LittleEndian sample_rom.
Proof.
  split; [vm_compute; reflexivity |]. split.
  - apply (bus_name_quadlet_is_not_detected LittleEndian
             (image LittleEndian sample_rom) 68).
    vm_compute. reflexivity.
  - vm_compute. discriminate.
Defined.

(** The quadlets are converted exactly when the second one is [0x1394]. *)
Lemma host_order_data_spec (host : byte_order) (data : list byte) (length : Z) :
  host_order_data host data length
  = if load32 host data 4 =? 0x1394 then convert_quadlets host data length
    else data.
Proof. reflexivity. Qed.

(** * Fatal input *)

(** C7, as the program behaves.  On a terminal the program writes the
    diagnostic to the standard error stream; on an empty input, or when
    [read] fails, it writes nothing at all.  In both cases the standard
    output stays empty and the exit status is [EXIT_FAILURE]. *)
Theorem terminal_or_empty_input_is_fatal (host : byte_order) (isatty : bool)
    (stack : list byte) (input : read_result) :
  isatty = true \/ input = ReadBytes [] \/ input = ReadError ->
  main host isatty stack input
  = Some {| stdout := [];
            stderr := if isatty then [terminal_diagnostic] else [];
            exit_status := EXIT_FAILURE |}
  /\ EXIT_FAILURE <> 0.
Proof.
  intros H. split; [| discriminate].
  unfold main. destruct isatty; [reflexivity |].
  destruct H as [H | [-> | ->]]; [discriminate | reflexivity | reflexivity].
Qed.

Lemma terminal_or_empty_input_is_fatal_sample :
  main LittleEndian true [] (ReadBytes (image LittleEndian sample_rom))
  = Some {| stdout := []; stderr := [terminal_diagnostic];
            exit_status := EXIT_FAILURE |}
  /\ EXIT_FAILURE <> 0.
Proof.
  apply (terminal_or_empty_input_is_fatal LittleEndian true []
           (ReadBytes (image LittleEndian sample_rom))).
  left. reflexivity.
Defined.

(** C7, as stated, fails on an empty input: nothing is written to the
    standard error stream. *)
Lemma empty_input_prints_no_diagnostic :
  exists o,
    main LittleEndian false [] (ReadBytes []) = Some o
    /\ stderr o = [] /\ stdout o = [] /\ exit_status o = EXIT_FAILURE.
Proof.
  eexists. split; [reflexivity |]. repeat split.
Qed.

(** * Strings *)

Lemma prefix_append (a b : string) : String.prefix a (a +++ b) = true.
Proof.
  induction a as [| c a IH]; cbn.
  - destruct b; reflexivity.
  - destruct (ascii_dec c c); [exact IH | congruence].
Qed.

Lemma contains_prefix (needle s : string) :
  String.prefix needle s = true -> contains needle s = true.
Proof. intros H. destruct s; cbn [contains]; rewrite H; reflexivity. Qed.

Lemma contains_append_r (needle a b : string) :
  contains needle b = true -> contains needle (a +++ b) = true.
Proof.
  intros H. induction a as [| c a IH]; cbn [String.append contains].
  - exact H.
  - rewrite IH. apply orb_true_r.
Qed.

Lemma prefix_append_l (needle a b : string) :
  String.prefix needle a = true -> String.prefix needle (a +++ b) = true.
Proof.
  revert a. induction needle as [| c needle IH]; intros a H.
  - destruct (a +++ b); reflexivity.
  - destruct a as [| c' a]; cbn in *; [discriminate |].
    destruct (ascii_dec c c'); [auto | discriminate].
Qed.

Lemma contains_append_l (needle a b : string) :
  contains needle a = true -> contains needle (a +++ b) = true.
Proof.
  induction a as [| c a IH]; cbn [String.append contains]; intros H.
  - rewrite orb_false_r in H. apply contains_prefix.
    apply (prefix_append_l needle EmptyString b H).
  - apply orb_true_iff in H. destruct H as [H | H].
    + pose proof (prefix_append_l needle (String c a) b H) as Hp.
      cbn [String.append] in Hp. rewrite Hp. reflexivity.
    + rewrite (IH H). apply orb_true_r.
Qed.

Lemma occurs_append (c : ascii) (a b : string) :
  occurs c (a +++ b) = occurs c a || occurs c b.
Proof.
  induction a as [| x a IH]; cbn [String.append occurs].
  - reflexivity.
  - rewrite IH. apply orb_assoc.
Qed.

Lemma prefix_occurs (c : ascii) (needle s : string) :
  String.prefix needle s = true -> occurs c needle = true -> occurs c s = true.
Proof.
  revert s. induction needle as [| x needle IH]; intros s Hp Ho.
  - discriminate.
  - destruct s as [| y s]; cbn in Hp; [discriminate |].
    destruct (ascii_dec x y) as [<- | _]; [| discriminate].
    cbn [occurs] in *. apply orb_true_iff in Ho. apply orb_true_iff.
    destruct Ho as [Ho | Ho]; eauto.
Qed.

Lemma contains_occurs (c : ascii) (needle s : string) :
  occurs c needle = true -> occurs c s = false -> contains needle s = false.
Proof.
  intros Hn. induction s as [| y s IH]; cbn [contains]; intros Hs.
  - rewrite orb_false_r. destruct (String.prefix needle EmptyString) eqn:Hp; auto.
    pose proof (prefix_occurs c _ _ Hp Hn). discriminate.
  - destruct (String.prefix needle (String y s)) eqn:Hp.
    + pose proof (prefix_occurs c _ _ Hp Hn) as Ho. congruence.
    + cbn [occurs] in Hs. apply orb_false_iff in Hs. destruct Hs as [_ Hs].
      rewrite (IH Hs). reflexivity.
Qed.

(** * Digits *)

Lemma occurs_digits_of (base : Z) (c : ascii) :
  0 < base ->
  (forall d, 0 <= d < base -> digit_char d <> c) ->
  forall fuel n acc,
    occurs c acc = false -> occurs c (digits_of base fuel n acc) = false.
Proof.
  intros Hbase Hdigit. induction fuel as [| fuel IH]; intros n acc Hacc.
  - exact Hacc.
  - cbn [digits_of].
    assert (Hacc' : occurs c (String (digit_char (n mod base)) acc) = false).
    { cbn [occurs]. rewrite Hacc, orb_false_r. apply Ascii.eqb_neq.
      apply Hdigit. apply Z.mod_pos_bound. exact Hbase. }
    destruct (n / base =? 0); auto.
Qed.

Lemma decimal_digit_is_not_s (d : Z) : 0 <= d < 10 -> digit_char d <> "s"%char.
Proof.
  intros Hd.
  assert (H : d = 0 \/ d = 1 \/ d = 2 \/ d = 3 \/ d = 4 \/ d = 5 \/ d = 6
              \/ d = 7 \/ d = 8 \/ d = 9) by lia.
  repeat (destruct H as [-> | H]; [vm_compute; discriminate |]).
  subst d. vm_compute. discriminate.
Qed.

Lemma hex_digit_is_not_s (d : Z) : 0 <= d < 16 -> digit_char d <> "s"%char.
Proof.
  intros Hd.
  assert (H : d = 0 \/ d = 1 \/ d = 2 \/ d = 3 \/ d = 4 \/ d = 5 \/ d = 6
              \/ d = 7 \/ d = 8 \/ d = 9 \/ d = 10 \/ d = 11 \/ d = 12
              \/ d = 13 \/ d = 14 \/ d = 15) by lia.
  repeat (destruct H as [-> | H]; [vm_compute; discriminate |]).
  subst d. vm_compute. discriminate.
Qed.

Lemma occurs_dec (n : Z) : occurs "s" (dec n) = false.
Proof.
  apply occurs_digits_of; auto using decimal_digit_is_not_s. lia.
Qed.

Lemma occurs_hex (n : Z) : occurs "s" (hex n) = false.
Proof.
  apply occurs_digits_of; auto using hex_digit_is_not_s. lia.
Qed.

Lemma occurs_fill (c x : ascii) (n : nat) :
  x <> c -> occurs c (fill x n) = false.
Proof.
  intros Hx. induction n as [| n IH]; cbn [fill occurs]; auto.
  rewrite IH, orb_false_r. now apply Ascii.eqb_neq.
Qed.

Lemma occurs_format_line_prefix (offset quadlet : Z) (add_delimiter : bool) :
  occurs "s" (format_line_prefix offset quadlet add_delimiter) = false.
Proof.
  unfold format_line_prefix, hex_blank, hex_zero, pad_left.
  rewrite !occurs_append, !occurs_hex.
  rewrite !occurs_fill by discriminate.
  destruct add_delimiter; reflexivity.
Qed.

(** * The CRC *)

Lemma fold_left_step {A B : Type} (f : A -> B -> A) (x : B) (l : list B) (a : A) :
  fold_left f (x :: l) a = fold_left f l (f a x).
Proof. reflexivity. Qed.

Lemma crc_step_range (crc q shift : Z) : 0 <= crc_step crc q shift < 2 ^ 16.
Proof.
  unfold crc_step. change 0x0000ffff with (Z.ones 16).
  rewrite Z.land_ones by lia. apply Z.mod_pos_bound. lia.
Qed.

Lemma crc_step_spec (crc q shift : Z) :
  0 <= crc < 2 ^ 16 -> crc_step crc q shift = crc16_step crc q shift.
Proof.
  intros Hc. unfold crc_step, crc16_step, wrap32.
  rewrite Z.shiftl_mul_pow2 by lia.
  rewrite (Z.mod_small (crc * 2 ^ 4)) by lia. reflexivity.
Qed.

Lemma crc_shifts_spec (q : Z) (shifts : list Z) (crc : Z) :
  0 <= crc < 2 ^ 16 ->
  fold_left (fun crc shift => crc_step crc q shift) shifts crc
  = fold_left (fun crc shift => crc16_step crc q shift) shifts crc
  /\ 0 <= fold_left (fun crc shift => crc_step crc q shift) shifts crc < 2 ^ 16.
Proof.
  revert crc. induction shifts as [| shift shifts IH]; intros crc Hc.
  - auto.
  - rewrite !fold_left_step.
    rewrite <- crc_step_spec by exact Hc. apply IH. apply crc_step_range.
Qed.

Lemma crc_quadlet_spec (crc q : Z) :
  0 <= crc < 2 ^ 16 ->
  crc_quadlet crc q = crc16_quadlet crc q /\ 0 <= crc_quadlet crc q < 2 ^ 16.
Proof.
  intros Hc. unfold crc_quadlet, crc16_quadlet.
  exact (crc_shifts_spec q [28; 24; 20; 16; 12; 8; 4; 0] crc Hc).
Qed.

(** The step of [crc_loop].  The equation is stated between functions of
    the running value, which is how it is checked without comparing two
    running values. *)
Lemma crc_loop_S_fun (quadlet : Z -> Z) (count : nat) (i : Z) :
  crc_loop quadlet (S count) i
  = fun crc => crc_loop quadlet count (i + 1) (crc_quadlet crc (quadlet i)).
Proof. lazy beta iota delta [crc_loop]. reflexivity. Qed.

Lemma crc_loop_S (quadlet : Z -> Z) (count : nat) (i crc : Z) :
  crc_loop quadlet (S count) i crc
  = crc_loop quadlet count (i + 1) (crc_quadlet crc (quadlet i)).
Proof. rewrite crc_loop_S_fun. reflexivity. Qed.

Lemma crc_loop_fold (quadlet : Z -> Z) (count : nat) :
  forall i crc,
    crc_loop quadlet count i crc
    = fold_left crc_quadlet
        (map (fun k => quadlet (i + Z.of_nat k)) (seq 0 count)) crc.
Proof.
  induction count as [| count IH]; intros i crc.
  - reflexivity.
  - rewrite crc_loop_S, IH. rewrite <- cons_seq, <- seq_shift, map_cons, map_map.
    rewrite fold_left_step. replace (i + Z.of_nat 0) with i by lia.
    f_equal. apply map_ext. intros k. f_equal. lia.
Qed.

Lemma fold_crc_quadlet_spec (quadlets : list Z) :
  forall crc,
    0 <= crc < 2 ^ 16 ->
    fold_left crc_quadlet quadlets crc = fold_left crc16_quadlet quadlets crc
    /\ 0 <= fold_left crc_quadlet quadlets crc < 2 ^ 16.
Proof.
  induction quadlets as [| q quadlets IH]; intros crc Hc.
  - auto.
  - rewrite !fold_left_step.
    destruct (crc_quadlet_spec crc q Hc) as [Heq Hrange].
    rewrite <- Heq. apply IH, Hrange.
Qed.

Lemma crc_loop_spec (quadlet : Z -> Z) (count : nat) (i crc : Z) :
  0 <= crc < 2 ^ 16 ->
  crc_loop quadlet count i crc
  = fold_left crc16_quadlet
      (map (fun k => quadlet (i + Z.of_nat k)) (seq 0 count)) crc.
Proof.
  intros Hc. rewrite crc_loop_fold. apply fold_crc_quadlet_spec, Hc.
Qed.

(** The CRC of the source is the CRC of the specification. *)
Lemma compute_itu_t_crc_16_spec (quadlet : Z -> Z) (quadlet_count : Z) :
  compute_itu_t_crc_16 quadlet quadlet_count
  = crc16 (map (fun k => quadlet (Z.of_nat k)) (seq 0 (Z.to_nat quadlet_count))).
Proof.
  unfold compute_itu_t_crc_16, crc16. rewrite crc_loop_spec by lia.
  f_equal.
Qed.

Lemma block_crc_spec (host : byte_order) (data : list byte)
    (block : ieee1212_block) (quadlet_count : Z) :
  compute_itu_t_crc_16 (fun i => block_quadlet host data block (i + 1))
    (quadlet_count - 1)
  = crc16 (block_quadlets host data block 1 (Z.to_nat (quadlet_count - 1))).
Proof.
  rewrite compute_itu_t_crc_16_spec. unfold block_quadlets. f_equal.
  apply map_ext. intros k. f_equal. lia.
Qed.

(** * The annotation of the CRC *)

Lemma should_be_in_metadata (block_name : string) (quadlet : Z -> Z)
    (quadlet_count : Z) :
  occurs "s" block_name = false ->
  (contains "(should be " (format_block_metadata block_name quadlet quadlet_count)
   = true
   <-> Z.land (quadlet 0) 0xFFFF
       <> compute_itu_t_crc_16 (fun i => quadlet (i + 1)) (quadlet_count - 1)).
Proof.
  intros Hname. unfold format_block_metadata, IEEE1212_BLOCK_CRC_SHIFT.
  rewrite Z.shiftr_0_r. unfold IEEE1212_BLOCK_CRC_MASK.
  set (crc := Z.land (quadlet 0) 0xffff).
  set (actual := compute_itu_t_crc_16 _ _).
  destruct (crc =? actual) eqn:Hcmp; cbn [negb].
  - apply Z.eqb_eq in Hcmp. split; [| congruence].
    intros Hc. exfalso.
    rewrite (contains_occurs "s") in Hc; [discriminate | reflexivity |].
    rewrite !occurs_append, Hname, !occurs_dec.
    destruct (negb _); [rewrite !occurs_append, occurs_dec |]; reflexivity.
  - apply Z.eqb_neq in Hcmp. split; [auto | intros _].
    do 6 apply contains_append_r.
    change (" (should be " +++ dec actual +++ ")")
      with (" " +++ ("(should be " +++ dec actual +++ ")")).
    apply contains_append_r, contains_prefix, prefix_append.
Qed.

(** * Further properties of the analysis *)

(** X1.  [insert_block_by_offset] adds the new descriptor and nothing else,
    and it never links it before the first descriptor of the list. *)
Theorem insert_block_by_offset_adds_one (head : list_head)
    (entry : ieee1212_block) :
  (forall x, In x (insert_block_by_offset head entry) <-> x = entry \/ In x head)
  /\ List.length (insert_block_by_offset head entry) = S (List.length head)
  /\ (forall first rest,
         head = first :: rest ->
         hd_error (insert_block_by_offset head entry) = Some first).
Proof.
  split; [| split].
  - intros x. apply in_insert_block_by_offset.
  - apply length_insert_block_by_offset.
  - intros first rest ->. cbn [insert_block_by_offset].
    destruct (hd_insert_after_cursor first rest entry) as [rest' ->]. reflexivity.
Qed.

(** X2.  In a list whose offsets ascend, a descriptor with a new offset
    above the first one is linked where the order is kept. *)
Theorem insert_block_by_offset_keeps_order (first : ieee1212_block)
    (rest : list_head) (entry : ieee1212_block) :
  ascending (first :: rest) ->
  blk_offset first < blk_offset entry ->
  block_exists (first :: rest) (blk_offset entry) = false ->
  ascending (insert_block_by_offset (first :: rest) entry)
  /\ NoDup (map blk_offset (insert_block_by_offset (first :: rest) entry)).
Proof.
  intros Hasc Hlt Hfresh. rewrite block_exists_false in Hfresh.
  assert (H : ascending (insert_block_by_offset (first :: rest) entry)).
  { cbn [insert_block_by_offset]. apply ascending_insert_after_cursor; auto.
    intros b Hb. apply Hfresh. now right. }
  split; [exact H | apply ascending_NoDup, H].
Qed.

Lemma insert_block_by_offset_keeps_order_sample :
  ascending
    (insert_block_by_offset sample_discovered
       {| blk_offset := 64; blk_length := 4; block_type := ORPHAN_BLOCK;
          blk_data := None |})
  /\ NoDup
       (map blk_offset
          (insert_block_by_offset sample_discovered
             {| blk_offset := 64; blk_length := 4; block_type := ORPHAN_BLOCK;
                blk_data := None |})).
Proof.
  apply (insert_block_by_offset_keeps_order
           {| blk_offset := 0; blk_length := 20;
              block_type := IEEE1212_BUS_INFO_BLOCK; blk_data := None |}).
  - cbn. repeat split; lia.
  - cbn. lia.
  - vm_compute. reflexivity.
Defined.

(** X3.  The two length detectors, case by case, for a buffer length and
    an offset that are not negative and below [2^31], where neither the
    conversion of [length] to [size_t] nor the sum wraps: the length is four
    bytes for the header and four for each quadlet the length field counts,
    the field of the bus information block counting modulo 64 and the field
    of any other block modulo 16384; the detector fails with [-EINVAL]
    exactly when the block so measured ends past the buffer. *)
Theorem block_length_detectors (host : byte_order) (data : list byte)
    (length offset : Z) :
  0 <= length < 2 ^ 31 ->
  0 <= offset < 2 ^ 31 ->
  let bus := 4 + 4 * (bus_info_length_field (load32 host data 0) mod 64) in
  let block := 4 + 4 * (block_length_field (load32 host data offset) mod 16384) in
  detect_ieee1212_bus_info_block_length host data length offset
  = (if offset + bus >? length then Err (- EINVAL) else Ok bus)
  /\ detect_ieee1212_block_length host data length offset
     = (if offset + block >? length then Err (- EINVAL) else Ok block)
  /\ 4 <= bus <= 256 /\ 4 <= block <= 65536.
Proof.
  intros _ _. cbv zeta.
  unfold detect_ieee1212_bus_info_block_length, detect_ieee1212_block_length.
  rewrite bus_info_scaled_length, block_scaled_length.
  pose proof (Z.mod_pos_bound (bus_info_length_field (load32 host data 0)) 64
                ltac:(lia)).
  pose proof (Z.mod_pos_bound (block_length_field (load32 host data offset))
                16384 ltac:(lia)).
  repeat split; lia.
Qed.

Lemma block_length_detectors_sample :
  let data := image LittleEndian sample_rom in
  let bus := 4 + 4 * (bus_info_length_field (load32 LittleEndian data 0) mod 64) in
  let block := 4 + 4 * (block_length_field (load32 LittleEndian data 20) mod 16384) in
  detect_ieee1212_bus_info_block_length LittleEndian data 68 20
  = (if 20 + bus >? 68 then Err (- EINVAL) else Ok bus)
  /\ detect_ieee1212_block_length LittleEndian data 68 20
     = (if 20 + block >? 68 then Err (- EINVAL) else Ok block)
  /\ 4 <= bus <= 256 /\ 4 <= block <= 65536.
Proof.
  apply (block_length_detectors LittleEndian (image LittleEndian sample_rom) 68 20);
    lia.
Defined.

(** X4.  A directory entry decodes into a key type below 4, a key id below
    64 and a value below [2^24], and a quadlet of 32 bits is made of the
    three. *)
Theorem decode_directory_entry_fields (quadlet : Z) :
  let '(key_type, key_id, value) := decode_directory_entry quadlet in
  0 <= key_type < 4 /\ 0 <= key_id < 64 /\ 0 <= value < 2 ^ 24
  /\ (0 <= quadlet < 2 ^ 32 ->
      quadlet = key_type * 2 ^ 30 + key_id * 2 ^ 24 + value).
Proof.
  unfold decode_directory_entry.
  change DIRECTORY_ENTRY_KEY_TYPE_MASK with (Z.shiftl 3 30).
  change DIRECTORY_ENTRY_KEY_ID_MASK with (Z.shiftl 63 24).
  change DIRECTORY_ENTRY_VALUE_MASK with (Z.shiftl (Z.ones 24) 0).
  unfold DIRECTORY_ENTRY_KEY_TYPE_SHIFT, DIRECTORY_ENTRY_KEY_ID_SHIFT,
    DIRECTORY_ENTRY_VALUE_SHIFT.
  rewrite !land_shifted_mask by lia.
  rewrite !Z.shiftr_shiftl_l by lia. cbn [Z.sub Z.opp Z.add Z.pos_sub].
  rewrite !Z.shiftl_0_r, Z.shiftr_0_r.
  change 3 with (Z.ones 2). change 63 with (Z.ones 6).
  rewrite !Z.land_ones by lia. rewrite !Z.shiftr_div_pow2 by lia.
  pose proof (Z.mod_pos_bound (quadlet / 2 ^ 30) (2 ^ 2) ltac:(lia)).
  pose proof (Z.mod_pos_bound (quadlet / 2 ^ 24) (2 ^ 6) ltac:(lia)).
  pose proof (Z.mod_pos_bound quadlet (2 ^ 24) ltac:(lia)).
  repeat split; try lia.
  intros Hq.
  assert (H30 : quadlet / 2 ^ 30 = quadlet / 2 ^ 24 / 2 ^ 6).
  { rewrite Z.div_div by lia. reflexivity. }
  assert (Hsmall : 0 <= quadlet / 2 ^ 30 < 2 ^ 2).
  { split; [apply Z.div_pos; lia | apply Z.div_lt_upper_bound; lia]. }
  rewrite (Z.mod_small (quadlet / 2 ^ 30)) by exact Hsmall.
  pose proof (Z.div_mod quadlet (2 ^ 24) ltac:(lia)).
  pose proof (Z.div_mod (quadlet / 2 ^ 24) (2 ^ 6) ltac:(lia)).
  rewrite H30. lia.
Qed.

(** ** Errors of the analysis *)

Section Errors.

Variable host : byte_order.
Variable data : list byte.
Variable length : Z.

Lemma detect_ieee1212_block_length_error (offset e : Z) :
  detect_ieee1212_block_length host data length offset = Err e -> e = - EINVAL.
Proof.
  unfold detect_ieee1212_block_length.
  destruct (_ >? length); [| discriminate].
  intros H. injection H. auto.
Qed.

Lemma detect_entries_loop_error
    (dd : Z -> Z -> Z -> Z -> list_head -> result list_head) :
  (forall o l k p head e, dd o l k p head = Err e -> analysis_error e) ->
  forall directory_offset parent count i head e,
    detect_entries_loop host dd data length directory_offset parent count i head
    = Err e ->
    analysis_error e.
Proof.
  intros Hdd directory_offset parent count.
  induction count as [| count IH]; intros i head e; cbn [detect_entries_loop].
  - discriminate.
  - destruct (decode_directory_entry _) as [[key_type kid] value].
    destruct ((key_type =? KEY_TYPE_LEAF) || (key_type =? KEY_TYPE_DIRECTORY));
      [| apply IH].
    destruct (_ >=? length).
    { intros H. injection H as <-. right. reflexivity. }
    destruct (detect_ieee1212_block_length host data length _) eqn:Hlen;
      cbn [bind]; try discriminate.
    2:{ intros H. injection H as <-. left.
        eapply detect_ieee1212_block_length_error; eauto. }
    destruct (key_type =? KEY_TYPE_LEAF).
    + destruct (detect_ieee1212_leaf_block _ _ _ _ _ _ _) eqn:Hleaf; cbn [bind];
        try discriminate; [apply IH |].
      unfold detect_ieee1212_leaf_block in Hleaf.
      destruct (block_exists head _); discriminate.
    + destruct (dd _ a kid parent head) eqn:Hd; cbn [bind]; try discriminate;
        [apply IH |].
      intros H. injection H as <-. eapply Hdd; eauto.
Qed.

Lemma detect_ieee1212_directory_block_error (fuel : nat) :
  forall o l k p head e,
    detect_ieee1212_directory_block host fuel data length o l k p head = Err e ->
    analysis_error e.
Proof.
  induction fuel as [| fuel IH]; intros o l k p head e.
  - discriminate.
  - cbn [detect_ieee1212_directory_block].
    destruct (block_exists head o); [discriminate |].
    unfold detect_ieee1212_directory_entries.
    apply detect_entries_loop_error. exact IH.
Qed.

Lemma detect_ieee1212_blocks_error (fuel : nat) (head : list_head) (e : Z) :
  detect_ieee1212_blocks host fuel data length head = Err e -> analysis_error e.
Proof.
  unfold detect_ieee1212_blocks.
  destruct (detect_ieee1212_bus_info_block_length host data length 0) eqn:Hbus;
    cbn [bind]; try discriminate.
  2:{ intros H. injection H as <-. left.
      unfold detect_ieee1212_bus_info_block_length in Hbus.
      destruct (_ >? length); [| discriminate]. injection Hbus. auto. }
  unfold detect_ieee1212_bus_info_block; cbn [bind].
  destruct (detect_ieee1212_block_length host data length (0 + a)) eqn:Hroot;
    cbn [bind]; try discriminate.
  2:{ intros H. injection H as <-. left.
      eapply detect_ieee1212_block_length_error; eauto. }
  unfold detect_ieee1212_root_directory_block, detect_ieee1212_directory_entries.
  apply detect_entries_loop_error. apply detect_ieee1212_directory_block_error.
Qed.

Lemma fulfill_loop_no_error (fuel : nat) :
  forall i head e, fulfill_loop fuel length i head <> Err e.
Proof.
  induction fuel as [| fuel IH]; intros i head e; cbn [fulfill_loop].
  - discriminate.
  - destruct (nth_error head i); [| discriminate].
    destruct (_ >=? _); apply IH.
Qed.

(** A buffer of less than eight bytes has no room for the two headers. *)
Lemma detect_ieee1212_blocks_short (fuel : nat) (head : list_head) :
  length < 8 ->
  detect_ieee1212_blocks host fuel data length head = Err (- EINVAL).
Proof.
  intros Hshort.
  unfold detect_ieee1212_blocks, detect_ieee1212_bus_info_block_length.
  rewrite bus_info_scaled_length.
  pose proof (Z.mod_pos_bound (bus_info_length_field (load32 host data 0)) 64
                ltac:(lia)).
  destruct (_ >? length) eqn:Hcmp; cbn [bind]; [reflexivity |].
  unfold detect_ieee1212_bus_info_block; cbn [bind].
  unfold detect_ieee1212_block_length. rewrite block_scaled_length.
  set (field := block_length_field _).
  pose proof (Z.mod_pos_bound field 16384 ltac:(lia)).
  replace (_ >? length) with true; [reflexivity |].
  symmetry. rewrite Z.gtb_ltb. apply Z.ltb_lt. lia.
Qed.

Lemma detect_ieee1212_blocks_short_analysis :
  length < 8 -> analyse_blocks host data length = Err (- EINVAL).
Proof.
  intros Hshort. unfold analyse_blocks.
  rewrite detect_ieee1212_blocks_short by exact Hshort. reflexivity.
Qed.

End Errors.

(** * The shape of the discovered list *)

Section Shape.

Variable host : byte_order.
Variable data : list byte.
Variable length : Z.

Lemma detect_entries_loop_adds dd :
  adds_entries dd ->
  forall directory_offset parent count i head head',
    detect_entries_loop host dd data length directory_offset parent count i head
    = Ok head' ->
    forall b, In b head' ->
      In b head
      \/ block_type b = IEEE1212_LEAF_BLOCK
      \/ block_type b = IEEE1212_DIRECTORY_BLOCK.
Proof.
  intros Hdd directory_offset parent count.
  induction count as [| count IH]; intros i head head'; cbn [detect_entries_loop].
  - intros H. apply Ok_inj in H. subst head'. auto.
  - destruct (decode_directory_entry _) as [[key_type kid] value].
    destruct ((key_type =? KEY_TYPE_LEAF) || (key_type =? KEY_TYPE_DIRECTORY)); eauto.
    destruct (_ >=? length); [discriminate |].
    destruct (detect_ieee1212_block_length host data length _); cbn [bind];
      try discriminate.
    destruct (key_type =? KEY_TYPE_LEAF).
    + unfold detect_ieee1212_leaf_block.
      destruct (block_exists head _); cbn [bind]; [eauto |].
      intros H b Hb. destruct (IH _ _ _ H b Hb) as [Hin | Hk]; auto.
      apply in_insert_block_by_offset in Hin. destruct Hin as [-> | Hin]; auto.
    + destruct (dd _ a kid parent head) eqn:Hd; cbn [bind]; try discriminate.
      intros H b Hb. destruct (IH _ _ _ H b Hb) as [Hin | Hk]; auto.
      eapply Hdd; eauto.
Qed.

Lemma detect_ieee1212_directory_block_adds (fuel : nat) :
  adds_entries (detect_ieee1212_directory_block host fuel data length).
Proof.
  induction fuel as [| fuel IH]; intros o l k p head head'.
  - discriminate.
  - cbn [detect_ieee1212_directory_block].
    destruct (block_exists head o).
    + intros H. apply Ok_inj in H. subst head'. auto.
    + unfold detect_ieee1212_directory_entries. intros H b Hb.
      destruct (detect_entries_loop_adds _ IH _ _ _ _ _ _ H b Hb) as [Hin | Hk];
        auto.
      apply in_insert_block_by_offset in Hin. destruct Hin as [-> | Hin]; auto.
Qed.

(** The descriptors of a discovered list: the two that
    [detect_ieee1212_blocks] makes itself, and leaves and directories. *)
Lemma detect_ieee1212_blocks_members (fuel : nat) (head : list_head) :
  detect_ieee1212_blocks host fuel data length [] = Ok head ->
  In (bus_info_descriptor host data) head
  /\ In (root_descriptor host data) head
  /\ forall b, In b head ->
       b = bus_info_descriptor host data \/ b = root_descriptor host data
       \/ block_type b = IEEE1212_LEAF_BLOCK
       \/ block_type b = IEEE1212_DIRECTORY_BLOCK.
Proof.
  unfold detect_ieee1212_blocks.
  destruct (detect_ieee1212_bus_info_block_length host data length 0)
    as [bus_length | e |] eqn:Hbus; cbn [bind]; try discriminate.
  apply detect_ieee1212_bus_info_block_length_ok in Hbus.
  destruct Hbus as [Hbl _].
  unfold detect_ieee1212_bus_info_block; cbn [bind insert_block_by_offset].
  destruct (detect_ieee1212_block_length host data length (0 + bus_length))
    as [root_length | e |] eqn:Hroot; cbn [bind]; try discriminate.
  apply detect_ieee1212_block_length_ok in Hroot.
  destruct Hroot as [Hrl _].
  unfold detect_ieee1212_root_directory_block, detect_ieee1212_directory_entries.
  cbn [insert_block_by_offset insert_after_cursor blk_offset].
  assert (Hb : {| blk_offset := 0; blk_length := bus_length;
                  block_type := IEEE1212_BUS_INFO_BLOCK; blk_data := None |}
               = bus_info_descriptor host data).
  { unfold bus_info_descriptor. rewrite Hbl. reflexivity. }
  assert (Hr : {| blk_offset := 0 + bus_length; blk_length := root_length;
                  block_type := IEEE1212_ROOT_DIRECTORY_BLOCK; blk_data := None |}
               = root_descriptor host data).
  { unfold root_descriptor. cbn [bus_info_descriptor blk_length].
    rewrite Hrl, Z.add_0_l, Hbl. reflexivity. }
  rewrite Hb, Hr. intros H.
  pose proof (detect_entries_loop_keeps host data length _
                (detect_ieee1212_directory_block_keeps host data length fuel)
                _ _ _ _ _ _ H) as Hincl.
  split; [apply Hincl; cbn; auto |]. split; [apply Hincl; cbn; auto |].
  intros b Hin.
  destruct (detect_entries_loop_adds _ (detect_ieee1212_directory_block_adds fuel)
              _ _ _ _ _ _ H b Hin) as [[<- | [<- | []]] | Hk]; auto.
Qed.

(** In a discovered list every leaf and directory hangs under a directory
    at a smaller offset. *)
Lemma discovered_linked (head : list_head) (b : ieee1212_block) :
  discovered host data length head ->
  In b head ->
  block_type b = IEEE1212_LEAF_BLOCK \/ block_type b = IEEE1212_DIRECTORY_BLOCK ->
  linked head b.
Proof.
  intros Hd Hin Hk. split; [exact Hk |].
  pose proof (disc_referenced _ _ _ _ Hd) as Href.
  rewrite Forall_forall in Href. specialize (Href b Hin).
  unfold referenced in Href.
  assert (Hex : exists d p i,
             blk_data b = Some d /\ In p head /\ is_directory p
             /\ blk_offset p = parent d /\ refers host data p i b d).
  { destruct Hk as [Hk | Hk]; rewrite Hk in Href; exact Href. }
  destruct Hex as (d & p & i & Hdat & Hp & Hdir & Hpar & Hrefers).
  exists d, p. repeat split; auto.
  unfold refers in Hrefers. cbv zeta in Hrefers.
  destruct (decode_directory_entry _) as [[key_type kid] value].
  destruct Hrefers as (Hi & _ & _ & Hoff).
  pose proof (wrap32_scaled value) as [Hw _]. lia.
Qed.

(** The descriptors under the root directory lie behind it. *)
Lemma discovered_behind_root (fuel : nat) (head : list_head) :
  detect_ieee1212_blocks host fuel data length [] = Ok head ->
  forall n b,
    In b head ->
    block_type b = IEEE1212_LEAF_BLOCK \/ block_type b = IEEE1212_DIRECTORY_BLOCK ->
    blk_offset b < Z.of_nat n ->
    blk_offset (root_descriptor host data) < blk_offset b.
Proof.
  intros Hrun.
  destruct (detect_ieee1212_blocks_spec host data length fuel) as [Hd _].
  specialize (Hd head Hrun).
  destruct (detect_ieee1212_blocks_members fuel head Hrun) as (_ & _ & Hkinds).
  induction n as [| n IH]; intros b Hin Hk Hlt.
  - pose proof (disc_placed _ _ _ _ Hd) as Hpl. rewrite Forall_forall in Hpl.
    destruct (Hpl b Hin) as [H0 _]. lia.
  - destruct (discovered_linked head b Hd Hin Hk)
      as (_ & d & p & _ & Hp & Hdir & _ & Hplt).
    destruct (Hkinds p Hp) as [-> | [-> | Hpk]].
    + destruct Hdir as [Hdir | Hdir]; discriminate.
    + exact Hplt.
    + assert (blk_offset (root_descriptor host data) < blk_offset p);
        [apply IH; auto; lia | lia].
Qed.

Lemma detect_ieee1212_blocks_shape (fuel : nat) (head : list_head) :
  detect_ieee1212_blocks host fuel data length [] = Ok head ->
  exists rest,
    head = bus_info_descriptor host data :: root_descriptor host data :: rest
    /\ Forall (well_placed length) head
    /\ Forall (linked head) rest.
Proof.
  intros Hrun.
  destruct (detect_ieee1212_blocks_spec host data length fuel) as [Hd _].
  specialize (Hd head Hrun).
  destruct (detect_ieee1212_blocks_members fuel head Hrun)
    as (Hbus & Hroot & Hkinds).
  pose proof (discovered_behind_root fuel head Hrun) as Hbehind.
  pose proof (disc_ascending _ _ _ _ Hd) as Hasc.
  pose proof (disc_placed _ _ _ _ Hd) as Hplaced.
  pose proof (Z.mod_pos_bound (bus_info_length_field (load32 host data 0)) 64
                ltac:(lia)) as Hb64.
  assert (Hro : blk_offset (root_descriptor host data)
                = 4 + 4 * (bus_info_length_field (load32 host data 0) mod 64))
    by reflexivity.
  assert (Hbo : blk_offset (bus_info_descriptor host data) = 0) by reflexivity.
  assert (Hafter : forall b, In b head ->
            b = bus_info_descriptor host data \/ b = root_descriptor host data
            \/ (blk_offset (root_descriptor host data) < blk_offset b
                /\ (block_type b = IEEE1212_LEAF_BLOCK
                    \/ block_type b = IEEE1212_DIRECTORY_BLOCK))).
  { intros b Hin. destruct (Hkinds b Hin) as [-> | [-> | Hk]]; auto.
    right. right. split; auto.
    apply (Hbehind (S (Z.to_nat (blk_offset b))) b Hin Hk). lia. }
  destruct (disc_first _ _ _ _ Hd) as (b0 & tail & -> & Hb0).
  assert (Hb0' : b0 = bus_info_descriptor host data).
  { destruct (Hafter b0 (or_introl eq_refl)) as [-> | [-> | [Hlt _]]]; auto; lia. }
  subst b0.
  assert (Hroot' : In (root_descriptor host data) tail).
  { destruct Hroot as [Heq | Hin]; [| exact Hin].
    apply (f_equal blk_offset) in Heq. rewrite Hro, Hbo in Heq. lia. }
  destruct tail as [| b1 rest]; [destruct Hroot' |].
  assert (Hb1 : b1 = root_descriptor host data).
  { destruct Hroot' as [Heq | Hin]; [auto |].
    destruct Hasc as [Hlt01 Hasc].
    pose proof (ascending_lower_bound _ _ _ Hasc Hin) as Hlt.
    destruct (Hafter b1 (or_intror (or_introl eq_refl)))
      as [-> | [-> | [Hlt' _]]]; auto; [| lia].
    rewrite Hbo in Hlt. lia. }
  subst b1. exists rest. split; [reflexivity |]. split; [exact Hplaced |].
  apply Forall_forall. intros b Hin.
  assert (Hin' : In b (bus_info_descriptor host data
                         :: root_descriptor host data :: rest))
    by (right; right; exact Hin).
  destruct Hasc as [_ Hasc].
  pose proof (ascending_lower_bound _ _ _ Hasc Hin) as Hlt.
  apply discovered_linked; auto.
  destruct (Hafter b Hin') as [-> | [-> | [_ Hk]]]; auto.
  - rewrite Hbo in Hlt. lia.
  - lia.
Qed.

End Shape.

(** * Normalisation and orphans, once more *)

Section Passes.

Variable host : byte_order.
Variable data : list byte.
Variable length : Z.

Lemma normalize_blocks_shortens (head : list_head) :
  Forall2 shortened (normalize_blocks head length) head.
Proof.
  induction head as [| entry rest IH]; cbn [normalize_blocks].
  - constructor.
  - constructor; [| exact IH].
    destruct (_ >? _) eqn:Hcmp.
    + rewrite Z.gtb_ltb in Hcmp. apply Z.ltb_lt in Hcmp.
      repeat split; cbn [set_length blk_length]. lia.
    + repeat split. lia.
Qed.

Lemma normalize_blocks_idempotent (head : list_head) :
  normalize_blocks (normalize_blocks head length) length
  = normalize_blocks head length.
Proof.
  induction head as [| entry rest IH]; cbn [normalize_blocks]; [reflexivity |].
  rewrite IH. f_equal.
  fold (next_offset_of (normalize_blocks rest length) length).
  fold (next_offset_of rest length).
  rewrite normalize_blocks_next.
  destruct (blk_offset entry + blk_length entry >? next_offset_of rest length)
    eqn:Hcmp.
  - cbn [set_length blk_offset blk_length].
    replace (_ >? _) with false; [reflexivity |].
    symmetry. rewrite Z.gtb_ltb. apply Z.ltb_ge. lia.
  - rewrite Hcmp. reflexivity.
Qed.

Lemma normalize_blocks_tiled (start : Z) (head : list_head) :
  tiles start head length -> normalize_blocks head length = head.
Proof.
  revert start. induction head as [| entry rest IH]; intros start Ht;
    cbn [normalize_blocks]; [reflexivity |].
  destruct Ht as (Hoff & Hlen & Ht). rewrite (IH _ Ht). f_equal.
  fold (next_offset_of rest length).
  replace (_ >? _) with false; [reflexivity |].
  symmetry. rewrite Z.gtb_ltb. apply Z.ltb_ge.
  destruct rest as [| peek rest]; cbn in Ht |- *; [lia |].
  destruct Ht as (Hp & _). lia.
Qed.

Lemma fulfill_loop_tiled (suf : list_head) :
  forall (pre : list_head) (fuel : nat) (start : Z),
    tiles start suf length ->
    (List.length suf < fuel)%nat ->
    fulfill_loop fuel length (List.length pre) (pre ++ suf) = Ok (pre ++ suf).
Proof.
  induction suf as [| entry rest IH]; intros pre fuel start Ht Hfuel;
    (destruct fuel as [| fuel]; [cbn in Hfuel; lia |]); cbn [fulfill_loop].
  - rewrite app_nil_r.
    replace (nth_error pre (List.length pre)) with (@None ieee1212_block);
      [reflexivity |].
    symmetry. apply nth_error_None. lia.
  - rewrite nth_error_middle, nth_error_after, next_offset_of_nth.
    destruct Ht as (Hoff & Hlen & Ht).
    replace (_ >=? _) with true.
    2:{ symmetry. rewrite Z.geb_leb. apply Z.leb_le.
        destruct rest as [| peek rest]; cbn in Ht |- *; [lia |].
        destruct Ht as (Hp & _). lia. }
    specialize (IH (pre ++ [entry]) fuel _ Ht).
    rewrite length_app in IH. cbn [List.length] in IH.
    rewrite Nat.add_1_r, <- app_assoc in IH. cbn [app] in IH.
    apply IH. cbn [List.length] in Hfuel. lia.
Qed.

(** The analysed list: the bus information block as it was discovered, the
    root directory, and entries under directories of the list or orphans. *)
Lemma analyse_blocks_shape (final : list_head) :
  analyse_blocks host data length = Ok final ->
  exists root rest,
    final = bus_info_descriptor host data :: root :: rest
    /\ shortened root (root_descriptor host data)
    /\ Forall (analysed_entry final) rest.
Proof.
  intros Hrun. apply analyse_blocks_inv in Hrun.
  destruct Hrun as (head & Hdetect & Hfill).
  destruct (detect_ieee1212_blocks_spec host data length (Z.to_nat (length / 4)))
    as [Hd _].
  specialize (Hd head Hdetect).
  destruct (detect_ieee1212_blocks_shape host data length _ head Hdetect)
    as (rest0 & Hhead & _ & Hlinked).
  pose proof (disc_ascending _ _ _ _ Hd) as Hasc.
  pose proof (disc_placed _ _ _ _ Hd) as Hplaced.
  destruct (fulfill_orphan_blocks_packed length data (normalize_blocks head length))
    as (final' & Hfill' & Htiles & Hincl & Horph).
  { apply normalize_blocks_packed; auto. }
  { rewrite normalize_blocks_next, Hhead. reflexivity. }
  rewrite Hfill in Hfill'. apply Ok_inj in Hfill'. subst final'.
  pose proof (normalize_blocks_shortens head) as Hshort.
  pose proof (tiles_ascending _ _ _ Htiles) as Hfasc.
  assert (Hbo : blk_offset (bus_info_descriptor host data) = 0) by reflexivity.
  pose proof (Z.mod_pos_bound (bus_info_length_field (load32 host data 0)) 64
                ltac:(lia)) as Hb64.
  assert (Hro : blk_offset (root_descriptor host data)
                = blk_length (bus_info_descriptor host data)) by reflexivity.
  assert (Hbl : blk_length (bus_info_descriptor host data)
                = 4 + 4 * (bus_info_length_field (load32 host data 0) mod 64))
    by reflexivity.
  (* the normalised list *)
  remember (normalize_blocks head length) as normal eqn:Hnormal.
  rewrite Hhead in Hnormal, Hshort.
  cbn [normalize_blocks] in Hnormal.
  rewrite Hbo, Z.add_0_l, Hro in Hnormal.
  replace (blk_length (bus_info_descriptor host data)
           >? blk_length (bus_info_descriptor host data)) with false in Hnormal.
  2:{ symmetry. rewrite Z.gtb_ltb. apply Z.ltb_ge. lia. }
  match type of Hnormal with
  | normal = _ :: ?r :: ?t => set (root := r) in *; set (tail := t) in *
  end.
  rewrite Hnormal in Hshort.
  apply Forall2_cons_iff in Hshort. destruct Hshort as [_ Hshort1].
  apply Forall2_cons_iff in Hshort1. destruct Hshort1 as [Hroot Hshort2].
  assert (Hrooto : blk_offset root = blk_offset (root_descriptor host data))
    by apply Hroot.
  (* the first two descriptors of the result *)
  assert (Hbin : In (bus_info_descriptor host data) final)
    by (apply Hincl; rewrite Hnormal; left; reflexivity).
  assert (Hrin : In root final)
    by (apply Hincl; rewrite Hnormal; right; left; reflexivity).
  destruct final as [| f0 ftail]; [destruct Hbin |].
  destruct Htiles as (Hf0 & Hf0len & Htiles).
  assert (Ef0 : f0 = bus_info_descriptor host data).
  { destruct Hbin as [Heq | Hin]; [exact Heq |].
    pose proof (ascending_lower_bound _ _ _ Hfasc Hin). lia. }
  subst f0.
  assert (Hrin' : In root ftail).
  { destruct Hrin as [Heq | Hin]; [| exact Hin].
    apply (f_equal blk_offset) in Heq. lia. }
  destruct ftail as [| f1 rest]; [destruct Hrin' |].
  destruct Htiles as (Hf1 & Hf1len & Htiles).
  assert (Ef1 : f1 = root).
  { destruct Hrin' as [Heq | Hin]; [exact Heq |].
    destruct Hfasc as [_ Hfasc].
    pose proof (ascending_lower_bound _ _ _ Hfasc Hin). lia. }
  subst f1.
  exists root, rest. split; [reflexivity |]. split; [exact Hroot |].
  (* the other descriptors *)
  set (final := bus_info_descriptor host data :: root :: rest) in *.
  assert (Hmatch : forall y, In y head ->
            exists x, In x final /\ same_block x y).
  { intros y Hy.
    assert (Hs : Forall2 same_block normal head).
    { rewrite Hnormal, Hhead. constructor; [repeat split |].
      constructor; [apply Hroot |].
      eapply Forall2_impl; [| exact Hshort2]. intros a b Hab. apply Hab. }
    destruct (Forall2_same_block_in_r _ _ y Hs Hy) as (x & Hx & Hxy).
    exists x. split; [apply Hincl; exact Hx | exact Hxy]. }
  apply Forall_forall. intros x Hx.
  assert (Hxf : In x final) by (right; right; exact Hx).
  assert (Hxo : blk_offset root < blk_offset x).
  { destruct Hfasc as [_ Hfasc]. apply (ascending_lower_bound _ _ _ Hfasc Hx). }
  destruct (Horph x Hxf) as [Hin | Ho]; [| right; exact Ho].
  left. rewrite Hnormal in Hin. destruct Hin as [<- | [<- | Hin]]; [lia | lia |].
  destruct (Forall2_same_block_in_l _ _ x
              (Forall2_impl _ (fun a b (H : shortened a b) => proj1 H) Hshort2) Hin)
    as (y & Hy & (Hxo' & Hxt & Hxd)).
  rewrite Forall_forall in Hlinked.
  destruct (Hlinked y Hy) as (Hk & d & p & Hdat & Hp & Hdir & Hpar & Hlt).
  destruct (Hmatch p Hp) as (p' & Hp' & (Hpo & Hpt & _)).
  split; [rewrite Hxt; exact Hk |].
  exists d, p'. repeat split; try congruence; try lia.
  unfold is_directory in *. rewrite Hpt. exact Hdir.
Qed.

(** X6.  What discovery returns: the descriptor of the bus information
    block at offset 0, the descriptor of the root directory right behind
    it, and then only leaves and directories, each with a pointer to a
    directory descriptor of the list at a smaller offset; every block lies
    within the buffer at a multiple of four. *)
Theorem discovery_shape (fuel : nat) (head : list_head) :
  detect_ieee1212_blocks host fuel data length [] = Ok head ->
  exists rest,
    head = bus_info_descriptor host data :: root_descriptor host data :: rest
    /\ Forall (well_placed length) head
    /\ Forall (linked head) rest.
Proof. apply detect_ieee1212_blocks_shape. Qed.

Lemma normalize_blocks_lengths (head : list_head) :
  ascending head ->
  Forall (fun b => 0 <= blk_offset b <= length /\ 0 <= blk_length b) head ->
  Forall (fun b => 0 <= blk_length b) (normalize_blocks head length).
Proof.
  induction head as [| entry rest IH]; intros Hasc Hall; cbn [normalize_blocks].
  - constructor.
  - apply Forall_cons_iff in Hall. destruct Hall as [[Ho Hl] Hall].
    destruct Hasc as [Hnext Hasc].
    constructor; [| apply IH; assumption].
    destruct (_ >? _); [| exact Hl].
    cbn [set_length blk_length].
    destruct rest as [| peek rest']; lia.
Qed.

(** X7.  On a list in ascending order whose blocks start in the buffer,
    where the differences of [size_t] do not wrap, [normalize_blocks] keeps
    the number, the offsets, the types and the key data of the descriptors
    and never makes a block longer, no length it leaves is negative, and a
    second pass changes nothing. *)
Theorem normalize_blocks_only_shortens (head : list_head) :
  ascending head ->
  Forall (fun b => 0 <= blk_offset b <= length /\ 0 <= blk_length b) head ->
  Forall2 shortened (normalize_blocks head length) head
  /\ Forall (fun b => 0 <= blk_length b) (normalize_blocks head length)
  /\ normalize_blocks (normalize_blocks head length) length
     = normalize_blocks head length.
Proof.
  intros Hasc Hall.
  split; [apply normalize_blocks_shortens |].
  split; [apply normalize_blocks_lengths; assumption
         | apply normalize_blocks_idempotent].
Qed.

(** X8.  A list that covers the buffer block after block is left as it is
    by both passes: no block is shortened and no orphan is added. *)
Theorem tiled_list_is_final (head : list_head) :
  tiles 0 head length ->
  normalize_blocks head length = head
  /\ fulfill_orphan_blocks data length head = Ok head.
Proof.
  intros Ht. split; [eapply normalize_blocks_tiled; eauto |].
  unfold fulfill_orphan_blocks.
  apply (fulfill_loop_tiled head [] _ 0 Ht). lia.
Qed.

(** X9.  The analysed list starts with the descriptor of the bus
    information block, unchanged, and the root directory; every other
    descriptor is an orphan or hangs under a directory of the list. *)
Theorem analysis_shape (final : list_head) :
  analyse_blocks host data length = Ok final ->
  exists root rest,
    final = bus_info_descriptor host data :: root :: rest
    /\ shortened root (root_descriptor host data)
    /\ Forall (analysed_entry final) rest.
Proof. apply analyse_blocks_shape. Qed.

End Passes.

Lemma normalize_blocks_only_shortens_sample :
  Forall2 shortened (normalize_blocks sample_discovered 68) sample_discovered
  /\ Forall (fun b => 0 <= blk_length b) (normalize_blocks sample_discovered 68)
  /\ normalize_blocks (normalize_blocks sample_discovered 68) 68
     = normalize_blocks sample_discovered 68.
Proof.
  apply (normalize_blocks_only_shortens 68 sample_discovered).
  - vm_compute. repeat split; reflexivity.
  - repeat constructor; vm_compute; discriminate.
Defined.

Lemma discovery_shape_sample :
  exists rest,
    sample_discovered
    = bus_info_descriptor LittleEndian (image LittleEndian sample_rom)
        :: root_descriptor LittleEndian (image LittleEndian sample_rom) :: rest
    /\ Forall (well_placed 68) sample_discovered
    /\ Forall (linked sample_discovered) rest.
Proof.
  apply (discovery_shape LittleEndian (image LittleEndian sample_rom) 68 17
           sample_discovered).
  vm_compute. reflexivity.
Defined.

Lemma tiled_list_is_final_sample :
  normalize_blocks sample_blocks 68 = sample_blocks
  /\ fulfill_orphan_blocks (image LittleEndian sample_rom) 68 sample_blocks
     = Ok sample_blocks.
Proof.
  apply (tiled_list_is_final (image LittleEndian sample_rom) 68 sample_blocks).
  cbn. repeat split; lia.
Defined.

Lemma analysis_shape_sample :
  exists root rest,
    sample_blocks
    = bus_info_descriptor LittleEndian (image LittleEndian sample_rom)
        :: root :: rest
    /\ shortened root (root_descriptor LittleEndian (image LittleEndian sample_rom))
    /\ Forall (analysed_entry sample_blocks) rest.
Proof.
  apply (analysis_shape LittleEndian (image LittleEndian sample_rom) 68
           sample_blocks).
  vm_compute. reflexivity.
Defined.

(** * The tables *)

Lemma lines_loop_length (line : Z -> string) (count : nat) (i : Z) :
  List.length (lines_loop line count i) = count.
Proof.
  revert i. induction count as [| count IH]; intros i; cbn [lines_loop List.length];
    auto.
Qed.








Lemma find_formatter_some (table : list key_formatter) (key_type key_id : Z)
    (f : key_formatter) :
  find_formatter table key_type key_id = Some f ->
  In f table /\ kf_key_type f = key_type /\ kf_key_id f = key_id.
Proof.
  unfold find_formatter. intros H. apply find_some in H.
  destruct H as [Hin Hk]. apply andb_true_iff in Hk.
  destruct Hk as [H1 H2]. apply Z.eqb_eq in H1, H2. auto.
Qed.

(** The formatter of a key: an entry of a table with this key, or the
    default of the key type, and then without the name of a specification. *)
Lemma detect_key_formatter_cases (identifier' : spec_identifier)
    (key_type key_id : Z) (f : key_formatter) (name : option string) :
  detect_key_formatter identifier' key_type key_id = (f, name) ->
  (In f known_formatters /\ kf_key_type f = key_type /\ kf_key_id f = key_id)
  \/ (f = default_formatters key_type /\ name = None).
Proof.
  unfold detect_key_formatter, known_formatters.
  destruct (find _ spec_entries) as [entry |] eqn:Hentry.
  - destruct (find_formatter (formatters entry) key_type key_id) as [g |] eqn:Hg.
    + intros H. injection H as <- <-.
      apply find_formatter_some in Hg. destruct Hg as (Hin & Hk).
      apply find_some in Hentry. destruct Hentry as [He _].
      left. split; [| exact Hk].
      apply in_or_app. right. apply in_or_app. right.
      apply in_flat_map. eauto.
    + destruct (find_formatter ieee1394_bus_key_formatters key_type key_id)
        as [g |] eqn:Hb.
      * intros H. injection H as <- <-. apply find_formatter_some in Hb.
        destruct Hb as (Hin & Hk). left. split; [| exact Hk].
        apply in_or_app. auto.
      * destruct (find_formatter csr_key_formatters key_type key_id)
          as [g |] eqn:Hc.
        -- intros H. injection H as <- <-. apply find_formatter_some in Hc.
           destruct Hc as (Hin & Hk). left. split; [| exact Hk].
           apply in_or_app. right. apply in_or_app. auto.
        -- intros H. injection H as <- <-. auto.
  - destruct (find_formatter ieee1394_bus_key_formatters key_type key_id)
      as [g |] eqn:Hb.
    + intros H. injection H as <- <-. apply find_formatter_some in Hb.
      destruct Hb as (Hin & Hk). left. split; [| exact Hk].
      apply in_or_app. auto.
    + destruct (find_formatter csr_key_formatters key_type key_id)
        as [g |] eqn:Hc.
      * intros H. injection H as <- <-. apply find_formatter_some in Hc.
        destruct Hc as (Hin & Hk). left. split; [| exact Hk].
        apply in_or_app. right. apply in_or_app. auto.
      * intros H. injection H as <- <-. auto.
Qed.



(** * The walk to the root directory *)




Section Rendering.

Variable host : byte_order.
Variable data : list byte.













End Rendering.

(** * Rendering *)

Section Printing.

Variable host : byte_order.
Variable data : list byte.







End Printing.




(** * The annotations of the headers *)

Lemma digit_char_hex (d : Z) : 0 <= d < 16 -> In (digit_char d) hex_digits.
Proof.
  intros Hd.
  assert (H : d = 0 \/ d = 1 \/ d = 2 \/ d = 3 \/ d = 4 \/ d = 5 \/ d = 6
              \/ d = 7 \/ d = 8 \/ d = 9 \/ d = 10 \/ d = 11 \/ d = 12
              \/ d = 13 \/ d = 14 \/ d = 15) by lia.
  repeat (destruct H as [-> | H]; [vm_compute; tauto |]).
  subst d. vm_compute. tauto.
Qed.

Lemma occurs_number (c : ascii) (base : Z) (fuel : nat) (n : Z) :
  1 < base <= 16 ->
  ~ In c hex_digits ->
  occurs c (digits_of base fuel n EmptyString) = false.
Proof.
  intros Hbase Hc. apply occurs_digits_of; [lia | | reflexivity].
  intros d Hd Heq. apply Hc. rewrite <- Heq. apply digit_char_hex. lia.
Qed.

Lemma occurs_line_prefix (c : ascii) (offset quadlet : Z) (add_delimiter : bool) :
  ~ In c hex_digits -> c <> " "%char ->
  occurs c (format_line_prefix offset quadlet add_delimiter) = false.
Proof.
  intros Hc Hs.
  unfold format_line_prefix, hex_blank, hex_zero, pad_left, hex.
  rewrite !occurs_append, !(occurs_number c 16) by (auto; lia).
  rewrite !occurs_fill.
  - assert (Hb : (" " =? c)%char = false) by (apply Ascii.eqb_neq; congruence).
    destruct add_delimiter; cbn [occurs]; rewrite ?Hb; reflexivity.
  - intros <-. apply Hc. vm_compute. tauto.
  - congruence.
Qed.

(** A text without the first character of [needle] may be skipped. *)
Lemma contains_skip (c : ascii) (needle a b : string) :
  occurs c a = false ->
  contains (String c needle) (a +++ b) = contains (String c needle) b.
Proof.
  induction a as [| x a IH]; intros Ha; [reflexivity |].
  cbn [occurs] in Ha. apply orb_false_iff in Ha. destruct Ha as [Hx Ha].
  cbn [String.append contains String.prefix].
  destruct (ascii_dec c x) as [<- | _].
  - rewrite Ascii.eqb_refl in Hx. discriminate.
  - cbn [orb]. apply IH, Ha.
Qed.

Lemma metadata_plain (block_name : string) (quadlet : Z -> Z)
    (quadlet_count : Z) :
  occurs "s" block_name = false ->
  Z.land (quadlet 0) 0xFFFF
  = compute_itu_t_crc_16 (fun i => quadlet (i + 1)) (quadlet_count - 1) ->
  occurs "s" (format_block_metadata block_name quadlet quadlet_count) = false.
Proof.
  intros Hname Hcrc. unfold format_block_metadata, IEEE1212_BLOCK_CRC_SHIFT.
  rewrite Z.shiftr_0_r. unfold IEEE1212_BLOCK_CRC_MASK.
  change (Z.land (quadlet 0) 0x0000ffff) with (Z.land (quadlet 0) 0xFFFF).
  rewrite Hcrc, Z.eqb_refl. cbn [negb].
  rewrite !occurs_append, Hname, !occurs_dec.
  destruct (negb _); [rewrite !occurs_append, occurs_dec |]; reflexivity.
Qed.

(** The header line of a block other than the bus information block. *)
Lemma should_be_in_header (offset : Z) (block_name : string) (quadlet : Z -> Z)
    (quadlet_count : Z) :
  occurs "s" block_name = false ->
  (contains "(should be "
     (format_line_prefix offset (quadlet 0) true
        +++ format_block_metadata block_name quadlet quadlet_count)
   = true
   <-> Z.land (quadlet 0) 0xFFFF
       <> compute_itu_t_crc_16 (fun i => quadlet (i + 1)) (quadlet_count - 1)).
Proof.
  intros Hname. split.
  - intros Hc Heq.
    rewrite (contains_occurs "s") in Hc; [discriminate | reflexivity |].
    rewrite occurs_append, occurs_format_line_prefix, metadata_plain; auto.
  - intros Hne. apply contains_append_r.
    apply should_be_in_metadata; auto.
Qed.

Lemma crc_loop_range (quadlet : Z -> Z) (count : nat) :
  forall i crc, 0 <= crc < 2 ^ 16 -> 0 <= crc_loop quadlet count i crc < 2 ^ 16.
Proof.
  induction count as [| count IH]; intros i crc Hc.
  - exact Hc.
  - rewrite crc_loop_S. apply IH. apply crc_quadlet_spec, Hc.
Qed.

Lemma land_field (q shift width : Z) :
  0 <= shift -> 0 <= width ->
  Z.shiftr (Z.land q (Z.shiftl (Z.ones width) shift)) shift
  = (q / 2 ^ shift) mod 2 ^ width.
Proof.
  intros Hs Hw. rewrite land_shifted_mask by lia.
  rewrite Z.shiftr_shiftl_l by lia. rewrite Z.sub_diag, Z.shiftl_0_r.
  rewrite Z.land_ones, Z.shiftr_div_pow2 by lia. reflexivity.
Qed.

Lemma not_hex_digit_paren : ~ In "("%char hex_digits.
Proof. vm_compute. intuition discriminate. Qed.

Lemma not_hex_digit_p : ~ In "p"%char hex_digits.
Proof. vm_compute. intuition discriminate. Qed.

Lemma occurs_dec_other (c : ascii) (n : Z) :
  ~ In c hex_digits -> occurs c (dec n) = false.
Proof. intros Hc. apply (occurs_number c 10); auto; lia. Qed.

(** The decimal digits. *)
Lemma occurs_dec_d (n : Z) : occurs "d" (dec n) = false.
Proof.
  apply occurs_digits_of; [lia | | reflexivity].
  intros d Hd.
  assert (H : d = 0 \/ d = 1 \/ d = 2 \/ d = 3 \/ d = 4 \/ d = 5 \/ d = 6
              \/ d = 7 \/ d = 8 \/ d = 9) by lia.
  repeat (destruct H as [-> | H]; [vm_compute; discriminate |]).
  subst d. vm_compute. discriminate.
Qed.

(** The header line of the bus information block. *)
Lemma bus_info_header (offset : Z) (quadlet : Z -> Z)
    (quadlet_count data_length : Z) :
  (contains "(up to "
     (format_line_prefix offset (quadlet 0) true
        +++ format_bus_info_metadata quadlet quadlet_count data_length)
   = true
   <-> data_length < 4 * (bus_info_crc_length (quadlet 0) + 1))
  /\ (contains "(should be "
        (format_line_prefix offset (quadlet 0) true
           +++ format_bus_info_metadata quadlet quadlet_count data_length)
      = true
      <-> Z.land (quadlet 0) 0xFFFF
          <> compute_itu_t_crc_16 (fun i => quadlet (i + 1))
               (bus_info_crc_extent (quadlet 0) data_length)).
Proof.
  unfold format_bus_info_metadata. cbv zeta.
  change IEEE1212_BUS_INFO_CRC_LENGTH_MASK with (Z.shiftl (Z.ones 8) 16).
  unfold IEEE1212_BUS_INFO_CRC_LENGTH_SHIFT.
  rewrite land_field by lia. fold (bus_info_crc_length (quadlet 0)).
  unfold IEEE1212_BUS_INFO_CRC_SHIFT, IEEE1212_BUS_INFO_CRC_MASK.
  rewrite Z.shiftr_0_r.
  change (Z.land (quadlet 0) 0x0000ffff) with (Z.land (quadlet 0) 0xFFFF).
  unfold bus_info_crc_extent.
  set (crc := Z.land (quadlet 0) 0xFFFF).
  set (crc_length := bus_info_crc_length (quadlet 0)).
  set (block_length := Z.shiftr _ _).
  pose proof not_hex_digit_paren as Hparen.
  pose proof not_hex_digit_p as Hp.
  destruct (4 * (crc_length + 1) <=? data_length) eqn:Hfit.
  - apply Z.leb_le in Hfit.
    set (actual := compute_itu_t_crc_16 _ _).
    split.
    + split; [| lia]. intros Hc. exfalso.
      rewrite (contains_occurs "p") in Hc; [discriminate | reflexivity |].
      rewrite !occurs_append, occurs_line_prefix by (auto; discriminate).
      rewrite !occurs_dec_other by auto.
      destruct (negb _);
        [rewrite !occurs_append, occurs_dec_other by auto |]; reflexivity.
    + rewrite (contains_skip "(") by (apply occurs_line_prefix; auto; discriminate).
      destruct (crc =? actual) eqn:Hcmp; cbn [negb].
      * apply Z.eqb_eq in Hcmp. split; [| congruence]. intros Hc. exfalso.
        rewrite (contains_occurs "d") in Hc; [discriminate | reflexivity |].
        rewrite !occurs_append, !occurs_dec_d. reflexivity.
      * apply Z.eqb_neq in Hcmp. split; [auto | intros _].
        do 4 apply contains_append_r.
        change (" (should be " +++ dec actual +++ ")")
          with (" " +++ ("(should be " +++ dec actual +++ ")")).
        apply contains_append_r, contains_prefix, prefix_append.
  - apply Z.leb_gt in Hfit.
    set (extent := ((data_length - 4) / 4) mod 256).
    set (actual := compute_itu_t_crc_16 _ _).
    split.
    + split; [lia |]. intros _.
      do 2 apply contains_append_r. apply contains_append_l.
      change (" (up to " +++ dec extent +++ ")")
        with (" " +++ ("(up to " +++ dec extent +++ ")")).
      apply contains_append_r, contains_prefix, prefix_append.
    + rewrite (contains_skip "(") by (apply occurs_line_prefix; auto; discriminate).
      destruct (crc =? actual) eqn:Hcmp; cbn [negb].
      * apply Z.eqb_eq in Hcmp. split; [| congruence]. intros Hc. exfalso.
        rewrite (contains_skip "(") in Hc.
        2:{ rewrite !occurs_append, !occurs_dec_other by auto. reflexivity. }
        change (" (up to " +++ dec extent +++ ")")
          with (" (up to " +++ (dec extent +++ ")")) in Hc.
        rewrite (contains_occurs "d") in Hc; [discriminate | reflexivity |].
        rewrite !occurs_append, !occurs_dec_d. reflexivity.
      * apply Z.eqb_neq in Hcmp. split; [auto | intros _].
        do 4 apply contains_append_r.
        change (" (should be " +++ dec actual +++ ")")
          with (" " +++ ("(should be " +++ dec actual +++ ")")).
        apply contains_append_r, contains_prefix, prefix_append.
Qed.

Section Annotations.

Variable host : byte_order.
Variable data : list byte.

(** X13.  [compute_itu_t_crc_16], which works in 32 bits, computes the CRC
    of the specification over the quadlets it is given, a value of 16
    bits. *)
Theorem compute_itu_t_crc_16_is_crc16 (quadlet : Z -> Z) (quadlet_count : Z) :
  compute_itu_t_crc_16 quadlet quadlet_count
  = crc16 (map (fun k => quadlet (Z.of_nat k)) (seq 0 (Z.to_nat quadlet_count)))
  /\ 0 <= compute_itu_t_crc_16 quadlet quadlet_count < 2 ^ 16.
Proof.
  split; [apply compute_itu_t_crc_16_spec |].
  unfold compute_itu_t_crc_16. apply crc_loop_range. lia.
Qed.

(** X14.  The third line of a root directory, a directory or a leaf is
    its header, and the header says what the CRC should be exactly when the
    CRC field of the first quadlet differs from the CRC of the quadlets
    behind it, up to the end the analysis gave the block. *)
Theorem block_crc_annotation (head : list_head) (block : ieee1212_block)
    (data_length : Z) (lines : list string) :
  block_type block <> IEEE1212_BUS_INFO_BLOCK ->
  block_type block <> ORPHAN_BLOCK ->
  4 <= blk_length block ->
  format_block host data head block data_length = Some lines ->
  exists header,
    nth_error lines 2 = Some header
    /\ (contains "(should be " header = true
        <-> Z.land (block_quadlet host data block 0) 0xFFFF
            <> crc16 (block_quadlets host data block 1
                        (Z.to_nat (blk_length block / 4 - 1)))).
Proof.
  intros Hbus Horphan Hlen.
  assert (Hcount : exists k, Z.to_nat (blk_length block / 4) = S k).
  { assert (1 <= blk_length block / 4) by (apply Z.div_le_lower_bound; lia).
    exists (Z.to_nat (blk_length block / 4) - 1)%nat. lia. }
  destruct Hcount as [k Hk].
  rewrite <- block_crc_spec.
  unfold format_block. destruct (block_type block); try contradiction.
  - intros H. apply Some_inj in H. subst lines.
    unfold format_root_directory_block, format_directory_entries. cbv zeta.
    rewrite Hk. cbn [firstn app nth_error].
    eexists. split; [reflexivity |].
    apply should_be_in_header. reflexivity.
  - unfold format_leaf_block.
    destruct (blk_data block) as [d |]; [| discriminate].
    destruct (collect_identifier_walk _ _ _ _ _ _) as [found |]; [| discriminate].
    destruct (detect_key_formatter found KEY_TYPE_LEAF (key_id d)) as [f name].
    destruct (format_content f) as [| immediate | leaf |]; try discriminate.
    destruct (leaf _ _ _) as [content |]; [| discriminate].
    intros H. apply Some_inj in H. subst lines.
    cbn [app nth_error].
    eexists. split; [reflexivity |].
    apply should_be_in_header. reflexivity.
  - unfold format_directory_block.
    destruct (blk_data block) as [d |]; [| discriminate].
    destruct (directory_base block d) as [base |]; [| discriminate].
    destruct (collect_identifier_walk _ _ _ _ _ _) as [found |]; [| discriminate].
    destruct (detect_key_formatter found KEY_TYPE_DIRECTORY (key_id d))
      as [f name].
    destruct (format_content f); try discriminate.
    intros H. apply Some_inj in H. subst lines.
    unfold format_directory_entries. rewrite Hk. cbn [firstn app nth_error].
    eexists. split; [reflexivity |].
    apply should_be_in_header. reflexivity.
Qed.

(** X15.  The third line of the bus information block is its header.  It
    says up to where the CRC was computed exactly when the buffer is
    shorter than the CRC length field asks for, and what the CRC should be
    exactly when the CRC field differs from the CRC of the quadlets that
    were covered. *)
Theorem bus_info_annotations (bus_info : ieee1212_block) (data_length : Z) :
  exists header,
    nth_error (format_bus_info_block host data bus_info data_length) 2
    = Some header
    /\ (contains "(up to " header = true
        <-> data_length
            < 4 * (bus_info_crc_length (block_quadlet host data bus_info 0) + 1))
    /\ (contains "(should be " header = true
        <-> Z.land (block_quadlet host data bus_info 0) 0xFFFF
            <> crc16 (block_quadlets host data bus_info 1
                        (Z.to_nat
                           (bus_info_crc_extent
                              (block_quadlet host data bus_info 0) data_length)))).
Proof.
  unfold format_bus_info_block. cbv zeta.
  destruct (bus_entry _) as [name format].
  cbn [app nth_error].
  eexists. split; [reflexivity |].
  pose proof (block_crc_spec host data bus_info
                (bus_info_crc_extent (block_quadlet host data bus_info 0)
                   data_length + 1)) as Hcrc.
  replace (bus_info_crc_extent (block_quadlet host data bus_info 0) data_length
           + 1 - 1)
    with (bus_info_crc_extent (block_quadlet host data bus_info 0) data_length)
    in Hcrc by lia.
  rewrite <- Hcrc.
  apply bus_info_header.
Qed.

End Annotations.

Lemma block_crc_annotation_sample :
  exists header,
    nth_error
      (format_root_directory_block LittleEndian (image LittleEndian sample_rom)
         (root_descriptor LittleEndian (image LittleEndian sample_rom)) 68) 2
    = Some header
    /\ (contains "(should be " header = true
        <-> Z.land
              (block_quadlet LittleEndian (image LittleEndian sample_rom)
                 (root_descriptor LittleEndian (image LittleEndian sample_rom)) 0)
              0xFFFF
            <> crc16
                 (block_quadlets LittleEndian (image LittleEndian sample_rom)
                    (root_descriptor LittleEndian (image LittleEndian sample_rom))
                    1
                    (Z.to_nat
                       (blk_length
                          (root_descriptor LittleEndian
                             (image LittleEndian sample_rom)) / 4 - 1)))).
Proof.
  apply (block_crc_annotation LittleEndian (image LittleEndian sample_rom)
           sample_blocks
           (root_descriptor LittleEndian (image LittleEndian sample_rom)) 68).
  - discriminate.
  - discriminate.
  - vm_compute. discriminate.
  - reflexivity.
Defined.

(** * The outcome of the program *)

(** X16.  The program succeeds only on a buffer of at least eight bytes
    that the analysis accepts, and then it prints the blocks and no
    diagnostic; whenever it fails it prints nothing on the standard output,
    and a diagnostic only when the standard input is a terminal. *)
Theorem main_outcome (host : byte_order) (isatty : bool) (stack : list byte)
    (input : read_result) (o : outcome) :
  main host isatty stack input = Some o ->
  (exit_status o = EXIT_FAILURE /\ stdout o = []
   /\ stderr o = (if isatty then [terminal_diagnostic] else []))
  \/ (exit_status o = EXIT_SUCCESS /\ stderr o = [] /\ isatty = false
      /\ exists bytes final,
           input = ReadBytes bytes
           /\ 8 <= input_length bytes
           /\ analyse_blocks host (input_data host stack bytes) (input_length bytes)
              = Ok final
           /\ print_blocks host (input_data host stack bytes) (input_length bytes)
                final
              = Some (stdout o)).
Proof.
  unfold main. destruct isatty.
  { intros H. apply Some_inj in H. subst o. left. auto. }
  destruct input as [| bytes].
  { cbv beta iota zeta. intros H. apply Some_inj in H. subst o. left. auto. }
  cbv beta iota zeta.
  fold (input_length bytes).
  change (host_order_data host
            (firstn 1024 bytes ++ skipn (List.length (firstn 1024 bytes)) stack)
            (input_length bytes))
    with (input_data host stack bytes).
  set (data := input_data host stack bytes).
  set (length := input_length bytes).
  destruct (length <=? 0) eqn:Hlen.
  { intros H. apply Some_inj in H. subst o. left. auto. }
  destruct (analyse_blocks host data length) as [final | e |] eqn:Hrun.
  - destruct (print_blocks host data length final) as [out |] eqn:Hprint;
      [| discriminate].
    intros H. apply Some_inj in H. subst o. right.
    repeat split. exists bytes, final. repeat split; auto.
    destruct (Z.lt_ge_cases length 8) as [Hshort | Hlong]; [| exact Hlong].
    rewrite (detect_ieee1212_blocks_short_analysis host data length Hshort) in Hrun.
    discriminate.
  - intros H. apply Some_inj in H. subst o. left. auto.
  - discriminate.
Qed.

Lemma main_outcome_sample :
  (exit_status
     {| stdout := []; stderr := []; exit_status := EXIT_FAILURE |} = EXIT_FAILURE
   /\ stdout {| stdout := []; stderr := []; exit_status := EXIT_FAILURE |} = []
   /\ stderr {| stdout := []; stderr := []; exit_status := EXIT_FAILURE |} = [])
  \/ (exit_status
        {| stdout := []; stderr := []; exit_status := EXIT_FAILURE |} = EXIT_SUCCESS
      /\ stderr {| stdout := []; stderr := []; exit_status := EXIT_FAILURE |} = []
      /\ false = false
      /\ exists bytes final,
           ReadBytes (image LittleEndian [0x04040400]) = ReadBytes bytes
           /\ 8 <= input_length bytes
           /\ analyse_blocks LittleEndian (input_data LittleEndian [] bytes)
                (input_length bytes)
              = Ok final
           /\ print_blocks LittleEndian (input_data LittleEndian [] bytes)
                (input_length bytes) final
              = Some
                  (stdout
                     {| stdout := []; stderr := []; exit_status := EXIT_FAILURE |})).
Proof.
  apply (main_outcome LittleEndian false [] (ReadBytes (image LittleEndian [0x04040400]))
           {| stdout := []; stderr := []; exit_status := EXIT_FAILURE |}).
  vm_compute. reflexivity.
Defined.

(** * Entries *)

Lemma append_assoc (a b c : string) : (a +++ b) +++ c = a +++ (b +++ c).
Proof.
  induction a as [| x a IH]; cbn [String.append]; [reflexivity |].
  rewrite IH. reflexivity.
Qed.

(** * Names of specifications *)

Lemma find_none_all {A : Type} (f : A -> bool) (l : list A) :
  (forall x, In x l -> f x = false) -> find f l = None.
Proof.
  induction l as [| x l IH]; intros H; cbn [find]; [reflexivity |].
  rewrite (H x (or_introl eq_refl)). apply IH. intros y Hy. apply H. now right.
Qed.

(** No specification of the table has the version [INVALID_KEY_VALUE]. *)
Lemma spec_entries_versions :
  forall entry,
    In entry spec_entries -> version (identifier entry) <> INVALID_KEY_VALUE.
Proof.
  assert (H : forallb
                (fun entry =>
                   negb (version (identifier entry) =? INVALID_KEY_VALUE))
                spec_entries = true) by (vm_compute; reflexivity).
  rewrite forallb_forall in H. intros entry Hin Heq.
  specialize (H entry Hin). rewrite Heq, Z.eqb_refl in H. discriminate.
Qed.

Lemma detect_key_formatter_without_version (identifier' : spec_identifier)
    (key_type key_id : Z) :
  version identifier' = INVALID_KEY_VALUE ->
  detect_key_formatter identifier' key_type key_id
  = detect_key_formatter invalid_identifier key_type key_id
  /\ snd (detect_key_formatter identifier' key_type key_id) = None.
Proof.
  intros Hv.
  assert (Hnone : forall id,
             version id = INVALID_KEY_VALUE ->
             find (fun entry => spec_identifier_eqb (identifier entry) id)
               spec_entries = None).
  { intros id Hid. apply find_none_all. intros entry Hin.
    unfold spec_identifier_eqb. rewrite Hid.
    replace (version (identifier entry) =? INVALID_KEY_VALUE) with false.
    - apply andb_false_r.
    - symmetry. apply Z.eqb_neq. apply spec_entries_versions, Hin. }
  unfold detect_key_formatter.
  rewrite (Hnone identifier' Hv), (Hnone invalid_identifier eq_refl).
  split; [reflexivity |].
  destruct (find_formatter ieee1394_bus_key_formatters key_type key_id);
    [reflexivity |].
  destruct (find_formatter csr_key_formatters key_type key_id); reflexivity.
Qed.

Lemma root_identifier_loop_version (quadlet : Z -> Z) (count : nat) :
  forall i identifier,
    version (root_identifier_loop quadlet count i identifier) = version identifier.
Proof.
  induction count as [| count IH]; intros i identifier;
    cbn [root_identifier_loop]; [reflexivity |].
  destruct (decode_directory_entry (quadlet i)) as [[key_type kid] value].
  rewrite IH. destruct (_ && _); reflexivity.
Qed.

Lemma lines_loop_ext (f g : Z -> string) (count : nat) :
  (forall i, f i = g i) ->
  forall i, lines_loop f count i = lines_loop g count i.
Proof.
  intros Hfg. induction count as [| count IH]; intros i; cbn [lines_loop];
    [reflexivity |].
  rewrite Hfg, IH. reflexivity.
Qed.

(** X18.  The vendor id that [format_root_directory_block] collects has
    no effect: the entries of the root directory are printed as with no
    identifier at all, and none of them gets the name of a specification. *)
Theorem root_directory_has_no_specification (host : byte_order)
    (data : list byte) (root : ieee1212_block) (data_length : Z) :
  format_root_directory_block host data root data_length
  = [ format_blank_prefix +++ "root directory";
      format_blank_prefix +++ format_horizontal_line ]
      ++ format_directory_entries (blk_offset root) (block_quadlet host data root)
           (blk_length root / 4) invalid_identifier
  /\ forall key_type key_id,
       snd (detect_key_formatter
              (root_identifier_loop (block_quadlet host data root)
                 (Z.to_nat (blk_length root / 4 - 1)) 1 invalid_identifier)
              key_type key_id)
       = None.
Proof.
  set (found := root_identifier_loop (block_quadlet host data root)
                  (Z.to_nat (blk_length root / 4 - 1)) 1 invalid_identifier).
  assert (Hv : version found = INVALID_KEY_VALUE).
  { unfold found. rewrite root_identifier_loop_version. reflexivity. }
  split.
  - unfold format_root_directory_block. cbv zeta. fold found.
    f_equal. unfold format_directory_entries. f_equal. f_equal.
    apply lines_loop_ext. intros i. unfold format_directory_entry_line.
    cbv zeta.
    destruct (decode_directory_entry _) as [[key_type kid] value].
    rewrite (proj1 (detect_key_formatter_without_version found key_type kid Hv)).
    reflexivity.
  - intros key_type kid.
    apply (detect_key_formatter_without_version found key_type kid Hv).
Qed.

(** X19.  What [detect_key_formatter] returns: an entry of a table for
    the key asked for, or the default of the key type; and the name of a
    specification only together with an entry of that specification's own
    table, for the identifier asked for. *)
Theorem detect_key_formatter_sound (identifier' : spec_identifier)
    (key_type key_id : Z) :
  let '(f, name) := detect_key_formatter identifier' key_type key_id in
  ((In f known_formatters /\ kf_key_type f = key_type /\ kf_key_id f = key_id)
   \/ (f = default_formatters key_type /\ kf_key_id f = INVALID_KEY_ID
       /\ name = None))
  /\ forall text,
       name = Some text ->
       exists entry,
         In entry spec_entries /\ identifier entry = identifier'
         /\ spec_name entry = text /\ In f (formatters entry).
Proof.
  destruct (detect_key_formatter identifier' key_type key_id) as [f name] eqn:Hf.
  split.
  - destruct (detect_key_formatter_cases _ _ _ _ _ Hf) as [H | [-> ->]]; auto.
    right. repeat split.
    unfold default_formatters.
    destruct (_ =? KEY_TYPE_IMMEDIATE); [reflexivity |].
    destruct (_ =? KEY_TYPE_CSR_OFFSET); [reflexivity |].
    destruct (_ =? KEY_TYPE_LEAF); reflexivity.
  - intros text ->. unfold detect_key_formatter in Hf.
    destruct (find _ spec_entries) as [entry |] eqn:Hentry.
    + destruct (find_formatter (formatters entry) key_type key_id) as [g |] eqn:Hg.
      * injection Hf as <- <-.
        apply find_some in Hentry. destruct Hentry as [Hin Heq].
        apply find_formatter_some in Hg. destruct Hg as [Hg _].
        exists entry. repeat split; auto.
        unfold spec_identifier_eqb in Heq. apply andb_true_iff in Heq.
        destruct Heq as [H1 H2]. apply Z.eqb_eq in H1, H2.
        destruct (identifier entry), identifier'. cbn in *. congruence.
      * destruct (find_formatter ieee1394_bus_key_formatters key_type key_id);
          [discriminate |].
        destruct (find_formatter csr_key_formatters key_type key_id);
          discriminate.
    + destruct (find_formatter ieee1394_bus_key_formatters key_type key_id);
        [discriminate |].
      destruct (find_formatter csr_key_formatters key_type key_id); discriminate.
Qed.

(** * Orphans in a list without overlap *)

(** X20.  On a list in which no block runs into its successor or past the
    end of the buffer, and which starts at offset 0, [fulfill_orphan_blocks]
    returns; the result covers the buffer block after block, holds every
    descriptor of the list, and every descriptor it adds is an orphan. *)
Theorem fulfill_orphan_blocks_fills_gaps (data : list byte) (length : Z)
    (head : list_head) :
  packed length head ->
  next_offset_of head length = 0 ->
  exists final,
    fulfill_orphan_blocks data length head = Ok final
    /\ tiles 0 final length
    /\ incl head final
    /\ (forall x, In x final ->
                  In x head \/ block_type x = ORPHAN_BLOCK /\ blk_data x = None).
Proof. apply fulfill_orphan_blocks_packed. Qed.

Lemma fulfill_orphan_blocks_fills_gaps_sample :
  exists final,
    fulfill_orphan_blocks (image LittleEndian sample_rom) 68
      (normalize_blocks sample_discovered 68)
    = Ok final
    /\ tiles 0 final 68
    /\ incl (normalize_blocks sample_discovered 68) final
    /\ (forall x, In x final ->
                  In x (normalize_blocks sample_discovered 68)
                  \/ block_type x = ORPHAN_BLOCK /\ blk_data x = None).
Proof.
  apply (fulfill_orphan_blocks_fills_gaps (image LittleEndian sample_rom) 68
           (normalize_blocks sample_discovered 68)).
  - cbn. repeat split; lia.
  - reflexivity.
Defined.

(** * The identifier of a specification *)

Lemma decode_directory_entry_value (quadlet : Z) :
  0 <= snd (decode_directory_entry quadlet) < 2 ^ 24.
Proof.
  unfold decode_directory_entry. cbn [snd].
  unfold DIRECTORY_ENTRY_VALUE_SHIFT. rewrite Z.shiftr_0_r.
  change DIRECTORY_ENTRY_VALUE_MASK with (Z.ones 24).
  rewrite Z.land_ones by lia. apply Z.mod_pos_bound. lia.
Qed.

(** The loop over the entries of one directory keeps what the identifier
    holds and fills the rest from the first entries with the keys. *)
Lemma collect_identifier_loop_fills (quadlet : Z -> Z) (count : nat) :
  forall i identifier,
    collect_identifier_loop quadlet count i identifier
    = {| specifier_id :=
           if specifier_id identifier =? INVALID_KEY_VALUE
           then value_or_invalid
                  (first_immediate [KEY_ID_CSR_SPECIFIER_ID; KEY_ID_CSR_VENDOR_INFO]
                     quadlet count i)
           else specifier_id identifier;
         version :=
           if version identifier =? INVALID_KEY_VALUE
           then value_or_invalid
                  (first_immediate [KEY_ID_CSR_VERSION] quadlet count i)
           else version identifier |}.
Proof.
  induction count as [| count IH]; intros i [s v].
  - cbn [collect_identifier_loop first_immediate value_or_invalid
         specifier_id version].
    destruct (s =? INVALID_KEY_VALUE) eqn:Hs; [apply Z.eqb_eq in Hs |];
      (destruct (v =? INVALID_KEY_VALUE) eqn:Hv; [apply Z.eqb_eq in Hv |]);
      congruence.
  - cbn [collect_identifier_loop first_immediate]. rewrite IH.
    unfold collect_identifier_entry.
    pose proof (decode_directory_entry_value (quadlet i)) as Hvalue.
    destruct (decode_directory_entry (quadlet i)) as [[key_type kid] value].
    cbn [snd] in Hvalue. cbn [specifier_id version existsb].
    assert (Hvalid : (value =? INVALID_KEY_VALUE) = false).
    { apply Z.eqb_neq. unfold INVALID_KEY_VALUE. lia. }
    destruct (key_type =? KEY_TYPE_IMMEDIATE); cbn [andb]; [| reflexivity].
    destruct (kid =? KEY_ID_CSR_SPECIFIER_ID) eqn:H12.
    + apply Z.eqb_eq in H12. subst kid.
      change (KEY_ID_CSR_SPECIFIER_ID =? KEY_ID_CSR_VERSION) with false.
      cbn [orb value_or_invalid].
      destruct (s =? INVALID_KEY_VALUE) eqn:Hs; cbn [specifier_id version];
        rewrite ?Hs, ?Hvalid; reflexivity.
    + destruct (kid =? KEY_ID_CSR_VERSION) eqn:H13.
      * apply Z.eqb_eq in H13. subst kid.
        change (KEY_ID_CSR_VERSION =? KEY_ID_CSR_VENDOR_INFO) with false.
        cbn [orb value_or_invalid].
        destruct (v =? INVALID_KEY_VALUE) eqn:Hv; cbn [specifier_id version];
          rewrite ?Hv, ?Hvalid; reflexivity.
      * destruct (kid =? KEY_ID_CSR_VENDOR_INFO) eqn:H3; cbn [orb value_or_invalid].
        -- destruct (s =? INVALID_KEY_VALUE) eqn:Hs; cbn [specifier_id version];
             rewrite ?Hs, ?Hvalid; reflexivity.
        -- reflexivity.
Qed.

Lemma collect_identifier_loop_complete (quadlet : Z -> Z) (count : nat) (i : Z)
    (identifier : spec_identifier) :
  specifier_id identifier <> INVALID_KEY_VALUE ->
  version identifier <> INVALID_KEY_VALUE ->
  collect_identifier_loop quadlet count i identifier = identifier.
Proof.
  intros Hs Hv. rewrite collect_identifier_loop_fills.
  apply Z.eqb_neq in Hs, Hv. rewrite Hs, Hv. destruct identifier. reflexivity.
Qed.

Section Identifier.

Variable host : byte_order.
Variable data : list byte.

Lemma collect_identifier_walk_complete (head : list_head) (fuel : nat) :
  forall base identifier found,
    specifier_id identifier <> INVALID_KEY_VALUE ->
    version identifier <> INVALID_KEY_VALUE ->
    collect_identifier_walk host fuel data head base identifier = Some found ->
    found = identifier.
Proof.
  induction fuel as [| fuel IH]; intros base identifier found Hs Hv;
    cbn [collect_identifier_walk].
  - destruct base; [discriminate |]. intros H. apply Some_inj in H. auto.
  - destruct base as [address |].
    2:{ intros H. apply Some_inj in H. auto. }
    destruct (find_block head address) as [block |]; [| discriminate].
    cbv zeta. rewrite collect_identifier_loop_complete by assumption.
    destruct (block_type block);
      try (intros H; apply Some_inj in H; auto; fail).
    destruct (blk_data block) as [d |]; [| discriminate].
    apply IH; assumption.
Qed.

(** X21.  The loop over the entries of a directory takes the specifier id
    from the first immediate entry with the key of a specifier id or of a
    vendor, and the version from the first immediate entry with the key of
    a version; what the identifier already holds is kept. *)
Theorem collect_identifier_first_entries (quadlet : Z -> Z) (count : nat)
    (i : Z) :
  collect_identifier_loop quadlet count i invalid_identifier
  = {| specifier_id :=
         value_or_invalid
           (first_immediate [KEY_ID_CSR_SPECIFIER_ID; KEY_ID_CSR_VENDOR_INFO]
              quadlet count i);
       version :=
         value_or_invalid (first_immediate [KEY_ID_CSR_VERSION] quadlet count i) |}
  /\ forall identifier,
       specifier_id identifier <> INVALID_KEY_VALUE ->
       version identifier <> INVALID_KEY_VALUE ->
       collect_identifier_loop quadlet count i identifier = identifier.
Proof.
  split.
  - rewrite collect_identifier_loop_fills. reflexivity.
  - intros identifier. apply collect_identifier_loop_complete.
Qed.

(** X22.  The nearest directory decides: when the entries of the directory
    the walk starts from give both a specifier id and a version, the walk
    returns this identifier, whatever the directories above hold. *)
Theorem nearest_directory_decides (head : list_head) (fuel : nat)
    (address : Z) (block : ieee1212_block) (found : spec_identifier) :
  find_block head address = Some block ->
  first_immediate [KEY_ID_CSR_SPECIFIER_ID; KEY_ID_CSR_VENDOR_INFO]
    (block_quadlet host data block) (Z.to_nat (blk_length block / 4 - 1)) 1
  <> None ->
  first_immediate [KEY_ID_CSR_VERSION]
    (block_quadlet host data block) (Z.to_nat (blk_length block / 4 - 1)) 1
  <> None ->
  collect_identifier_walk host fuel data head (Some address) invalid_identifier
  = Some found ->
  found
  = collect_identifier_loop (block_quadlet host data block)
      (Z.to_nat (blk_length block / 4 - 1)) 1 invalid_identifier.
Proof.
  intros Hblock Hs Hv.
  destruct fuel as [| fuel]; cbn [collect_identifier_walk]; [discriminate |].
  rewrite Hblock. cbv zeta.
  set (own := collect_identifier_loop _ _ _ _).
  assert (Hown : specifier_id own <> INVALID_KEY_VALUE
                 /\ version own <> INVALID_KEY_VALUE).
  { unfold own. rewrite collect_identifier_loop_fills.
    cbn [specifier_id version invalid_identifier].
    rewrite Z.eqb_refl.
    assert (Hfirst : forall keys quadlet count i,
               first_immediate keys quadlet count i <> None ->
               value_or_invalid (first_immediate keys quadlet count i)
               <> INVALID_KEY_VALUE).
    { intros keys quadlet count.
      induction count as [| count IH]; intros i; cbn [first_immediate];
        [congruence |].
      pose proof (decode_directory_entry_value (quadlet i)) as Hvalue.
      destruct (decode_directory_entry (quadlet i)) as [[key_type kid] value].
      cbn [snd] in Hvalue.
      destruct (_ && _); [| apply IH].
      intros _. cbn [value_or_invalid]. unfold INVALID_KEY_VALUE. lia. }
    split; apply Hfirst; assumption. }
  destruct Hown as [Hos Hov].
  destruct (block_type block);
    try (intros H; apply Some_inj in H; auto; fail).
  destruct (blk_data block) as [d |]; [| discriminate].
  intros H. eapply collect_identifier_walk_complete; eauto.
Qed.

End Identifier.

Lemma nearest_directory_decides_sample :
  {| specifier_id := OUI_INCITS; version := SPEC_VERSION_SBP |}
  = collect_identifier_loop
      (block_quadlet LittleEndian (image LittleEndian sample_rom)
         (new_block IEEE1212_DIRECTORY_BLOCK 48 16 KEY_ID_CSR_UNIT 20))
      (Z.to_nat
         (blk_length (new_block IEEE1212_DIRECTORY_BLOCK 48 16 KEY_ID_CSR_UNIT 20)
          / 4 - 1))
      1 invalid_identifier.
Proof.
  apply (nearest_directory_decides LittleEndian (image LittleEndian sample_rom)
           sample_blocks 6 48).
  - vm_compute. reflexivity.
  - vm_compute. discriminate.
  - vm_compute. discriminate.
  - vm_compute. reflexivity.
Defined.

(** * Byte order *)

Lemma lor_add (a c k : Z) :
  0 <= k -> 0 <= a < 2 ^ k -> Z.lor a (c * 2 ^ k) = a + c * 2 ^ k.
Proof.
  intros Hk Ha.
  assert (Hland : Z.land a (c * 2 ^ k) = 0).
  { apply Z.bits_inj'. intros n Hn. rewrite Z.land_spec, Z.bits_0.
    destruct (Z.lt_ge_cases n k) as [Hlt | Hge].
    - rewrite Z.mul_pow2_bits_low by lia. apply andb_false_r.
    - replace (Z.testbit a n) with false; [reflexivity |].
      symmetry. destruct (Z.eq_dec a 0) as [-> | Hne]; [apply Z.bits_0 |].
      apply Z.bits_above_log2; [lia |].
      apply Z.lt_le_trans with k; [| exact Hge].
      apply Z.log2_lt_pow2; lia. }
  rewrite <- Z.lxor_lor by exact Hland. symmetry.
  apply Z.add_nocarry_lxor, Hland.
Qed.

Lemma quadlet_of_bytes_value (host : byte_order) (b0 b1 b2 b3 : Z) :
  0 <= b0 < 256 -> 0 <= b1 < 256 -> 0 <= b2 < 256 -> 0 <= b3 < 256 ->
  quadlet_of_bytes host b0 b1 b2 b3
  = match host with
    | LittleEndian => b0 + b1 * 2 ^ 8 + b2 * 2 ^ 16 + b3 * 2 ^ 24
    | BigEndian => b3 + b2 * 2 ^ 8 + b1 * 2 ^ 16 + b0 * 2 ^ 24
    end.
Proof.
  intros H0 H1 H2 H3.
  assert (Hsum : forall x y z w,
             0 <= x < 256 -> 0 <= y < 256 -> 0 <= z < 256 -> 0 <= w < 256 ->
             Z.lor x (Z.lor (Z.shiftl y 8) (Z.lor (Z.shiftl z 16) (Z.shiftl w 24)))
             = x + y * 2 ^ 8 + z * 2 ^ 16 + w * 2 ^ 24).
  { intros x y z w Hx Hy Hz Hw. rewrite !Z.shiftl_mul_pow2 by lia.
    rewrite (lor_add (z * 2 ^ 16) w 24) by lia.
    replace (z * 2 ^ 16 + w * 2 ^ 24) with ((z + w * 2 ^ 8) * 2 ^ 16) by lia.
    rewrite (lor_add (y * 2 ^ 8) (z + w * 2 ^ 8) 16) by lia.
    replace (y * 2 ^ 8 + (z + w * 2 ^ 8) * 2 ^ 16)
      with ((y + z * 2 ^ 8 + w * 2 ^ 16) * 2 ^ 8) by lia.
    rewrite (lor_add x _ 8) by lia. lia. }
  destruct host; cbn [quadlet_of_bytes]; apply Hsum; assumption.
Qed.

Lemma byte_field (q k : Z) :
  0 <= k -> Z.land (Z.shiftr q k) 255 = (q / 2 ^ k) mod 256.
Proof.
  intros Hk. change 255 with (Z.ones 8).
  rewrite Z.land_ones, Z.shiftr_div_pow2 by lia. reflexivity.
Qed.

Lemma byte_at_range (data : list byte) (i : Z) : 0 <= byte_at data i < 256.
Proof.
  unfold byte_at. destruct (i <? 0); [lia |].
  pose proof (Byte.to_N_bounded (nth (Z.to_nat i) data Byte.x00)). lia.
Qed.

Lemma byte_of_Z_value (z : Z) : Z.of_N (Byte.to_N (byte_of_Z z)) = z mod 256.
Proof.
  unfold byte_of_Z.
  pose proof (Z.mod_pos_bound z 256 ltac:(lia)) as Hz.
  pose proof (Byte.to_of_N_option_map (Z.to_N (z mod 256))) as H.
  replace (Z.to_N (z mod 256) <=? 255)%N with true in H
    by (symmetry; apply N.leb_le; lia).
  destruct (Byte.of_N (Z.to_N (z mod 256))) as [b |]; [| discriminate].
  cbn [option_map] in H. apply Some_inj in H. rewrite H. lia.
Qed.

Section ByteOrder.

Variable host : byte_order.

Lemma load32_range (data : list byte) (offset : Z) :
  0 <= load32 host data offset < 2 ^ 32.
Proof.
  unfold load32.
  pose proof (byte_at_range data offset).
  pose proof (byte_at_range data (offset + 1)).
  pose proof (byte_at_range data (offset + 2)).
  pose proof (byte_at_range data (offset + 3)).
  rewrite quadlet_of_bytes_value by assumption. destruct host; lia.
Qed.

(** [be32toh] of what the host reads is what a big-endian host reads. *)
Lemma be32toh_load32 (data : list byte) (offset : Z) :
  be32toh host (load32 host data offset) = load32 BigEndian data offset.
Proof.
  unfold load32.
  pose proof (byte_at_range data offset) as H0.
  pose proof (byte_at_range data (offset + 1)) as H1.
  pose proof (byte_at_range data (offset + 2)) as H2.
  pose proof (byte_at_range data (offset + 3)) as H3.
  set (b0 := byte_at data offset) in *.
  set (b1 := byte_at data (offset + 1)) in *.
  set (b2 := byte_at data (offset + 2)) in *.
  set (b3 := byte_at data (offset + 3)) in *.
  destruct host; cbn [be32toh]; [| reflexivity].
  rewrite (quadlet_of_bytes_value BigEndian) by assumption.
  rewrite (quadlet_of_bytes_value LittleEndian) by assumption.
  set (q := b0 + b1 * 2 ^ 8 + b2 * 2 ^ 16 + b3 * 2 ^ 24).
  unfold bswap_32.
  rewrite !byte_field by lia.
  replace (Z.land q 255) with (q mod 256)
    by (change 255 with (Z.ones 8); rewrite Z.land_ones by lia; reflexivity).
  assert (E0 : q mod 256 = b0) by (unfold q; Z.div_mod_to_equations; lia).
  assert (E1 : (q / 2 ^ 8) mod 256 = b1) by (unfold q; Z.div_mod_to_equations; lia).
  assert (E2 : (q / 2 ^ 16) mod 256 = b2)
    by (unfold q; Z.div_mod_to_equations; lia).
  assert (E3 : (q / 2 ^ 24) mod 256 = b3)
    by (unfold q; Z.div_mod_to_equations; lia).
  rewrite E0, E1, E2, E3. rewrite !Z.shiftl_mul_pow2 by lia.
  rewrite (Z.lor_comm (b2 * 2 ^ 8) b3), (lor_add b3 b2 8) by lia.
  rewrite (Z.lor_comm (b1 * 2 ^ 16)), (lor_add _ b1 16) by lia.
  rewrite (Z.lor_comm (b0 * 2 ^ 24)), (lor_add _ b0 24) by lia.
  reflexivity.
Qed.

(** The bytes a quadlet is stored as read back as the quadlet. *)
Lemma quadlet_of_bytes_of_quadlet (q : Z) (rest : list byte) :
  0 <= q < 2 ^ 32 ->
  load32 host (bytes_of_quadlet host q ++ rest) 0 = q.
Proof.
  intros Hq. unfold load32, byte_at.
  change (0 <? 0) with false. change (0 + 1 <? 0) with false.
  change (0 + 2 <? 0) with false. change (0 + 3 <? 0) with false.
  change (Z.to_nat 0) with 0%nat. change (Z.to_nat (0 + 1)) with 1%nat.
  change (Z.to_nat (0 + 2)) with 2%nat. change (Z.to_nat (0 + 3)) with 3%nat.
  cbv iota.
  assert (Hf : forall k, 0 <= k ->
             Z.of_N (Byte.to_N (byte_of_Z (Z.land (Z.shiftr q k) 255)))
             = (q / 2 ^ k) mod 256).
  { intros k Hk. rewrite byte_of_Z_value, byte_field by lia.
    apply Z.mod_mod. lia. }
  destruct host; cbn [bytes_of_quadlet app nth]; rewrite !Hf by lia;
    rewrite quadlet_of_bytes_value by (apply Z.mod_pos_bound; lia);
    Z.div_mod_to_equations; lia.
Qed.

End ByteOrder.

Lemma byte_at_app (pre l : list byte) (j : Z) :
  0 <= j -> byte_at (pre ++ l) (Z.of_nat (List.length pre) + j) = byte_at l j.
Proof.
  intros Hj. unfold byte_at.
  replace (Z.of_nat (List.length pre) + j <? 0) with false
    by (symmetry; apply Z.ltb_ge; lia).
  replace (j <? 0) with false by (symmetry; apply Z.ltb_ge; lia).
  rewrite app_nth2 by lia. do 3 f_equal. lia.
Qed.

Lemma load32_app (host : byte_order) (pre l : list byte) :
  load32 host (pre ++ l) (Z.of_nat (List.length pre)) = load32 host l 0.
Proof.
  unfold load32.
  rewrite <- (Z.add_0_r (Z.of_nat (List.length pre))) at 1.
  rewrite !byte_at_app by lia. reflexivity.
Qed.

Lemma length_bytes_of_quadlet (host : byte_order) (q : Z) :
  List.length (bytes_of_quadlet host q) = 4%nat.
Proof. destruct host; reflexivity. Qed.

Lemma length_flat_map_quadlets (host : byte_order) (f : nat -> Z) (l : list nat) :
  List.length (flat_map (fun i => bytes_of_quadlet host (f i)) l)
  = (4 * List.length l)%nat.
Proof.
  induction l as [| x l IH]; cbn [flat_map List.length]; [reflexivity |].
  rewrite length_app, length_bytes_of_quadlet, IH. lia.
Qed.

(** X23.  The conversion loop of [main] leaves every whole quadlet of the
    buffer so that the host reads the value that the bytes of the input
    have in big-endian order. *)
Theorem converted_quadlets_are_big_endian (host : byte_order)
    (data : list byte) (length i : Z) :
  0 <= i < length / 4 ->
  load32 host (convert_quadlets host data length) (4 * i)
  = load32 BigEndian data (4 * i).
Proof.
  intros Hi. unfold convert_quadlets. cbv zeta.
  set (count := Z.to_nat (length / 4)).
  set (f := fun k : nat => be32toh host (load32 host data (4 * Z.of_nat k))).
  change (flat_map _ (seq 0 count))
    with (flat_map (fun k => bytes_of_quadlet host (f k)) (seq 0 count)).
  assert (Hsplit : count = (Z.to_nat i + S (count - Z.to_nat i - 1))%nat)
    by (unfold count; lia).
  rewrite Hsplit, seq_app, flat_map_app at 1.
  cbn [seq flat_map]. rewrite <- !app_assoc.
  set (pre := flat_map _ (seq 0 (Z.to_nat i))).
  assert (Hpre : 4 * i = Z.of_nat (List.length pre)).
  { unfold pre. rewrite length_flat_map_quadlets, length_seq. lia. }
  rewrite Hpre, load32_app, <- Hpre.
  rewrite quadlet_of_bytes_of_quadlet.
  - unfold f. rewrite be32toh_load32. do 2 f_equal. lia.
  - unfold f. rewrite be32toh_load32. apply load32_range.
Qed.

Lemma converted_quadlets_are_big_endian_sample :
  load32 LittleEndian
    (convert_quadlets LittleEndian (image BigEndian sample_rom) 68) (4 * 1)
  = load32 BigEndian (image BigEndian sample_rom) (4 * 1).
Proof.
  apply (converted_quadlets_are_big_endian LittleEndian
           (image BigEndian sample_rom) 68 1).
  vm_compute. split; [discriminate | reflexivity].
Defined.

(** X24.  An image that holds the bus name "1394" in big-endian order is
    never converted: a little-endian host reads the quadlet as
    [0x34393331], a big-endian host as [0x31333934], and the detector
    looks for [0x1394]. *)
Theorem big_endian_image_is_not_converted (host : byte_order)
    (data : list byte) (length : Z) :
  load32 BigEndian data 4 = 0x31333934 ->
  load32 host data 4
  = match host with
    | LittleEndian => 0x34393331
    | BigEndian => 0x31333934
    end
  /\ bus_info_block_is_big_endian host data length 0 = false
  /\ host_order_data host data length = data.
Proof.
  intros Hbe.
  assert (Hq : load32 host data 4
               = match host with
                 | LittleEndian => 0x34393331
                 | BigEndian => 0x31333934
                 end).
  { destruct host; [| exact Hbe].
    unfold load32 in *.
    pose proof (byte_at_range data 4) as H0.
    pose proof (byte_at_range data (4 + 1)) as H1.
    pose proof (byte_at_range data (4 + 2)) as H2.
    pose proof (byte_at_range data (4 + 3)) as H3.
    rewrite quadlet_of_bytes_value in Hbe |- * by assumption. lia. }
  split; [exact Hq |].
  assert (Hd : bus_info_block_is_big_endian host data length 0 = false).
  { rewrite bus_info_block_is_big_endian_spec, Hq. destruct host; reflexivity. }
  split; [exact Hd |].
  unfold host_order_data. rewrite Hd. reflexivity.
Qed.

Lemma big_endian_image_is_not_converted_sample :
  load32 LittleEndian (image BigEndian sample_rom) 4 = 0x34393331
  /\ bus_info_block_is_big_endian LittleEndian (image BigEndian sample_rom) 68 0
     = false
  /\ host_order_data LittleEndian (image BigEndian sample_rom) 68
     = image BigEndian sample_rom.
Proof.
  apply (big_endian_image_is_not_converted LittleEndian
           (image BigEndian sample_rom) 68).
  vm_compute. reflexivity.
Defined.

(** * The width of the prefix *)

Lemma length_append (a b : string) :
  String.length (a +++ b) = (String.length a + String.length b)%nat.
Proof.
  induction a as [| x a IH]; cbn [String.append String.length]; [reflexivity |].
  rewrite IH. reflexivity.
Qed.

Lemma length_fill (c : ascii) (n : nat) : String.length (fill c n) = n.
Proof. induction n as [| n IH]; cbn [fill String.length]; auto. Qed.

Lemma length_digits_of (base : Z) (fuel : nat) :
  1 < base ->
  forall (k : nat) n acc,
    (1 <= k <= fuel)%nat ->
    0 <= n < base ^ Z.of_nat k ->
    (String.length acc + 1 <= String.length (digits_of base fuel n acc)
     <= String.length acc + k)%nat.
Proof.
  intros Hbase. induction fuel as [| fuel IH]; intros k n acc Hk Hn; [lia |].
  cbn [digits_of]. destruct (n / base =? 0) eqn:Hq.
  - cbn [String.length]. lia.
  - apply Z.eqb_neq in Hq.
    assert (Hk2 : (2 <= k)%nat).
    { destruct k as [| [| k]]; [lia | | lia].
      exfalso. apply Hq. apply Z.div_small. cbn in Hn. lia. }
    assert (Hn' : 0 <= n / base < base ^ Z.of_nat (k - 1)).
    { split; [apply Z.div_pos; lia |].
      apply Z.div_lt_upper_bound; [lia |].
      replace (base * base ^ Z.of_nat (k - 1)) with (base ^ Z.of_nat k); [lia |].
      replace (Z.of_nat k) with (Z.succ (Z.of_nat (k - 1))) by lia.
      rewrite Z.pow_succ_r by lia. reflexivity. }
    specialize (IH (k - 1)%nat (n / base)
                  (String (digit_char (n mod base)) acc) ltac:(lia) Hn').
    cbn [String.length] in IH. lia.
Qed.

Lemma length_pad_left (c : ascii) (width : nat) (s : string) :
  (String.length s <= width)%nat ->
  String.length (pad_left c width s) = width.
Proof.
  intros Hs. unfold pad_left. rewrite length_append, length_fill. lia.
Qed.

(** X25.  For an offset within the ROM and a quadlet of 32 bits the
    prefix of a line is as wide as the blank prefix, fifteen characters, so
    that the columns of the listing line up. *)
Theorem format_line_prefix_width (offset quadlet : Z) :
  0 <= offset < 0xc00 ->
  0 <= quadlet < 2 ^ 32 ->
  String.length (format_line_prefix offset quadlet true)
  = String.length format_blank_prefix
  /\ String.length (format_line_prefix offset quadlet true) = 15%nat
  /\ String.length (format_line_prefix offset quadlet false) = 13%nat.
Proof.
  intros Ho Hq.
  assert (Hoff : String.length (hex_blank 3 (offset + IEEE1212_CONFIG_ROM_OFFSET))
                 = 3%nat).
  { apply length_pad_left. unfold hex.
    pose proof (length_digits_of 16 64 ltac:(lia) 3
                  (offset + IEEE1212_CONFIG_ROM_OFFSET) EmptyString ltac:(lia))
      as H.
    cbn [String.length] in H. apply H.
    unfold IEEE1212_CONFIG_ROM_OFFSET. change (16 ^ Z.of_nat 3) with 4096. lia. }
  assert (Hquad : String.length (hex_zero 8 quadlet) = 8%nat).
  { apply length_pad_left. unfold hex.
    pose proof (length_digits_of 16 64 ltac:(lia) 8 quadlet EmptyString
                  ltac:(lia)) as H.
    cbn [String.length] in H. apply H.
    change (16 ^ Z.of_nat 8) with (2 ^ 32). lia. }
  assert (Hblank : String.length format_blank_prefix = 15%nat)
    by (vm_compute; reflexivity).
  unfold format_line_prefix. cbv zeta.
  rewrite !length_append, Hoff, Hquad, Hblank. cbn [String.length].
  repeat split; reflexivity.
Qed.

Lemma format_line_prefix_width_sample :
  String.length (format_line_prefix 0x40 0xdeadbeef true)
  = String.length format_blank_prefix
  /\ String.length (format_line_prefix 0x40 0xdeadbeef true) = 15%nat
  /\ String.length (format_line_prefix 0x40 0xdeadbeef false) = 13%nat.
Proof.
  apply (format_line_prefix_width 0x40 0xdeadbeef); lia.
Defined.

(** * Descriptor leaves *)

(** X26.  The first line of the content of a descriptor leaf whose type
    is neither textual nor icon gives the type and the specifier id 0,
    whatever the specifier id of the descriptor is: the field is read as
    [(quadlet & 0x00ffffff) & 0]. *)
Theorem descriptor_specifier_is_printed_as_zero (offset : Z) (quadlet : Z -> Z)
    (quadlet_count : Z) :
  1 <= quadlet_count ->
  (quadlet 0 / 2 ^ 24) mod 2 ^ 8 <> CSR_DESC_TYPE_TEXTUAL ->
  (quadlet 0 / 2 ^ 24) mod 2 ^ 8 <> CSR_DESC_TYPE_ICON ->
  hd_error (format_csr_descriptor_leaf_content offset quadlet quadlet_count)
  = Some (format_line_prefix offset (quadlet 0) true
            +++ "descriptor_type " +++ hex_zero 2 ((quadlet 0 / 2 ^ 24) mod 2 ^ 8)
            +++ ", specifier_ID 0").
Proof.
  intros Hcount Htext Hicon. unfold format_csr_descriptor_leaf_content.
  replace (quadlet_count <? 1) with false by (symmetry; apply Z.ltb_ge; lia).
  cbv zeta.
  change CSR_DESC_TYPE_MASK with (Z.shiftl (Z.ones 8) 24).
  unfold CSR_DESC_TYPE_SHIFT. rewrite land_field by lia.
  apply Z.eqb_neq in Htext, Hicon. rewrite Htext, Hicon.
  unfold CSR_SPEC_SHIFT. rewrite Z.land_0_r.
  change (hex 0) with "0". cbn [hd_error]. reflexivity.
Qed.

Lemma descriptor_specifier_is_printed_as_zero_sample :
  hd_error
    (format_csr_descriptor_leaf_content 0x28 (fun _ => 0x02abcdef) 1)
  = Some (format_line_prefix 0x28 0x02abcdef true
            +++ "descriptor_type " +++ hex_zero 2 ((0x02abcdef / 2 ^ 24) mod 2 ^ 8)
            +++ ", specifier_ID 0").
Proof.
  apply (descriptor_specifier_is_printed_as_zero 0x28 (fun _ => 0x02abcdef) 1).
  - lia.
  - vm_compute. discriminate.
  - vm_compute. discriminate.
Defined.

(** * Lines of blocks *)

Lemma lines_loop_nth (line : Z -> string) (count : nat) :
  forall (first : Z) (k : nat),
    (k < count)%nat ->
    nth_error (lines_loop line count first) k = Some (line (first + Z.of_nat k)).
Proof.
  induction count as [| count IH]; intros first k Hk; [lia |].
  cbn [lines_loop]. destruct k as [| k]; cbn [nth_error].
  - do 2 f_equal. lia.
  - rewrite IH by lia. do 2 f_equal. lia.
Qed.

Lemma lines_loop_in (line : Z -> string) (count : nat) :
  forall (first : Z) (text : string),
    In text (lines_loop line count first) ->
    exists i, first <= i < first + Z.of_nat count /\ text = line i.
Proof.
  induction count as [| count IH]; intros first text Hin; [destruct Hin |].
  cbn [lines_loop] in Hin. destruct Hin as [<- | Hin].
  - exists first. split; [lia | reflexivity].
  - destruct (IH _ _ Hin) as (i & Hi & ->). exists i. split; [lia | reflexivity].
Qed.

(** X27.  An orphan block is printed quadlet by quadlet: one line for
    each whole quadlet, with the address and the value of the quadlet and
    the remark that nothing refers to it. *)
Theorem format_orphan_block_lines (host : byte_order) (data : list byte)
    (orphan : ieee1212_block) (data_length : Z) :
  List.length (format_orphan_block host data orphan data_length)
  = Z.to_nat (blk_length orphan / 4)
  /\ forall k,
       (k < Z.to_nat (blk_length orphan / 4))%nat ->
       nth_error (format_orphan_block host data orphan data_length) k
       = Some (format_line_prefix (blk_offset orphan + 4 * Z.of_nat k)
                 (load32 host data (blk_offset orphan + 4 * Z.of_nat k)) true
                 +++ "(unreferenced data)").
Proof.
  unfold format_orphan_block. cbv zeta. split.
  - apply lines_loop_length.
  - intros k Hk. rewrite lines_loop_nth by exact Hk.
    unfold block_quadlet. rewrite Z.add_0_l.
    replace (blk_offset orphan + Z.of_nat k * 4)
      with (blk_offset orphan + 4 * Z.of_nat k) by lia.
    reflexivity.
Qed.

(** X28.  The quadlets of a bus information block behind the fifth are
    printed one on a line, and every one of these lines carries the
    address of the sixth quadlet. *)
Theorem bus_info_tail_has_one_address (host : byte_order) (data : list byte)
    (bus_info : ieee1212_block) (data_length : Z) :
  exists front tail,
    format_bus_info_block host data bus_info data_length = front ++ tail
    /\ List.length tail = Z.to_nat (blk_length bus_info / 4 - 5)
    /\ forall text,
         In text tail ->
         exists i,
           5 <= i < blk_length bus_info / 4
           /\ text
              = format_line_prefix (blk_offset bus_info + 20)
                  (load32 host data (blk_offset bus_info + 4 * i)) false.
Proof.
  unfold format_bus_info_block. cbv zeta.
  destruct (bus_entry _) as [name format].
  rewrite !app_assoc. eexists. eexists. split; [reflexivity |]. split.
  - apply lines_loop_length.
  - intros text Hin. apply lines_loop_in in Hin.
    destruct Hin as (i & Hi & ->). exists i. split; [lia |].
    reflexivity.
Qed.

(** * The annotation of the length *)

Lemma contains_no_first (c : ascii) (needle a : string) :
  occurs c a = false -> contains (String c needle) a = false.
Proof.
  induction a as [| x a IH]; intros Ha; [reflexivity |].
  cbn [occurs] in Ha. apply orb_false_iff in Ha. destruct Ha as [Hx Ha].
  cbn [contains String.prefix].
  destruct (ascii_dec c x) as [<- | _].
  - rewrite Ascii.eqb_refl in Hx. discriminate.
  - cbn [orb]. apply IH, Ha.
Qed.

Lemma contains_cons (needle : string) (x : ascii) (s : string) :
  contains needle (String x s)
  = String.prefix needle (String x s) || contains needle s.
Proof. reflexivity. Qed.

Lemma prefix_cons_same (c : ascii) (needle s : string) :
  String.prefix (String c needle) (String c s) = String.prefix needle s.
Proof.
  cbn [String.prefix]. destruct (ascii_dec c c); [reflexivity | congruence].
Qed.

Lemma prefix_cons_diff (c x : ascii) (needle s : string) :
  c <> x -> String.prefix (String c needle) (String x s) = false.
Proof.
  intros Hne. cbn [String.prefix].
  destruct (ascii_dec c x); [contradiction | reflexivity].
Qed.

(** The header line says the actual length exactly when the declared
    length is not the length of the block. *)
Lemma actual_length_in_header (offset : Z) (block_name : string)
    (quadlet : Z -> Z) (quadlet_count : Z) :
  occurs "(" block_name = false ->
  (contains "(actual length "
     (format_line_prefix offset (quadlet 0) true
        +++ format_block_metadata block_name quadlet quadlet_count)
   = true
   <-> 1 + (quadlet 0 / 2 ^ 16) mod 2 ^ 16 <> quadlet_count).
Proof.
  intros Hname. unfold format_block_metadata. cbv zeta.
  change IEEE1212_BLOCK_LENGTH_MASK with (Z.shiftl (Z.ones 16) 16).
  unfold IEEE1212_BLOCK_LENGTH_SHIFT. rewrite land_field by lia.
  set (declared := (quadlet 0 / 2 ^ 16) mod 2 ^ 16).
  set (crc := Z.shiftr _ _).
  set (actual := compute_itu_t_crc_16 _ _).
  pose proof not_hex_digit_paren as Hparen.
  destruct (1 + declared =? quadlet_count) eqn:Hcmp; cbn [negb].
  - apply Z.eqb_eq in Hcmp. split; [| congruence]. intros Hc. exfalso.
    rewrite (contains_skip "(") in Hc
      by (apply occurs_line_prefix; auto; discriminate).
    rewrite (contains_skip "(") in Hc by exact Hname.
    rewrite (contains_skip "(" _ "_length ") in Hc by reflexivity.
    rewrite (contains_skip "(") in Hc by (apply occurs_dec_other; auto).
    rewrite (contains_skip "(" _ EmptyString) in Hc by reflexivity.
    rewrite (contains_skip "(" _ ", crc ") in Hc by reflexivity.
    rewrite (contains_skip "(") in Hc by (apply occurs_dec_other; auto).
    destruct (negb (crc =? actual)); [| discriminate].
    change (" (should be " +++ dec actual +++ ")")
      with (" " +++ String "(" (String "s" ("hould be " +++ (dec actual +++ ")"))))
      in Hc.
    rewrite (contains_skip "(" _ " ") in Hc by reflexivity.
    rewrite contains_cons, prefix_cons_same in Hc.
    rewrite prefix_cons_diff in Hc by discriminate.
    rewrite (contains_no_first "(") in Hc; [discriminate |].
    change (String "s" ("hould be " +++ (dec actual +++ ")")))
      with ("should be " +++ (dec actual +++ ")")).
    rewrite !occurs_append, occurs_dec_other by auto. reflexivity.
  - apply Z.eqb_neq in Hcmp. split; [auto | intros _].
    do 4 apply contains_append_r. apply contains_append_l.
    change (" (actual length " +++ dec (quadlet_count - 1) +++ ")")
      with (" " +++ ("(actual length " +++ dec (quadlet_count - 1) +++ ")")).
    apply contains_append_r, contains_prefix, prefix_append.
Qed.

(** X30.  The header of a root directory, a directory or a leaf gives the
    actual length exactly when the length the first quadlet declares is
    not the length the analysis gave the block, which is the case for a
    block that was shortened or whose declared length wrapped around. *)
Theorem block_length_annotation (host : byte_order) (data : list byte)
    (head : list_head) (block : ieee1212_block) (data_length : Z)
    (lines : list string) :
  block_type block <> IEEE1212_BUS_INFO_BLOCK ->
  block_type block <> ORPHAN_BLOCK ->
  4 <= blk_length block ->
  format_block host data head block data_length = Some lines ->
  exists header,
    nth_error lines 2 = Some header
    /\ (contains "(actual length " header = true
        <-> 1 + (block_quadlet host data block 0 / 2 ^ 16) mod 2 ^ 16
            <> blk_length block / 4).
Proof.
  intros Hbus Horphan Hlen.
  assert (Hcount : exists k, Z.to_nat (blk_length block / 4) = S k).
  { assert (1 <= blk_length block / 4) by (apply Z.div_le_lower_bound; lia).
    exists (Z.to_nat (blk_length block / 4) - 1)%nat. lia. }
  destruct Hcount as [k Hk].
  unfold format_block. destruct (block_type block); try contradiction.
  - intros H. apply Some_inj in H. subst lines.
    unfold format_root_directory_block, format_directory_entries. cbv zeta.
    rewrite Hk. cbn [firstn app nth_error].
    eexists. split; [reflexivity |].
    apply actual_length_in_header. reflexivity.
  - unfold format_leaf_block.
    destruct (blk_data block) as [d |]; [| discriminate].
    destruct (collect_identifier_walk _ _ _ _ _ _) as [found |]; [| discriminate].
    destruct (detect_key_formatter found KEY_TYPE_LEAF (key_id d)) as [f name].
    destruct (format_content f) as [| immediate | leaf |]; try discriminate.
    destruct (leaf _ _ _) as [content |]; [| discriminate].
    intros H. apply Some_inj in H. subst lines.
    cbn [app nth_error].
    eexists. split; [reflexivity |].
    apply actual_length_in_header. reflexivity.
  - unfold format_directory_block.
    destruct (blk_data block) as [d |]; [| discriminate].
    destruct (directory_base block d) as [base |]; [| discriminate].
    destruct (collect_identifier_walk _ _ _ _ _ _) as [found |]; [| discriminate].
    destruct (detect_key_formatter found KEY_TYPE_DIRECTORY (key_id d))
      as [f name].
    destruct (format_content f); try discriminate.
    intros H. apply Some_inj in H. subst lines.
    unfold format_directory_entries. rewrite Hk. cbn [firstn app nth_error].
    eexists. split; [reflexivity |].
    apply actual_length_in_header. reflexivity.
Qed.

Lemma block_length_annotation_sample :
  exists header,
    nth_error
      (format_root_directory_block LittleEndian (image LittleEndian sample_rom)
         (root_descriptor LittleEndian (image LittleEndian sample_rom)) 68) 2
    = Some header
    /\ (contains "(actual length " header = true
        <-> 1 + (block_quadlet LittleEndian (image LittleEndian sample_rom)
                   (root_descriptor LittleEndian (image LittleEndian sample_rom)) 0
                 / 2 ^ 16) mod 2 ^ 16
            <> blk_length
                 (root_descriptor LittleEndian (image LittleEndian sample_rom)) / 4).
Proof.
  apply (block_length_annotation LittleEndian (image LittleEndian sample_rom)
           sample_blocks
           (root_descriptor LittleEndian (image LittleEndian sample_rom)) 68).
  - discriminate.
  - discriminate.
  - vm_compute. discriminate.
  - reflexivity.
Defined.

(** * An image that makes the printer read behind the array *)

(** The leaf of [overrun_rom] is the last quadlet of the array, and the
    printer of the IIDC leaves reads the two quadlets behind it. *)
Example iidc_leaf_in_last_quadlet :
  input_length (image LittleEndian overrun_rom) = DATA_SIZE
  /\ analyse_blocks LittleEndian (image LittleEndian overrun_rom) 1024
     = Ok [ {| blk_offset := 0; blk_length := 20;
               block_type := IEEE1212_BUS_INFO_BLOCK; blk_data := None |};
            {| blk_offset := 20; blk_length := 16;
               block_type := IEEE1212_ROOT_DIRECTORY_BLOCK; blk_data := None |};
            {| blk_offset := 36; blk_length := 984;
               block_type := ORPHAN_BLOCK; blk_data := None |};
            {| blk_offset := 1020; blk_length := 4;
               block_type := IEEE1212_LEAF_BLOCK;
               blk_data := Some {| key_id := KEY_ID_IIDC_VENDOR_NAME;
                                   parent := 20 |} |} ]
  /\ main LittleEndian false [] (ReadBytes (image LittleEndian overrun_rom)) = None.
Proof.
  vm_compute. repeat split; reflexivity.
Qed.

(** * Lines and the line buffer *)

Lemma line_prefix_length (offset quadlet : Z) :
  0 <= offset < 0xc00 ->
  0 <= quadlet < 2 ^ 32 ->
  String.length (format_line_prefix offset quadlet true) = 15%nat.
Proof.
  intros Ho Hq.
  assert (Hoff : String.length (hex_blank 3 (offset + IEEE1212_CONFIG_ROM_OFFSET))
                 = 3%nat).
  { apply length_pad_left. unfold hex.
    pose proof (length_digits_of 16 64 ltac:(lia) 3
                  (offset + IEEE1212_CONFIG_ROM_OFFSET) EmptyString ltac:(lia))
      as H.
    cbn [String.length] in H. apply H.
    unfold IEEE1212_CONFIG_ROM_OFFSET. change (16 ^ Z.of_nat 3) with 4096. lia. }
  assert (Hquad : String.length (hex_zero 8 quadlet) = 8%nat).
  { apply length_pad_left. unfold hex.
    pose proof (length_digits_of 16 64 ltac:(lia) 8 quadlet EmptyString
                  ltac:(lia)) as H.
    cbn [String.length] in H. apply H.
    change (16 ^ Z.of_nat 8) with (2 ^ 32). lia. }
  unfold format_line_prefix. cbv zeta.
  rewrite !length_append, Hoff, Hquad. reflexivity.
Qed.

Lemma substring_append_prefix (a b : string) (n : nat) :
  String.substring 0 (String.length a + n) (a +++ b)
  = a +++ String.substring 0 n b.
Proof.
  induction a as [| c a IH]; cbn [String.length Nat.add String.append];
    [reflexivity |].
  cbn [String.substring]. rewrite IH. reflexivity.
Qed.

Lemma substring_whole (s : string) (n : nat) :
  (String.length s <= n)%nat -> String.substring 0 n s = s.
Proof.
  revert n. induction s as [| c s IH]; intros n Hn.
  - destruct n; reflexivity.
  - destruct n as [| n]; cbn [String.length] in Hn; [lia |].
    cbn [String.substring]. rewrite IH by lia. reflexivity.
Qed.

(** What the line buffer keeps of a line that starts with the prefix. *)
Lemma clip_prefixed (prefix rest : string) :
  String.length prefix = 15%nat ->
  clip_line (prefix +++ rest) = prefix +++ String.substring 0 84 rest.
Proof.
  intros Hp. unfold clip_line.
  change (Z.to_nat (LINE_WIDTH - 1)) with (15 + 84)%nat. rewrite <- Hp.
  apply substring_append_prefix.
Qed.

Lemma clip_short (s : string) :
  (String.length s <= 99)%nat -> clip_line s = s.
Proof. intros H. unfold clip_line. apply substring_whole. exact H. Qed.

(** * The logical unit number of SBP *)

(** X17.  The line of a logical unit number entry in a unit directory of
    SBP-2 or of AV/C over SBP-3 names the device type "Disk" whatever the
    value of the entry is, the type being read as [(value & 0x1f) >> 16],
    which is 0.  The line buffer keeps the whole line, except under AV/C
    over SBP-3 for a value with the bits 23 and 21 set: there the line has
    101 characters and is printed up to "type Dis". *)
Theorem sbp_logical_unit_is_a_disk (directory_offset : Z) (quadlet : Z -> Z)
    (identifier' : spec_identifier) (i value : Z) :
  identifier' = spec_incits_sbp \/ identifier' = spec_incits_sbp_avc ->
  0 <= directory_offset + i * 4 < 0xc00 ->
  0 <= quadlet i < 2 ^ 32 ->
  decode_directory_entry (quadlet i)
  = (KEY_TYPE_IMMEDIATE, KEY_ID_SBP2_LOGICAL_UNIT_NUMBER, value) ->
  Z.shiftr (Z.land value 0x1f) 16 = 0
  /\ exists text,
       format_directory_entry_line directory_offset quadlet identifier' i
       = text +++ "type Disk,"
       /\ clip_line (text +++ "type Disk,")
          = text
              +++ (if spec_identifier_eqb identifier' spec_incits_sbp_avc
                      && (bit value 0x800000 23 =? 1)
                      && (bit value 0x200000 21 =? 1)
                   then "type Dis" else "type Disk,").
Proof.
  intros Hid Hoff Hq Hdec.
  assert (Hzero : Z.shiftr (Z.land value 0x1f) 16 = 0).
  { change 0x1f with (Z.ones 5). rewrite Z.land_ones by lia.
    rewrite Z.shiftr_div_pow2 by lia.
    pose proof (Z.mod_pos_bound value (2 ^ 5) ltac:(lia)).
    apply Z.div_small. lia. }
  split; [exact Hzero |].
  assert (Hord : Z.shiftr (Z.land value 0x400000) 22 = 0
                 \/ Z.shiftr (Z.land value 0x400000) 22 = 1).
  { change 0x400000 with (Z.shiftl (Z.ones 1) 22).
    rewrite land_field by lia.
    pose proof (Z.mod_pos_bound (value / 2 ^ 22) (2 ^ 1) ltac:(lia)). lia. }
  pose proof (line_prefix_length (directory_offset + i * 4) (quadlet i) Hoff Hq)
    as Hprefix.
  unfold format_directory_entry_line. cbv zeta. rewrite Hdec.
  remember (format_line_prefix (directory_offset + i * 4) (quadlet i) true)
    as prefix eqn:Heq.
  clear Heq.
  assert (Hsbp : detect_key_formatter spec_incits_sbp KEY_TYPE_IMMEDIATE
                   KEY_ID_SBP2_LOGICAL_UNIT_NUMBER
                 = (formatter KEY_TYPE_IMMEDIATE KEY_ID_SBP2_LOGICAL_UNIT_NUMBER
                      SBP2_LOGICAL_UNIT_NUMBER_NAME
                      (ImmediateContent
                         format_sbp_logical_unit_number_immediate_value),
                    Some SPEC_NAME_SBP)) by reflexivity.
  assert (Havc : detect_key_formatter spec_incits_sbp_avc KEY_TYPE_IMMEDIATE
                   KEY_ID_SBP2_LOGICAL_UNIT_NUMBER
                 = (formatter KEY_TYPE_IMMEDIATE KEY_ID_SBP2_LOGICAL_UNIT_NUMBER
                      SBP2_LOGICAL_UNIT_NUMBER_NAME
                      (ImmediateContent
                         format_sbp_logical_unit_number_immediate_value),
                    Some SPEC_NAME_SBP_AVC)) by reflexivity.
  destruct Hid as [-> | ->]; [rewrite Hsbp | rewrite Havc];
    cbv beta iota;
    change (format_entry KEY_TYPE_IMMEDIATE) with format_immediate_entry;
    unfold format_immediate_entry, format_entry_spec_name;
    cbv [kf_key_id format_content key_id_name formatter];
    change (negb (KEY_ID_SBP2_LOGICAL_UNIT_NUMBER =? INVALID_KEY_ID)) with true;
    cbv [format_sbp_logical_unit_number_immediate_value];
    rewrite Hzero;
    change (0 <? Z.of_nat (List.length device_types)) with true;
    cbv iota;
    destruct (bit value 0x800000 23 =? 1), (bit value 0x200000 21 =? 1);
    destruct Hord as [-> | ->];
    match goal with
    | |- exists text, prefix +++ ?body = _ /\ _ =>
        exists (prefix
                  +++ String.substring 0 (String.length body - 10) body)
    end;
    (split;
     [ rewrite (append_assoc prefix); f_equal; vm_compute; reflexivity
     | rewrite !(append_assoc prefix), (clip_prefixed prefix _ Hprefix);
       f_equal; vm_compute; reflexivity ]).
Qed.

Lemma sbp_logical_unit_is_a_disk_sample :
  Z.shiftr (Z.land 0xa00000 0x1f) 16 = 0
  /\ exists text,
       format_directory_entry_line 48 (fun _ => 0x14a00000) spec_incits_sbp_avc 3
       = text +++ "type Disk,"
       /\ clip_line (text +++ "type Disk,")
          = text
              +++ (if spec_identifier_eqb spec_incits_sbp_avc spec_incits_sbp_avc
                      && (bit 0xa00000 0x800000 23 =? 1)
                      && (bit 0xa00000 0x200000 21 =? 1)
                   then "type Dis" else "type Disk,").
Proof.
  apply (sbp_logical_unit_is_a_disk 48 (fun _ => 0x14a00000) spec_incits_sbp_avc
           3 0xa00000).
  - right. reflexivity.
  - lia.
  - cbv beta. lia.
  - reflexivity.
Defined.

(** * Entries and the blocks they point to *)

Lemma nth_error_firstn_lt {A : Type} (l : list A) (n k : nat) :
  (k < n)%nat -> nth_error (firstn n l) k = nth_error l k.
Proof.
  revert n k. induction l as [| x l IH]; intros n k Hk.
  - rewrite firstn_nil. reflexivity.
  - destruct n as [| n]; [lia |]. destruct k as [| k]; [reflexivity |].
    cbn [firstn nth_error]. apply IH. lia.
Qed.

(** The line of the entry [i] in the listing of a directory. *)
Lemma directory_entry_line_nth (title rule : string) (offset : Z)
    (quadlet : Z -> Z) (quadlet_count : Z) (identifier' : spec_identifier)
    (i : Z) :
  1 <= i < quadlet_count ->
  nth_error
    ([title; rule]
       ++ format_directory_entries offset quadlet quadlet_count identifier')
    (Z.to_nat (i + 2))
  = Some (format_directory_entry_line offset quadlet identifier' i).
Proof.
  intros Hi.
  rewrite nth_error_app2 by (cbn [List.length]; lia).
  replace (Z.to_nat (i + 2) - List.length [title; rule])%nat
    with (S (Z.to_nat (i - 1))) by (cbn [List.length]; lia).
  unfold format_directory_entries.
  rewrite nth_error_firstn_lt by lia. cbn [nth_error].
  rewrite lines_loop_nth by lia. do 2 f_equal. lia.
Qed.

Lemma known_key_names_short (f : key_formatter) :
  In f known_formatters -> (String.length (key_id_name f) <= 28)%nat.
Proof.
  assert (H : forallb (fun f => (String.length (key_id_name f) <=? 28)%nat)
                known_formatters = true) by (vm_compute; reflexivity).
  rewrite forallb_forall in H. intros Hin. apply Nat.leb_le. apply H, Hin.
Qed.

Lemma spec_names_short (entry : spec_entry) :
  In entry spec_entries -> (String.length (spec_name entry) <= 25)%nat.
Proof.
  assert (H : forallb (fun e => (String.length (spec_name e) <=? 25)%nat)
                spec_entries = true) by (vm_compute; reflexivity).
  rewrite forallb_forall in H. intros Hin. apply Nat.leb_le. apply H, Hin.
Qed.

(** The names [detect_key_formatter] hands to the printer of an entry. *)
Lemma detect_key_formatter_names (identifier' : spec_identifier)
    (key_type key_id : Z) (f : key_formatter) (name : option string) :
  detect_key_formatter identifier' key_type key_id = (f, name) ->
  (String.length (key_id_name f) <= 28)%nat
  /\ (String.length (format_entry_spec_name name) <= 26)%nat.
Proof.
  intros Hf. split.
  - apply detect_key_formatter_cases in Hf.
    destruct Hf as [(Hin & _) | [-> _]]; [apply known_key_names_short, Hin |].
    unfold default_formatters.
    destruct (key_type =? KEY_TYPE_IMMEDIATE);
      [| destruct (key_type =? KEY_TYPE_CSR_OFFSET);
         [| destruct (key_type =? KEY_TYPE_LEAF)]];
      vm_compute; lia.
  - unfold detect_key_formatter in Hf.
    assert (Hnone : forall g,
               match find_formatter ieee1394_bus_key_formatters key_type key_id
               with
               | Some formatter => (formatter, @None string)
               | None =>
                   match find_formatter csr_key_formatters key_type key_id with
                   | Some formatter => (formatter, None)
                   | None => (default_formatters key_type, None)
                   end
               end = (g, name) ->
               name = None).
    { intros g.
      destruct (find_formatter ieee1394_bus_key_formatters key_type key_id);
        [| destruct (find_formatter csr_key_formatters key_type key_id)];
        intros H; injection H as _ <-; reflexivity. }
    assert (Hempty : name = None ->
                     (String.length (format_entry_spec_name name) <= 26)%nat).
    { intros ->. cbn. lia. }
    destruct (find _ spec_entries) as [entry |] eqn:Hentry;
      [| apply Hempty, (Hnone f), Hf].
    destruct (find_formatter (formatters entry) key_type key_id) as [h |];
      [| apply Hempty, (Hnone f), Hf].
    injection Hf as _ <-.
    apply find_some in Hentry. destruct Hentry as [Hin _].
    pose proof (spec_names_short entry Hin).
    cbn [format_entry_spec_name]. rewrite length_append. cbn [String.length].
    lia.
Qed.

Lemma length_hex_three (n : Z) :
  0 <= n < 0x1000 -> (String.length (hex n) <= 3)%nat.
Proof.
  intros Hn. unfold hex.
  pose proof (length_digits_of 16 64 ltac:(lia) 3 n EmptyString ltac:(lia)) as H.
  cbn [String.length] in H. apply H. change (16 ^ Z.of_nat 3) with 4096. lia.
Qed.

(** The line of a leaf or directory entry ends with the address of its
    target, and the line buffer holds all of it. *)
Lemma pointer_entry_line (offset : Z) (quadlet : Z -> Z)
    (identifier' : spec_identifier) (i key_type key_id value : Z) :
  decode_directory_entry (quadlet i) = (key_type, key_id, value) ->
  key_type = KEY_TYPE_LEAF \/ key_type = KEY_TYPE_DIRECTORY ->
  0 <= offset + i * 4 < 0xc00 ->
  0 <= quadlet i < 2 ^ 32 ->
  0 <= offset + i * 4 + 4 * value < 0xc00 ->
  exists text,
    format_directory_entry_line offset quadlet identifier' i
    = text
        +++ (if key_type =? KEY_TYPE_LEAF then "leaf at " else "directory at ")
        +++ hex (IEEE1212_CONFIG_ROM_OFFSET + (offset + i * 4 + 4 * value))
    /\ clip_line (format_directory_entry_line offset quadlet identifier' i)
       = format_directory_entry_line offset quadlet identifier' i.
Proof.
  intros Hdec Hkind Hoff Hq Htarget.
  pose proof (line_prefix_length (offset + i * 4) (quadlet i) Hoff Hq) as Hprefix.
  assert (Hhex : (String.length
                    (hex (IEEE1212_CONFIG_ROM_OFFSET
                          + (offset + i * 4 + 4 * value))) <= 3)%nat).
  { apply length_hex_three. unfold IEEE1212_CONFIG_ROM_OFFSET. lia. }
  unfold format_directory_entry_line. cbv zeta. rewrite Hdec.
  destruct (detect_key_formatter identifier' key_type key_id) as [f name] eqn:Hf.
  destruct (detect_key_formatter_names _ _ _ _ _ Hf) as [Hkey Hname].
  destruct Hkind as [-> | ->].
  - change (format_entry KEY_TYPE_LEAF) with format_leaf_entry.
    change (KEY_TYPE_LEAF =? KEY_TYPE_LEAF) with true. cbv iota.
    unfold format_leaf_entry. cbv zeta.
    replace (IEEE1212_CONFIG_ROM_OFFSET + (offset + i * 4) + 4 * value)
      with (IEEE1212_CONFIG_ROM_OFFSET + (offset + i * 4 + 4 * value)) by lia.
    eexists. split.
    + rewrite <- !append_assoc. reflexivity.
    + apply clip_short. rewrite !length_append, Hprefix.
      destruct (negb (kf_key_id f =? INVALID_KEY_ID));
        rewrite ?length_append; cbn [String.length]; lia.
  - change (format_entry KEY_TYPE_DIRECTORY) with format_directory_entry.
    change (KEY_TYPE_DIRECTORY =? KEY_TYPE_LEAF) with false. cbv iota.
    unfold format_directory_entry. cbv zeta.
    replace (IEEE1212_CONFIG_ROM_OFFSET + (offset + i * 4) + 4 * value)
      with (IEEE1212_CONFIG_ROM_OFFSET + (offset + i * 4 + 4 * value)) by lia.
    eexists. split.
    + rewrite <- !append_assoc. reflexivity.
    + apply clip_short. rewrite !length_append, Hprefix.
      destruct (negb (kf_key_id f =? INVALID_KEY_ID));
        rewrite ?length_append; cbn [String.length]; lia.
Qed.

(** The lines of a directory of the list start with a title and a rule,
    and the entries follow. *)
Lemma format_block_directory_lines (host : byte_order) (data : list byte)
    (head : list_head) (p : ieee1212_block) (data_length : Z)
    (lines : list string) :
  is_directory p ->
  format_block host data head p data_length = Some lines ->
  exists title rule identifier',
    lines
    = [title; rule]
        ++ format_directory_entries (blk_offset p) (block_quadlet host data p)
             (blk_length p / 4) identifier'.
Proof.
  intros [Hty | Hty]; unfold format_block; rewrite Hty.
  - intros H. apply Some_inj in H. subst lines.
    unfold format_root_directory_block. cbv zeta.
    do 3 eexists. reflexivity.
  - unfold format_directory_block.
    destruct (blk_data p) as [d |]; [| discriminate].
    destruct (directory_base p d) as [base |]; [| discriminate].
    destruct (collect_identifier_walk _ _ _ _ _ _) as [found |]; [| discriminate].
    cbv zeta.
    destruct (detect_key_formatter found KEY_TYPE_DIRECTORY (key_id d))
      as [f name].
    destruct (format_content f); try discriminate.
    intros H. apply Some_inj in H. subst lines.
    do 3 eexists. reflexivity.
Qed.

(** X29.  In the list the analysis of a buffer of at most 1024 bytes
    returns, every leaf and every directory has an entry in its parent
    directory: a quadlet of the parent, behind its header, that decodes to
    the type, the key id and the offset of the block.  If the quadlet lies
    within what normalisation left of the parent, the listing of the
    parent has the line of this entry, and the printed line ends with the
    address of the block. *)
Theorem entry_line_points_to_block (host : byte_order) (data : list byte)
    (length : Z) (final : list_head) (b : ieee1212_block) :
  length <= DATA_SIZE ->
  analyse_blocks host data length = Ok final ->
  In b final ->
  block_type b = IEEE1212_LEAF_BLOCK \/ block_type b = IEEE1212_DIRECTORY_BLOCK ->
  exists p i,
    In p final /\ is_directory p /\ 1 <= i
    /\ entry_points_to host data p i b
    /\ forall lines,
         i < blk_length p / 4 ->
         format_block host data final p length = Some lines ->
         exists text,
           nth_error (map clip_line lines) (Z.to_nat (i + 2))
           = Some (text
                     +++ (match block_type b with
                          | IEEE1212_LEAF_BLOCK => "leaf at "
                          | _ => "directory at "
                          end)
                     +++ hex (IEEE1212_CONFIG_ROM_OFFSET + blk_offset b)).
Proof.
  intros Hlength Hrun Hin Hk.
  destruct (analyse_blocks_inv host data length final Hrun)
    as (head & Hdetect & Hfill).
  destruct (detect_ieee1212_blocks_spec host data length (Z.to_nat (length / 4)))
    as [Hd _].
  specialize (Hd head Hdetect).
  destruct (analysis_of_discovered host data length head Hd)
    as (final' & Hfill' & Htiles & _ & Hfrom & Hto).
  rewrite Hfill in Hfill'. apply Ok_inj in Hfill'. subst final'.
  destruct (Hfrom b Hin) as [(y & Hy & Hsame) | [Ho _]];
    [| rewrite Ho in Hk; destruct Hk; discriminate].
  destruct Hsame as (Hyo & Hyt & Hyd).
  pose proof (disc_referenced _ _ _ _ Hd) as Href.
  rewrite Forall_forall in Href. specialize (Href y Hy).
  unfold referenced in Href. rewrite <- Hyt in Href.
  assert (Hex : exists d p' i,
             blk_data y = Some d /\ In p' head /\ is_directory p'
             /\ blk_offset p' = parent d /\ refers host data p' i y d).
  { destruct Hk as [Hk | Hk]; rewrite Hk in Href; exact Href. }
  destruct Hex as (d & p' & i & Hdat & Hp' & Hdir' & Hparent & Hrefers).
  destruct (Hto p' Hp') as (p & Hp & Hpo & Hpt & _).
  assert (Hdir : is_directory p).
  { unfold is_directory in *. rewrite Hpt. exact Hdir'. }
  pose proof (tiles_offsets 0 length final b Htiles Hin) as Hbo.
  pose proof (tiles_offsets 0 length final p Htiles Hp) as Hpb.
  unfold DATA_SIZE in Hlength.
  unfold refers in Hrefers. cbv zeta in Hrefers.
  exists p, (i + 1).
  unfold entry_points_to, block_quadlet.
  replace (blk_offset p + 4 * (i + 1)) with (blk_offset p' + 4 + i * 4) by lia.
  pose proof (decode_directory_entry_value
                (load32 host data (blk_offset p' + 4 + i * 4))) as Hvalue.
  pose proof (load32_range host data (blk_offset p' + 4 + i * 4)) as Hquad.
  destruct (decode_directory_entry (load32 host data (blk_offset p' + 4 + i * 4)))
    as [[key_type kid] value] eqn:Hdec.
  cbn [snd] in Hvalue. destruct Hrefers as (Hi & Hkind & Hkid & Hoff).
  assert (Hwrap : wrap32 (4 * value) = 4 * value).
  { unfold wrap32. apply Z.mod_small. lia. }
  rewrite Hwrap in Hoff.
  split; [exact Hp |]. split; [exact Hdir |]. split; [lia |].
  split.
  { split; [rewrite Hyt; exact Hkind |].
    split; [| lia].
    rewrite Hyd, Hdat. destruct d as [dk dp]. cbn [key_id parent] in *.
    subst dk dp. rewrite Hpo. reflexivity. }
  intros lines Hshort Hlines.
  destruct (format_block_directory_lines host data final p length lines Hdir Hlines)
    as (title & rule & found & ->).
  rewrite nth_error_map, directory_entry_line_nth by lia.
  cbn [option_map].
  assert (Hquadlet : block_quadlet host data p (i + 1)
                     = load32 host data (blk_offset p' + 4 + i * 4)).
  { unfold block_quadlet. f_equal. lia. }
  destruct (pointer_entry_line (blk_offset p) (block_quadlet host data p) found
              (i + 1) key_type kid value) as (text & Hline & Hclip).
  - rewrite Hquadlet. exact Hdec.
  - destruct Hkind as [[-> _] | [-> _]]; auto.
  - lia.
  - rewrite Hquadlet. exact Hquad.
  - lia.
  - rewrite Hclip, Hline. exists text. do 3 f_equal.
    + destruct Hkind as [[-> Hbt] | [-> Hbt]]; rewrite <- Hyt in Hbt;
        rewrite Hbt; reflexivity.
    + do 2 f_equal. lia.
Qed.

Lemma entry_line_points_to_block_sample :
  exists p i,
    In p sample_blocks /\ is_directory p /\ 1 <= i
    /\ entry_points_to LittleEndian (image LittleEndian sample_rom) p i
         (new_block IEEE1212_DIRECTORY_BLOCK 48 16 KEY_ID_CSR_UNIT 20)
    /\ forall lines,
         i < blk_length p / 4 ->
         format_block LittleEndian (image LittleEndian sample_rom) sample_blocks
           p 68
         = Some lines ->
         exists text,
           nth_error (map clip_line lines) (Z.to_nat (i + 2))
           = Some (text +++ "directory at "
                     +++ hex (IEEE1212_CONFIG_ROM_OFFSET + 48)).
Proof.
  apply (entry_line_points_to_block LittleEndian (image LittleEndian sample_rom)
           68 sample_blocks
           (new_block IEEE1212_DIRECTORY_BLOCK 48 16 KEY_ID_CSR_UNIT 20)).
  - unfold DATA_SIZE. lia.
  - vm_compute. reflexivity.
  - vm_compute. tauto.
  - right. reflexivity.
Defined.

(** In [overlap_rom] the quadlet at offset 32 is the entry of the root
    directory for the leaf at offset 36, and the listing of the root
    directory, shortened to its first entry, does not have it. *)
Example entry_behind_the_end_is_not_listed :
  analyse_blocks LittleEndian (image LittleEndian overlap_rom) 40
  = Ok [ {| blk_offset := 0; blk_length := 20;
            block_type := IEEE1212_BUS_INFO_BLOCK; blk_data := None |};
         {| blk_offset := 20; blk_length := 8;
            block_type := IEEE1212_ROOT_DIRECTORY_BLOCK; blk_data := None |};
         new_block IEEE1212_LEAF_BLOCK 28 8 1 20;
         new_block IEEE1212_LEAF_BLOCK 36 4 1 20 ]
  /\ List.length
       (format_root_directory_block LittleEndian (image LittleEndian overlap_rom)
          {| blk_offset := 20; blk_length := 8;
             block_type := IEEE1212_ROOT_DIRECTORY_BLOCK; blk_data := None |} 40)
     = 4%nat.
Proof.
  vm_compute. split; reflexivity.
Qed.

(** * Runs with allocation failures *)

Section Runs.

Variable host : byte_order.
Variable data : list byte.
Variable length : Z.

Lemma consumed_refl (st : run_state) : consumed st st.
Proof.
  unfold consumed. destruct (run_mallocs st) as [n |]; [| reflexivity].
  exists n. split; reflexivity.
Qed.

Lemma consumed_trans (st st1 st2 : run_state) :
  consumed st st1 -> consumed st1 st2 -> consumed st st2.
Proof.
  unfold consumed. destruct (run_mallocs st) as [n |].
  - intros (n1 & -> & H1) (n2 & H2 & H3). exists n2. split; [exact H2 | lia].
  - intros ->. auto.
Qed.

(** Only the blocks and the allocations of the state count. *)
Lemma follows_same_size (st st' : run_state) (run : result run_state)
    (plain : result list_head) :
  run_mallocs st = run_mallocs st' ->
  List.length (run_blocks st) = List.length (run_blocks st') ->
  follows st' run plain -> follows st run plain.
Proof.
  intros Hm Hb. unfold follows, consumed, starved. rewrite Hm, Hb. auto.
Qed.

Lemma allocate_follows (st : run_state) (entry : ieee1212_block) :
  follows st (allocate st entry)
    (Ok (insert_block_by_offset (run_blocks st) entry)).
Proof.
  unfold allocate, malloc.
  destruct (run_mallocs st) as [[| n] |] eqn:Hm;
    unfold follows, consumed, starved;
    cbn [with_blocks run_blocks run_mallocs]; rewrite ?Hm.
  - left. split; [reflexivity |]. exists O. split; [reflexivity |].
    intros head' H. apply Ok_inj in H. subst head'.
    rewrite length_insert_block_by_offset. lia.
  - split; [reflexivity |]. exists n. split; [reflexivity |].
    rewrite length_insert_block_by_offset. lia.
  - split; reflexivity.
Qed.

Lemma follows_bind (st : run_state) (run : result run_state)
    (plain : result list_head) (k' : run_state -> result run_state)
    (k : list_head -> result list_head) :
  follows st run plain ->
  (forall head head',
      k head = Ok head' -> (List.length head <= List.length head')%nat) ->
  (forall st1, run = Ok st1 -> follows st1 (k' st1) (k (run_blocks st1))) ->
  follows st (bind run k') (bind plain k).
Proof.
  intros Hrun Hgrows Hk. destruct run as [st1 | e |]; cbn [follows bind] in *.
  - destruct Hrun as [-> Hc]. cbn [bind]. specialize (Hk st1 eq_refl).
    destruct (k' st1) as [st2 | e |]; cbn [follows] in *.
    + destruct Hk as [Hp Hc2]. split; [exact Hp | eapply consumed_trans; eauto].
    + destruct Hk as [[-> (n1 & Hn1 & Hless)] | Hp]; [left | right; exact Hp].
      split; [reflexivity |].
      unfold consumed in Hc. unfold starved.
      destruct (run_mallocs st) as [n |]; [| congruence].
      destruct Hc as (n1' & Hn1' & Hsum).
      assert (n1' = n1) by congruence. subst n1'.
      exists n. split; [reflexivity |]. intros head' Hh.
      specialize (Hless head' Hh). lia.
    + exact Hk.
  - destruct Hrun as [[-> (n & Hn & Hless)] | ->]; [left | right; reflexivity].
    split; [reflexivity |]. exists n. split; [exact Hn |].
    intros head' Hh. destruct plain as [head1 | e1 |]; cbn [bind] in Hh;
      try discriminate.
    specialize (Hless head1 eq_refl). specialize (Hgrows head1 head' Hh). lia.
  - subst plain. reflexivity.
Qed.

Lemma detect_entries_loop_grows dd :
  grows dd ->
  forall directory_offset parent count i head head',
    detect_entries_loop host dd data length directory_offset parent count i head
    = Ok head' ->
    (List.length head <= List.length head')%nat.
Proof.
  intros Hdd directory_offset parent count.
  induction count as [| count IH]; intros i head head'; cbn [detect_entries_loop].
  - intros H. apply Ok_inj in H. subst head'. lia.
  - destruct (decode_directory_entry _) as [[key_type kid] value].
    destruct ((key_type =? KEY_TYPE_LEAF) || (key_type =? KEY_TYPE_DIRECTORY));
      [| apply IH].
    destruct (_ >=? length); [discriminate |].
    destruct (detect_ieee1212_block_length host data length _); cbn [bind];
      try discriminate.
    destruct (key_type =? KEY_TYPE_LEAF).
    + unfold detect_ieee1212_leaf_block.
      destruct (block_exists head _); cbn [bind]; [apply IH |].
      intros H. apply IH in H. rewrite length_insert_block_by_offset in H. lia.
    + destruct (dd _ a kid parent head) eqn:Hd; cbn [bind]; try discriminate.
      intros H. apply IH in H. apply Hdd in Hd. lia.
Qed.

Lemma detect_ieee1212_directory_block_grows (fuel : nat) :
  grows (detect_ieee1212_directory_block host fuel data length).
Proof.
  induction fuel as [| fuel IH]; intros o l k p head head'.
  - discriminate.
  - cbn [detect_ieee1212_directory_block].
    destruct (block_exists head o).
    + intros H. apply Ok_inj in H. subst head'. lia.
    + unfold detect_ieee1212_directory_entries. intros H.
      apply (detect_entries_loop_grows _ IH) in H.
      rewrite length_insert_block_by_offset in H. lia.
Qed.

Lemma fulfill_loop_grows (fuel : nat) :
  forall i head head',
    fulfill_loop fuel length i head = Ok head' ->
    (List.length head <= List.length head')%nat.
Proof.
  induction fuel as [| fuel IH]; intros i head head'; cbn [fulfill_loop].
  - discriminate.
  - destruct (nth_error head i).
    + destruct (_ >=? _); [apply IH |].
      intros H. apply IH in H. rewrite length_insert_block_by_offset in H. lia.
    + intros H. apply Ok_inj in H. subst head'. lia.
Qed.

Lemma detect_ieee1212_leaf_block_follows (o l k p : Z) (st : run_state) :
  follows st (detect_ieee1212_leaf_block_run data length o l k p st)
    (detect_ieee1212_leaf_block data length o l k p (run_blocks st)).
Proof.
  unfold detect_ieee1212_leaf_block_run, detect_ieee1212_leaf_block.
  destruct (block_exists (run_blocks st) o).
  - split; [reflexivity | apply consumed_refl].
  - apply allocate_follows.
Qed.

Lemma detect_entries_loop_follows
    (dd' : Z -> Z -> Z -> Z -> run_state -> result run_state)
    (dd : Z -> Z -> Z -> Z -> list_head -> result list_head) :
  grows dd ->
  (forall o l k p st, follows st (dd' o l k p st) (dd o l k p (run_blocks st))) ->
  forall directory_offset parent count i st,
    follows st
      (detect_entries_loop_run host dd' data length directory_offset parent
         count i st)
      (detect_entries_loop host dd data length directory_offset parent count i
         (run_blocks st)).
Proof.
  intros Hgrows Hdd directory_offset parent count.
  induction count as [| count IH]; intros i st;
    cbn [detect_entries_loop_run detect_entries_loop].
  - split; [reflexivity | apply consumed_refl].
  - destruct (decode_directory_entry _) as [[key_type kid] value].
    destruct ((key_type =? KEY_TYPE_LEAF) || (key_type =? KEY_TYPE_DIRECTORY));
      [| apply IH].
    destruct (_ >=? length); [right; reflexivity |].
    destruct (detect_ieee1212_block_length host data length _) as [l | e |];
      cbn [bind]; [| right; reflexivity | reflexivity].
    match goal with
    | |- follows st (bind (if _ then ?leaf (with_call st ?c) else _) _) _ =>
        apply (follows_same_size st (with_call st c)); [reflexivity.. |];
        change (run_blocks st) with (run_blocks (with_call st c))
    end.
    apply follows_bind.
    + destruct (key_type =? KEY_TYPE_LEAF);
        [apply detect_ieee1212_leaf_block_follows | apply Hdd].
    + intros head head'. apply detect_entries_loop_grows. exact Hgrows.
    + intros st1 _. apply IH.
Qed.

Lemma detect_ieee1212_directory_block_follows (fuel : nat) :
  forall o l k p st,
    follows st (detect_ieee1212_directory_block_run host fuel data length o l k p st)
      (detect_ieee1212_directory_block host fuel data length o l k p
         (run_blocks st)).
Proof.
  induction fuel as [| fuel IH]; intros o l k p st;
    cbn [detect_ieee1212_directory_block_run detect_ieee1212_directory_block].
  - reflexivity.
  - destruct (block_exists (run_blocks st) o).
    + split; [reflexivity | apply consumed_refl].
    + cbv zeta. cbn [blk_offset].
      apply (follows_bind st _ (Ok (insert_block_by_offset (run_blocks st) _)) _
               (fun head =>
                  detect_ieee1212_directory_entries host
                    (detect_ieee1212_directory_block host fuel data length)
                    data length o l o head)).
      * apply allocate_follows.
      * intros head head'. unfold detect_ieee1212_directory_entries.
        apply detect_entries_loop_grows, detect_ieee1212_directory_block_grows.
      * intros st1 _.
        unfold detect_ieee1212_directory_entries_run,
          detect_ieee1212_directory_entries.
        apply detect_entries_loop_follows;
          [apply detect_ieee1212_directory_block_grows | exact IH].
Qed.

Lemma detect_ieee1212_blocks_follows (fuel : nat) (st : run_state) :
  follows st (detect_ieee1212_blocks_run host fuel data length st)
    (detect_ieee1212_blocks host fuel data length (run_blocks st)).
Proof.
  unfold detect_ieee1212_blocks_run, detect_ieee1212_blocks. cbv zeta.
  destruct (detect_ieee1212_bus_info_block_length host data length 0)
    as [l | e |]; cbn [bind]; [| right; reflexivity | reflexivity].
  unfold detect_ieee1212_bus_info_block_run, detect_ieee1212_bus_info_block.
  apply follows_bind.
  - apply allocate_follows.
  - intros head head'.
    destruct (detect_ieee1212_block_length host data length (0 + l));
      cbn [bind]; try discriminate.
    unfold detect_ieee1212_root_directory_block,
      detect_ieee1212_directory_entries.
    intros H.
    apply (detect_entries_loop_grows _
             (detect_ieee1212_directory_block_grows fuel)) in H.
    rewrite length_insert_block_by_offset in H. lia.
  - intros st1 _.
    destruct (detect_ieee1212_block_length host data length (0 + l))
      as [l' | e |]; cbn [bind]; [| right; reflexivity | reflexivity].
    unfold detect_ieee1212_root_directory_block_run,
      detect_ieee1212_root_directory_block.
    cbv zeta. cbn [blk_offset].
    apply (follows_bind st1 _ (Ok (insert_block_by_offset (run_blocks st1) _)) _
             (fun head =>
                detect_ieee1212_directory_entries host
                  (detect_ieee1212_directory_block host fuel data length)
                  data length (0 + l) l' (0 + l) head)).
    + apply allocate_follows.
    + intros head head'. unfold detect_ieee1212_directory_entries.
      apply detect_entries_loop_grows, detect_ieee1212_directory_block_grows.
    + intros st2 _.
      unfold detect_ieee1212_directory_entries_run,
        detect_ieee1212_directory_entries.
      apply detect_entries_loop_follows;
        [apply detect_ieee1212_directory_block_grows
        | apply detect_ieee1212_directory_block_follows].
Qed.

Lemma fulfill_loop_follows (fuel : nat) :
  forall i st,
    follows st (fulfill_loop_run fuel length i st)
      (fulfill_loop fuel length i (run_blocks st)).
Proof.
  induction fuel as [| fuel IH]; intros i st;
    cbn [fulfill_loop_run fulfill_loop].
  - reflexivity.
  - cbv zeta. destruct (nth_error (run_blocks st) i) as [entry |].
    + destruct (_ >=? _); [apply IH |].
      match goal with
      | |- follows st (bind (allocate st ?orphan) _)
             (fulfill_loop fuel length ?j _) =>
          apply (follows_bind st _
                   (Ok (insert_block_by_offset (run_blocks st) orphan)) _
                   (fun head => fulfill_loop fuel length j head))
      end.
      * apply allocate_follows.
      * intros head head'. apply fulfill_loop_grows.
      * intros st1 _. apply IH.
    + split; [reflexivity | apply consumed_refl].
Qed.

Lemma analyse_blocks_follows (mallocs : option nat) :
  follows (initial_state mallocs) (analyse_blocks_run host data length mallocs)
    (analyse_blocks host data length).
Proof.
  unfold analyse_blocks_run, analyse_blocks.
  apply follows_bind.
  - apply (detect_ieee1212_blocks_follows _ (initial_state mallocs)).
  - intros head head' H. unfold fulfill_orphan_blocks in H.
    apply fulfill_loop_grows in H. rewrite normalize_blocks_length in H. exact H.
  - intros st1 _.
    apply (follows_same_size st1
             (with_blocks st1 (normalize_blocks (run_blocks st1) length)));
      [reflexivity | cbn [with_blocks run_blocks];
                     rewrite normalize_blocks_length; reflexivity |].
    unfold fulfill_orphan_blocks_run, fulfill_orphan_blocks.
    apply fulfill_loop_follows.
Qed.

(** X5.  The analysis returns on every buffer.  When every [malloc]
    succeeds it returns a block list or one of the error codes [-EINVAL]
    (a block ends past the buffer) and [-ENOSPC] (an entry points past the
    buffer).  Every descriptor of the list costs one [malloc]: where the
    analysis would return a list, it returns this list if [malloc] succeeds
    as many times as the list has blocks, and [-ENOMEM] if it does not;
    where the analysis would fail, it fails with the same code or, with a
    [malloc] that fails, with [-ENOMEM]. *)
Theorem analyse_blocks_outcomes (mallocs : option nat) :
  ((exists final, analyse_blocks host data length = Ok final)
   \/ analyse_blocks host data length = Err (- EINVAL)
   \/ analyse_blocks host data length = Err (- ENOSPC))
  /\ (forall final,
         analyse_blocks host data length = Ok final ->
         if match mallocs with
            | Some n => (n <? List.length final)%nat
            | None => false
            end
         then analyse_blocks_run host data length mallocs = Err (- ENOMEM)
         else exists st,
                analyse_blocks_run host data length mallocs = Ok st
                /\ run_blocks st = final)
  /\ (forall e,
         analyse_blocks host data length = Err e ->
         analyse_blocks_run host data length mallocs = Err e
         \/ (analyse_blocks_run host data length mallocs = Err (- ENOMEM)
             /\ mallocs <> None)).
Proof.
  pose proof (analyse_blocks_follows mallocs) as Hf.
  split; [clear Hf | split].
  - pose proof (analyse_blocks_returns host data length) as Hret.
    destruct (analyse_blocks host data length) as [final | e |] eqn:Hrun.
    + left. exists final. reflexivity.
    + right. unfold analyse_blocks in Hrun.
      destruct (detect_ieee1212_blocks host (Z.to_nat (length / 4)) data length [])
        as [head | e' |] eqn:Hd; cbn [bind] in Hrun.
      * exfalso. eapply fulfill_loop_no_error. exact Hrun.
      * injection Hrun as <-.
        destruct (detect_ieee1212_blocks_error _ _ _ _ _ _ Hd) as [-> | ->]; auto.
      * discriminate.
    + congruence.
  - intros final Hplain. rewrite Hplain in Hf.
    destruct (analyse_blocks_run host data length mallocs) as [st | e |];
      cbn [follows] in Hf.
    + destruct Hf as [Hb Hc]. apply Ok_inj in Hb.
      unfold consumed in Hc. cbn [initial_state run_mallocs run_blocks] in Hc.
      destruct mallocs as [n |].
      * destruct Hc as (n' & _ & Hsum). cbn [List.length] in Hsum.
        replace (n <? List.length final)%nat with false
          by (symmetry; apply Nat.ltb_ge; subst final; lia).
        exists st. split; [reflexivity | symmetry; exact Hb].
      * exists st. split; [reflexivity | symmetry; exact Hb].
    + destruct Hf as [[-> (n & Hn & Hless)] | Hp]; [| discriminate].
      cbn [initial_state run_mallocs run_blocks] in Hn, Hless. subst mallocs.
      specialize (Hless final eq_refl). cbn [List.length] in Hless.
      replace (n <? List.length final)%nat with true
        by (symmetry; apply Nat.ltb_lt; lia).
      reflexivity.
    + discriminate.
  - intros e Hplain. rewrite Hplain in Hf.
    destruct (analyse_blocks_run host data length mallocs) as [st | e' |];
      cbn [follows] in Hf.
    + destruct Hf as [Hb _]. discriminate.
    + destruct Hf as [[-> (n & Hn & _)] | Hp].
      * right. split; [reflexivity |].
        cbn [initial_state run_mallocs] in Hn. congruence.
      * left. congruence.
    + discriminate.
Qed.

End Runs.

(** With the five descriptors of [sample_rom] the analysis needs five
    calls of [malloc]. *)
Example analyse_blocks_run_sample :
  (exists st,
      analyse_blocks_run LittleEndian (image LittleEndian sample_rom) 68 (Some 5%nat)
      = Ok st
      /\ run_blocks st = sample_blocks)
  /\ analyse_blocks_run LittleEndian (image LittleEndian sample_rom) 68 (Some 4%nat)
     = Err (- ENOMEM)
  /\ analyse_blocks_run LittleEndian (image LittleEndian sample_rom) 68 (Some 0%nat)
     = Err (- ENOMEM).
Proof.
  split; [| split]; [eexists; split |..]; vm_compute; reflexivity.
Qed.

(** * The calls of the block detectors *)

Section Calls.

Variable host : byte_order.
Variable data : list byte.
Variable length : Z.

Lemma later_refl (st : run_state) : later st st.
Proof.
  split; [apply incl_refl | exists []; symmetry; apply app_nil_r].
Qed.

Lemma later_trans (st st1 st2 : run_state) :
  later st st1 -> later st1 st2 -> later st st2.
Proof.
  intros [Hi1 (m1 & Hc1)] [Hi2 (m2 & Hc2)]. split.
  - eapply incl_tran; eauto.
  - exists (m1 ++ m2). rewrite Hc2, Hc1, app_assoc. reflexivity.
Qed.

Lemma later_with_call (st : run_state) (c : detector_call) :
  later st (with_call st c).
Proof. split; [apply incl_refl | exists [c]; reflexivity]. Qed.

Lemma later_calls (st st' : run_state) (c : detector_call) :
  later st st' -> In c (run_calls st) -> In c (run_calls st').
Proof.
  intros [_ (more & ->)] Hin. apply in_or_app. auto.
Qed.

Lemma call_of_entry_incl (head head' : list_head) (c : detector_call) :
  incl head head' ->
  call_of_entry host data length head c ->
  call_of_entry host data length head' c.
Proof.
  intros Hincl (p & Hp & Hrest). exists p. split; [apply Hincl, Hp | exact Hrest].
Qed.

Lemma made_by_first_call_more (calls more : list detector_call)
    (b : ieee1212_block) :
  made_by_first_call calls b -> made_by_first_call (calls ++ more) b.
Proof.
  intros (before & c & after & -> & Hrest).
  exists before, c, (after ++ more). split; [| exact Hrest].
  rewrite <- app_assoc. reflexivity.
Qed.

Lemma called_below_more (calls more : list detector_call) (p : ieee1212_block)
    (n : Z) :
  called_below host data calls p n -> called_below host data (calls ++ more) p n.
Proof.
  intros H i kt kid v Hi Hdec Hk.
  destruct (H i kt kid v Hi Hdec Hk) as (c & Hc & Hrest).
  exists c. split; [apply in_or_app; auto | exact Hrest].
Qed.

Lemma complete_later (pending : list Z) (st st' : run_state) :
  run_blocks st' = run_blocks st ->
  (exists more, run_calls st' = run_calls st ++ more) ->
  complete host data pending st -> complete host data pending st'.
Proof.
  intros Hb (more & Hc) H q Hq Hdir. rewrite Hb in Hq.
  destruct (H q Hq Hdir) as [Hcalled | Hpending]; [left | right; exact Hpending].
  rewrite Hc. apply called_below_more. exact Hcalled.
Qed.

(** A call that finds a descriptor at its offset. *)
Lemma traced_call_existing (st : run_state) (c : detector_call) :
  traced host data length st ->
  call_of_entry host data length (run_blocks st) c ->
  block_exists (run_blocks st) (call_offset c) = true ->
  traced host data length (with_call st c).
Proof.
  intros [Hu Hb He Hf] Hc Hex. split; cbn [with_call run_blocks run_calls].
  - exact Hu.
  - intros c' Hin. apply in_app_or in Hin. destruct Hin as [Hin | [<- | []]].
    + apply Hb, Hin.
    + apply block_exists_true in Hex. exact Hex.
  - intros c' Hin. apply in_app_or in Hin. destruct Hin as [Hin | [<- | []]].
    + apply He, Hin.
    + exact Hc.
  - intros b Hin Hk. apply made_by_first_call_more. apply Hf; assumption.
Qed.

(** A call that finds none and makes one. *)
Lemma traced_call_new (st st' : run_state) (c : detector_call) :
  traced host data length st ->
  call_of_entry host data length (run_blocks st) c ->
  block_exists (run_blocks st) (call_offset c) = false ->
  allocate (with_call st c) (block_of_call c) = Ok st' ->
  traced host data length st'
  /\ run_blocks st' = insert_block_by_offset (run_blocks st) (block_of_call c)
  /\ run_calls st' = run_calls st ++ [c].
Proof.
  intros [Hu Hb He Hf] Hc Hex Hrun.
  assert (Hst : run_blocks st'
                = insert_block_by_offset (run_blocks st) (block_of_call c)
                /\ run_calls st' = run_calls st ++ [c]).
  { unfold allocate, malloc in Hrun. cbn [with_call run_mallocs] in Hrun.
    destruct (run_mallocs st) as [[| n] |]; try discriminate;
      apply Ok_inj in Hrun; subst st'; split; reflexivity. }
  destruct Hst as [Hblocks Hcalls].
  split; [| split; assumption].
  pose proof (proj1 (block_exists_false _ _) Hex) as Hfresh.
  split; rewrite ?Hblocks, ?Hcalls.
  - intros b b' Hin Hin' Ho.
    apply in_insert_block_by_offset in Hin, Hin'.
    destruct Hin as [-> | Hin], Hin' as [-> | Hin'].
    + reflexivity.
    + exfalso. apply (Hfresh b' Hin'). symmetry. exact Ho.
    + exfalso. apply (Hfresh b Hin). exact Ho.
    + apply Hu; assumption.
  - intros c' Hin. apply in_app_or in Hin. destruct Hin as [Hin | [<- | []]].
    + destruct (Hb c' Hin) as (b & Hbin & Hbo). exists b.
      split; [apply in_insert_block_by_offset; auto | exact Hbo].
    + exists (block_of_call c).
      split; [apply in_insert_block_by_offset; auto | reflexivity].
  - intros c' Hin.
    apply (call_of_entry_incl (run_blocks st)); [apply incl_insert |].
    apply in_app_or in Hin. destruct Hin as [Hin | [<- | []]];
      [apply He, Hin | exact Hc].
  - intros b Hin Hk. apply in_insert_block_by_offset in Hin.
    destruct Hin as [-> | Hin].
    + exists (run_calls st), c, []. split; [reflexivity |].
      split; [| repeat split; reflexivity].
      intros c' Hc' Heq. destruct (Hb c' Hc') as (b & Hbin & Hbo).
      apply (Hfresh b Hbin). rewrite Hbo. exact Heq.
    + apply made_by_first_call_more. apply Hf; assumption.
Qed.

End Calls.

Section Traversal.

Variable host : byte_order.
Variable data : list byte.
Variable length : Z.

Lemma complete_insert (pending : list Z) (st st' : run_state)
    (entry : ieee1212_block) :
  complete host data pending st ->
  run_blocks st' = insert_block_by_offset (run_blocks st) entry ->
  (exists more, run_calls st' = run_calls st ++ more) ->
  (is_directory entry -> In (blk_offset entry) pending) ->
  complete host data pending st'.
Proof.
  intros H Hb (more & Hc) Hentry q Hq Hdir. rewrite Hb in Hq.
  apply in_insert_block_by_offset in Hq. destruct Hq as [-> | Hq].
  - right. apply Hentry, Hdir.
  - destruct (H q Hq Hdir) as [Hcalled | Hpending]; [left | right; exact Hpending].
    rewrite Hc. apply called_below_more. exact Hcalled.
Qed.

Lemma complete_weaken (pending : list Z) (o : Z) (st : run_state) :
  complete host data pending st -> complete host data (o :: pending) st.
Proof.
  intros H q Hq Hdir. destruct (H q Hq Hdir); [left | right; right]; assumption.
Qed.

(** Once the entries of the directory at [o] had their calls, the
    directory is no longer pending. *)
Lemma complete_done (pending : list Z) (p : ieee1212_block) (st : run_state) :
  traced host data length st ->
  In p (run_blocks st) ->
  complete host data (blk_offset p :: pending) st ->
  called_below host data (run_calls st) p
    (Z.of_nat (Z.to_nat ((blk_length p - 4) / 4))) ->
  complete host data pending st.
Proof.
  intros Htr Hp H Hcalled q Hq Hdir.
  destruct (H q Hq Hdir) as [Hq' | [Ho | Hpending]]; auto.
  left. assert (q = p) by (apply (traced_unique _ _ _ _ Htr); auto).
  subst q. intros i kt kid v Hi. apply Hcalled. lia.
Qed.

Lemma detect_entries_loop_traced
    (dd : Z -> Z -> Z -> Z -> run_state -> result run_state) :
  directory_run_contract host data length dd ->
  forall count i st st' p pending,
    traced host data length st ->
    complete host data (blk_offset p :: pending) st ->
    In p (run_blocks st) -> is_directory p ->
    0 <= i ->
    i + Z.of_nat count = Z.of_nat (Z.to_nat ((blk_length p - 4) / 4)) ->
    called_below host data (run_calls st) p i ->
    detect_entries_loop_run host dd data length (blk_offset p + 4) (blk_offset p)
      count i st
    = Ok st' ->
    traced host data length st'
    /\ complete host data (blk_offset p :: pending) st'
    /\ later st st'
    /\ called_below host data (run_calls st') p (i + Z.of_nat count).
Proof.
  intros Hdd count.
  induction count as [| count IH];
    intros i st st' p pending Htr Hcomp Hp Hdir Hi Hcount Hbelow;
    cbn [detect_entries_loop_run].
  - intros H. apply Ok_inj in H. subst st'.
    replace (i + Z.of_nat 0) with i by lia.
    split; [exact Htr |]. split; [exact Hcomp |].
    split; [apply later_refl | exact Hbelow].
  - destruct (decode_directory_entry (load32 host data (blk_offset p + 4 + i * 4)))
      as [[key_type kid] value] eqn:Hdec.
    assert (Hnext : forall st1,
               later st st1 ->
               (key_type = KEY_TYPE_LEAF \/ key_type = KEY_TYPE_DIRECTORY ->
                exists c, In c (run_calls st1)
                          /\ call_parent c = blk_offset p /\ call_entry c = i) ->
               called_below host data (run_calls st1) p (i + 1)).
    { intros st1 [_ (more & Hmore)] Hthis j kt kid' v Hj Hdecj Hk.
      destruct (Z.eq_dec j i) as [-> | Hne].
      - rewrite Hdec in Hdecj. injection Hdecj as <- _ _. apply Hthis, Hk.
      - rewrite Hmore.
        apply (called_below_more host data (run_calls st) more p i Hbelow j kt
                 kid' v); [lia | exact Hdecj | exact Hk]. }
    assert (Hfinish : forall st1,
               traced host data length st1 ->
               complete host data (blk_offset p :: pending) st1 ->
               later st st1 ->
               called_below host data (run_calls st1) p (i + 1) ->
               detect_entries_loop_run host dd data length (blk_offset p + 4)
                 (blk_offset p) count (i + 1) st1
               = Ok st' ->
               traced host data length st'
               /\ complete host data (blk_offset p :: pending) st'
               /\ later st st'
               /\ called_below host data (run_calls st') p
                    (i + Z.of_nat (S count))).
    { intros st1 Htr1 Hcomp1 Hlater1 Hbelow1 Hrun.
      destruct (IH (i + 1) st1 st' p pending Htr1 Hcomp1
                  (proj1 Hlater1 p Hp) Hdir ltac:(lia) ltac:(lia) Hbelow1 Hrun)
        as (Htr' & Hcomp' & Hlater' & Hbelow').
      split; [exact Htr' |]. split; [exact Hcomp' |].
      split; [eapply later_trans; eauto |].
      replace (i + Z.of_nat (S count)) with (i + 1 + Z.of_nat count) by lia.
      exact Hbelow'. }
    destruct ((key_type =? KEY_TYPE_LEAF) || (key_type =? KEY_TYPE_DIRECTORY))
      eqn:Hkind.
    2:{ apply Hfinish; [exact Htr | exact Hcomp | apply later_refl |].
        apply Hnext; [apply later_refl |].
          apply orb_false_iff in Hkind. destruct Hkind as [H1 H2].
          apply Z.eqb_neq in H1, H2. intros [? | ?]; contradiction. }
    destruct (_ >=? length) eqn:Hge; [discriminate |].
    destruct (detect_ieee1212_block_length host data length
                (blk_offset p + 4 + i * 4 + wrap32 (4 * value)))
      as [l | e |] eqn:Hlen; cbn [bind]; try discriminate.
    set (c := {| call_parent := blk_offset p; call_entry := i;
                 call_key_type := key_type; call_key_id := kid;
                 call_offset := blk_offset p + 4 + i * 4 + wrap32 (4 * value);
                 call_length := l |}).
    assert (Hc : call_of_entry host data length (run_blocks st) c).
    { exists p. cbn [c call_parent call_entry call_key_type call_key_id
                     call_offset call_length].
      split; [exact Hp |]. split; [exact Hdir |]. split; [reflexivity |].
      split; [lia |].
      split.
      { apply orb_true_iff in Hkind. destruct Hkind as [H | H];
          apply Z.eqb_eq in H; auto. }
      split; [exists value; split; [exact Hdec | reflexivity] |].
      split; [| exact Hlen].
      rewrite Z.geb_leb in Hge. apply Z.leb_gt in Hge. exact Hge. }
    assert (Hstep : forall st1,
               traced host data length st1 ->
               complete host data (blk_offset p :: pending) st1 ->
               later (with_call st c) st1 ->
               detect_entries_loop_run host dd data length (blk_offset p + 4)
                 (blk_offset p) count (i + 1) st1
               = Ok st' ->
               traced host data length st'
               /\ complete host data (blk_offset p :: pending) st'
               /\ later st st'
               /\ called_below host data (run_calls st') p
                    (i + Z.of_nat (S count))).
    { intros st1 Htr1 Hcomp1 Hlater1 Hrun.
      assert (Hl : later st st1)
        by (eapply later_trans; [apply later_with_call | exact Hlater1]).
      apply (Hfinish st1); auto.
      apply Hnext; [exact Hl |]. intros _. exists c.
      split; [| split; reflexivity].
      apply (later_calls (with_call st c)); [exact Hlater1 |].
      cbn [with_call run_calls]. apply in_or_app. right. now left. }
    destruct (key_type =? KEY_TYPE_LEAF) eqn:Hleaf.
    + apply Z.eqb_eq in Hleaf.
      unfold detect_ieee1212_leaf_block_run. cbn [with_call run_blocks].
      fold (with_call st c).
      destruct (block_exists (run_blocks st)
                  (blk_offset p + 4 + i * 4 + wrap32 (4 * value))) eqn:Hex;
        cbn [bind].
      * apply Hstep.
        -- apply traced_call_existing; assumption.
        -- eapply complete_later; [| | exact Hcomp];
             [reflexivity | exists [c]; reflexivity].
        -- apply later_refl.
      * assert (Hblock : block_of_call c
                         = {| blk_offset :=
                                blk_offset p + 4 + i * 4 + wrap32 (4 * value);
                              blk_length := l;
                              block_type := IEEE1212_LEAF_BLOCK;
                              blk_data := Some {| key_id := kid;
                                                  parent := blk_offset p |} |}).
        { unfold block_of_call. cbn [c call_key_type call_offset call_length
                                       call_key_id call_parent].
          rewrite Hleaf. reflexivity. }
        rewrite <- Hblock.
        destruct (allocate (with_call st c) (block_of_call c)) as [st1 | e |]
          eqn:Halloc; cbn [bind]; try discriminate.
        destruct (traced_call_new host data length st st1 c Htr Hc Hex Halloc)
          as (Htr1 & Hb1 & Hc1).
        apply Hstep.
        -- exact Htr1.
        -- eapply complete_insert; [exact Hcomp | exact Hb1 | eauto |].
           intros [Hroot | Hd]; rewrite Hblock in Hroot || rewrite Hblock in Hd;
             discriminate.
        -- split; [rewrite Hb1; apply incl_insert |].
           exists []. rewrite Hc1, app_nil_r. reflexivity.
    + assert (Hkt : key_type = KEY_TYPE_DIRECTORY).
      { rewrite ?Hleaf in Hkind. cbn [orb] in Hkind. apply Z.eqb_eq.
        exact Hkind. }
      destruct (dd (blk_offset p + 4 + i * 4 + wrap32 (4 * value)) l kid
                  (blk_offset p) (with_call st c)) as [st1 | e |] eqn:Hrun;
        cbn [bind]; try discriminate.
      destruct (Hdd (blk_offset p :: pending) c st st1 Htr Hcomp Hc Hkt Hrun)
        as (Htr1 & Hcomp1 & Hlater1).
      apply Hstep; assumption.
Qed.

Lemma detect_ieee1212_directory_block_traced (fuel : nat) :
  directory_run_contract host data length
    (detect_ieee1212_directory_block_run host fuel data length).
Proof.
  induction fuel as [| fuel IH]; intros pending c st st' Htr Hcomp Hc Hkt;
    cbn [detect_ieee1212_directory_block_run]; [discriminate |].
  cbn [with_call run_blocks]. fold (with_call st c).
  destruct (block_exists (run_blocks st) (call_offset c)) eqn:Hex.
  - intros H. apply Ok_inj in H. subst st'.
    split; [apply traced_call_existing; assumption |].
    split; [| apply later_refl].
    eapply complete_later; [| | exact Hcomp];
      [reflexivity | exists [c]; reflexivity].
  - cbv zeta. cbn [blk_offset].
    assert (Hblock : block_of_call c
                     = {| blk_offset := call_offset c;
                          blk_length := call_length c;
                          block_type := IEEE1212_DIRECTORY_BLOCK;
                          blk_data := Some {| key_id := call_key_id c;
                                              parent := call_parent c |} |}).
    { unfold block_of_call. rewrite Hkt. reflexivity. }
    rewrite <- Hblock.
    destruct (allocate (with_call st c) (block_of_call c)) as [st1 | e |]
      eqn:Halloc; cbn [bind]; try discriminate.
    destruct (traced_call_new host data length st st1 c Htr Hc Hex Halloc)
      as (Htr1 & Hb1 & Hc1).
    unfold detect_ieee1212_directory_entries_run. cbv zeta. intros Hrun.
    assert (Hin1 : In (block_of_call c) (run_blocks st1)).
    { rewrite Hb1. apply in_insert_block_by_offset. now left. }
    assert (Hdir : is_directory (block_of_call c)).
    { right. rewrite Hblock. reflexivity. }
    destruct (detect_entries_loop_traced _ IH
                (Z.to_nat ((call_length c - 4) / 4)) 0 st1 st' (block_of_call c)
                pending Htr1)
      as (Htr' & Hcomp' & Hlater' & Hbelow'); auto.
    + eapply complete_insert; [apply complete_weaken, Hcomp | exact Hb1 | eauto |].
      intros _. now left.
    + lia.
    + intros j kt kid v Hj. lia.
    + split; [exact Htr' |]. split.
      * apply (complete_done pending (block_of_call c)); auto.
        apply (proj1 Hlater'), Hin1.
      * eapply later_trans; [| exact Hlater'].
        split; [rewrite Hb1; apply incl_insert |].
        exists []. rewrite Hc1, app_nil_r. reflexivity.
Qed.

(** The state discovery returns. *)
Lemma detect_ieee1212_blocks_traced (fuel : nat) (mallocs : option nat)
    (st' : run_state) :
  detect_ieee1212_blocks_run host fuel data length (initial_state mallocs)
  = Ok st' ->
  traced host data length st' /\ complete host data [] st'.
Proof.
  unfold detect_ieee1212_blocks_run. cbv zeta.
  destruct (detect_ieee1212_bus_info_block_length host data length 0)
    as [l | e |] eqn:Hbus; cbn [bind]; try discriminate.
  apply detect_ieee1212_bus_info_block_length_ok in Hbus.
  destruct Hbus as [Hl _].
  assert (Hpos : 4 <= l).
  { pose proof (Z.mod_pos_bound (bus_info_length_field (load32 host data 0)) 64
                  ltac:(lia)). lia. }
  unfold detect_ieee1212_bus_info_block_run.
  set (bus := {| blk_offset := 0; blk_length := l;
                 block_type := IEEE1212_BUS_INFO_BLOCK; blk_data := None |}).
  destruct (allocate (initial_state mallocs) bus) as [st1 | e |] eqn:Hst1;
    cbn [bind]; try discriminate.
  assert (H1 : run_blocks st1 = [bus] /\ run_calls st1 = []).
  { unfold allocate, malloc in Hst1. cbn [initial_state run_mallocs] in Hst1.
    destruct mallocs as [[| n] |]; try discriminate;
      apply Ok_inj in Hst1; subst st1; split; reflexivity. }
  destruct H1 as [Hb1 Hc1].
  destruct (detect_ieee1212_block_length host data length (0 + l))
    as [l' | e |]; cbn [bind]; try discriminate.
  unfold detect_ieee1212_root_directory_block_run. cbv zeta. cbn [blk_offset].
  set (root := {| blk_offset := 0 + l; blk_length := l';
                  block_type := IEEE1212_ROOT_DIRECTORY_BLOCK;
                  blk_data := None |}).
  destruct (allocate st1 root) as [st2 | e |] eqn:Hst2; cbn [bind];
    try discriminate.
  assert (H2 : run_blocks st2 = insert_block_by_offset [bus] root
               /\ run_calls st2 = []).
  { unfold allocate, malloc in Hst2. rewrite <- Hb1, <- Hc1.
    destruct (run_mallocs st1) as [[| n] |]; try discriminate;
      apply Ok_inj in Hst2; subst st2; split; reflexivity. }
  destruct H2 as [Hb2 Hc2].
  assert (Hmembers : forall b, In b (run_blocks st2) -> b = root \/ b = bus).
  { intros b Hb. rewrite Hb2 in Hb. apply in_insert_block_by_offset in Hb.
    destruct Hb as [-> | [<- | []]]; auto. }
  assert (Htr2 : traced host data length st2).
  { split.
    - intros b b' Hb Hb' Ho.
      destruct (Hmembers b Hb) as [-> | ->], (Hmembers b' Hb') as [-> | ->];
        cbn [root bus blk_offset] in Ho; auto; lia.
    - rewrite Hc2. intros c [].
    - rewrite Hc2. intros c [].
    - intros b Hb Hk.
      destruct (Hmembers b Hb) as [-> | ->]; destruct Hk; discriminate. }
  assert (Hroot : In root (run_blocks st2)).
  { rewrite Hb2. apply in_insert_block_by_offset. now left. }
  unfold detect_ieee1212_directory_entries_run. cbv zeta. intros Hrun.
  destruct (detect_entries_loop_traced _
              (detect_ieee1212_directory_block_traced fuel)
              (Z.to_nat ((l' - 4) / 4)) 0 st2 st' root [] Htr2)
    as (Htr' & Hcomp' & Hlater' & Hbelow'); auto.
  - intros q Hq Hdir.
    destruct (Hmembers q Hq) as [-> | ->]; [right; now left |].
    destruct Hdir; discriminate.
  - left. reflexivity.
  - lia.
  - intros j kt kid v Hj. lia.
  - split; [exact Htr' |].
    apply (complete_done [] root); auto.
    apply (proj1 Hlater'), Hroot.
Qed.

End Traversal.

(** * Blocks are materialized once *)

(** Discovery as it is run, with every [malloc] succeeding, returns the
    list of the discovery without allocations, and the state it returns
    has the properties of a traced state with no directory pending. *)
Lemma detect_ieee1212_blocks_run_of (host : byte_order) (data : list byte)
    (length : Z) (fuel : nat) (head : list_head) :
  detect_ieee1212_blocks host fuel data length [] = Ok head ->
  exists st,
    detect_ieee1212_blocks_run host fuel data length (initial_state None) = Ok st
    /\ run_blocks st = head
    /\ traced host data length st
    /\ complete host data [] st.
Proof.
  intros Hplain.
  pose proof (detect_ieee1212_blocks_follows host data length fuel
                (initial_state None)) as Hf.
  cbn [initial_state run_blocks] in Hf. rewrite Hplain in Hf.
  destruct (detect_ieee1212_blocks_run host fuel data length (initial_state None))
    as [st | e |] eqn:Hrun; cbn [follows] in Hf.
  - destruct Hf as [Hb _]. apply Ok_inj in Hb.
    destruct (detect_ieee1212_blocks_traced host data length fuel None st Hrun)
      as [Htr Hcomp].
    exists st. split; [reflexivity |]. split; [symmetry; exact Hb |].
    split; [exact Htr | exact Hcomp].
  - destruct Hf as [[_ (n & Hn & _)] | Hp]; discriminate.
  - discriminate.
Qed.

(** C6.  In the list that discovery returns no two blocks have one offset,
    and every leaf and directory block is referred to by an entry of the
    directory its parent pointer names.  A block is created by the first
    reference that reaches its offset, with the directory of that entry as
    its parent; a later reference to the offset returns the list as it is;
    and no detector removes or changes a descriptor of the list.  The
    orphan blocks do not bring an offset twice either.

    The calls that the loop over the entries makes tie this to the
    traversal.  Every leaf or directory entry of every directory of the
    list, as far as the header of the directory counts its entries, had its
    call, and the block it points to is in the list.  Every call was made
    for such an entry.  And every leaf and every directory of the list is
    as the first call for its offset made it: its type is the key type,
    its length the block length, its key id the key id of that call, and
    its parent the directory whose entry was decoded. *)
Theorem blocks_are_materialized_once (host : byte_order) (data : list byte)
    (length : Z) (fuel : nat) (head : list_head) :
  detect_ieee1212_blocks host fuel data length [] = Ok head ->
  NoDup (map blk_offset head)
  /\ Forall (referenced host data head) head
  /\ (forall final,
         fulfill_orphan_blocks data length (normalize_blocks head length)
         = Ok final ->
         NoDup (map blk_offset final))
  /\ (forall o l k p head0,
         block_exists head0 o = true ->
         detect_ieee1212_leaf_block data length o l k p head0 = Ok head0
         /\ forall fuel',
             detect_ieee1212_directory_block host (S fuel') data length o l k p
               head0 = Ok head0)
  /\ (forall o l k p head0 head1,
         block_exists head0 o = false ->
         detect_ieee1212_leaf_block data length o l k p head0 = Ok head1 ->
         In (new_block IEEE1212_LEAF_BLOCK o l k p) head1 /\ incl head0 head1)
  /\ (forall fuel' o l k p head0 head1,
         block_exists head0 o = false ->
         detect_ieee1212_directory_block host fuel' data length o l k p head0
         = Ok head1 ->
         In (new_block IEEE1212_DIRECTORY_BLOCK o l k p) head1
         /\ incl head0 head1)
  /\ (forall p i key_type key_id' value,
         In p head -> is_directory p ->
         0 <= i < (blk_length p - 4) / 4 ->
         decode_directory_entry (load32 host data (blk_offset p + 4 + i * 4))
         = (key_type, key_id', value) ->
         key_type = KEY_TYPE_LEAF \/ key_type = KEY_TYPE_DIRECTORY ->
         exists b,
           In b head
           /\ blk_offset b = blk_offset p + 4 + i * 4 + wrap32 (4 * value))
  /\ exists st,
       detect_ieee1212_blocks_run host fuel data length (initial_state None)
       = Ok st
       /\ run_blocks st = head
       /\ (forall p, In p head -> is_directory p ->
                     entries_called host data (run_calls st) p)
       /\ (forall c, In c (run_calls st) ->
                     call_of_entry host data length head c
                     /\ exists b, In b head /\ blk_offset b = call_offset c)
       /\ (forall b, In b head ->
                     block_type b = IEEE1212_LEAF_BLOCK
                     \/ block_type b = IEEE1212_DIRECTORY_BLOCK ->
                     made_by_first_call (run_calls st) b).
Proof.
  intros Hrun.
  destruct (detect_ieee1212_blocks_spec host data length fuel) as [Hd _].
  specialize (Hd head Hrun).
  destruct (detect_ieee1212_blocks_run_of host data length fuel head Hrun)
    as (st & Hst & Hblocks & Htr & Hcomp).
  assert (Hcalled : forall p, In p head -> is_directory p ->
                              entries_called host data (run_calls st) p).
  { intros p Hp Hdir. rewrite <- Hblocks in Hp.
    destruct (Hcomp p Hp Hdir) as [H | []]. exact H. }
  split; [apply ascending_NoDup, Hd |].
  split; [apply Hd |].
  split; [| split; [| split; [| split; [| split]]]].
  - intros final Hfill.
    destruct (analysis_of_discovered host data length head Hd)
      as (final' & Hfill' & Htiles & _).
    rewrite Hfill in Hfill'. apply Ok_inj in Hfill'. subst final'.
    eapply ascending_NoDup, tiles_ascending; eauto.
  - intros o l k p head0 Hex. split.
    + unfold detect_ieee1212_leaf_block. now rewrite Hex.
    + intros fuel'. cbn [detect_ieee1212_directory_block]. now rewrite Hex.
  - intros o l k p head0 head1 Hex. unfold detect_ieee1212_leaf_block.
    rewrite Hex. intros H. apply Ok_inj in H. subst head1. split.
    + apply insert_new_block.
    + apply incl_insert.
  - intros fuel' o l k p head0 head1 Hex H. split.
    + destruct fuel' as [| fuel']; [discriminate |].
      cbn [detect_ieee1212_directory_block] in H. rewrite Hex in H.
      unfold detect_ieee1212_directory_entries in H.
      eapply detect_entries_loop_keeps in H.
      * apply H. apply insert_new_block.
      * apply detect_ieee1212_directory_block_keeps.
    + eapply detect_ieee1212_directory_block_keeps; eauto.
  - intros p i key_type key_id' value Hp Hdir Hi Hdec Hk.
    destruct (Hcalled p Hp Hdir i key_type key_id' value Hi Hdec Hk)
      as (c & Hc & Hcp & Hce).
    destruct (traced_entries _ _ _ _ Htr c Hc)
      as (p' & Hp' & _ & Hpo & _ & _ & (value' & Hdec' & Hco) & _).
    destruct (traced_blocks _ _ _ _ Htr c Hc) as (b & Hb & Hbo).
    rewrite Hblocks in Hb. exists b. split; [exact Hb |].
    rewrite Hbo, Hco. rewrite Hpo, Hcp, Hce in *.
    rewrite Hdec in Hdec'. injection Hdec' as _ _ <-. reflexivity.
  - exists st. split; [exact Hst |]. split; [exact Hblocks |].
    split; [exact Hcalled |]. split.
    + intros c Hc. split.
      * rewrite <- Hblocks. apply (traced_entries _ _ _ _ Htr c Hc).
      * rewrite <- Hblocks. apply (traced_blocks _ _ _ _ Htr c Hc).
    + intros b Hb Hk. rewrite <- Hblocks in Hb.
      apply (traced_first _ _ _ _ Htr b Hb Hk).
Qed.

Lemma blocks_are_materialized_once_sample :
  detect_ieee1212_blocks LittleEndian 17 (image LittleEndian sample_rom) 68 []
  = Ok sample_discovered
  /\ NoDup (map blk_offset sample_discovered)
  /\ Forall (referenced LittleEndian (image LittleEndian sample_rom)
               sample_discovered) sample_discovered
  /\ exists st,
       detect_ieee1212_blocks_run LittleEndian 17 (image LittleEndian sample_rom)
         68 (initial_state None)
       = Ok st
       /\ run_blocks st = sample_discovered
       /\ forall b, In b sample_discovered ->
                    block_type b = IEEE1212_LEAF_BLOCK
                    \/ block_type b = IEEE1212_DIRECTORY_BLOCK ->
                    made_by_first_call (run_calls st) b.
Proof.
  assert (H : detect_ieee1212_blocks LittleEndian 17
                (image LittleEndian sample_rom) 68 [] = Ok sample_discovered)
    by (vm_compute; reflexivity).
  split; [exact H |].
  pose proof (blocks_are_materialized_once LittleEndian
                (image LittleEndian sample_rom) 68 17 sample_discovered H)
    as (P1 & P2 & _ & _ & _ & _ & _ & (st & Q1 & Q2 & _ & _ & Q5)).
  split; [exact P1 |]. split; [exact P2 |].
  exists st. split; [exact Q1 |]. split; [exact Q2 | exact Q5].
Defined.

(** In [shared_rom] the two entries of the root directory point to one
    leaf: the calls are two, the leaf is one, and it has the key id of the
    first entry. *)
Example shared_leaf_is_made_by_the_first_entry :
  match
    detect_ieee1212_blocks_run LittleEndian 9 (image LittleEndian shared_rom) 36
      (initial_state None)
  with
  | Ok st =>
      run_blocks st
      = [ {| blk_offset := 0; blk_length := 20;
             block_type := IEEE1212_BUS_INFO_BLOCK; blk_data := None |};
          {| blk_offset := 20; blk_length := 12;
             block_type := IEEE1212_ROOT_DIRECTORY_BLOCK; blk_data := None |};
          new_block IEEE1212_LEAF_BLOCK 32 4 1 20 ]
      /\ map call_entry (run_calls st) = [0; 1]
      /\ map call_key_id (run_calls st) = [1; 2]
      /\ map call_offset (run_calls st) = [32; 32]
  | _ => False
  end.
Proof.
  vm_compute. repeat split; reflexivity.
Qed.

(** * The specification of a unit *)

Lemma first_immediate_value (keys : list Z) (quadlet : Z -> Z) (count : nat) :
  forall i v,
    first_immediate keys quadlet count i = Some v -> 0 <= v < 2 ^ 24.
Proof.
  induction count as [| count IH]; intros i v; cbn [first_immediate];
    [discriminate |].
  pose proof (decode_directory_entry_value (quadlet i)) as Hvalue.
  destruct (decode_directory_entry (quadlet i)) as [[key_type kid] value].
  cbn [snd] in Hvalue.
  destruct (_ && _); [| apply IH].
  intros H. apply Some_inj in H. subst v. exact Hvalue.
Qed.

Lemma tiles_end (start stop : Z) (head : list_head) (x : ieee1212_block) :
  tiles start head stop -> In x head -> blk_offset x + blk_length x <= stop.
Proof.
  revert start. induction head as [| b head IH]; intros start Ht Hin.
  - destruct Hin.
  - destruct Ht as (H1 & H2 & H3). destruct Hin as [<- | Hin].
    + apply tiles_stop in H3. lia.
    + eapply IH; eauto.
Qed.

Section Units.

Variable host : byte_order.
Variable data : list byte.

(** The walk that starts at a directory whose entries give a specifier id
    and a version returns the two. *)
Lemma collect_identifier_walk_from (head : list_head) (fuel : nat)
    (block : ieee1212_block) (v1 v2 : Z) (found : spec_identifier) :
  find_block head (blk_offset block) = Some block ->
  first_immediate [KEY_ID_CSR_SPECIFIER_ID; KEY_ID_CSR_VENDOR_INFO]
    (block_quadlet host data block) (Z.to_nat (blk_length block / 4 - 1)) 1
  = Some v1 ->
  first_immediate [KEY_ID_CSR_VERSION]
    (block_quadlet host data block) (Z.to_nat (blk_length block / 4 - 1)) 1
  = Some v2 ->
  collect_identifier_walk host fuel data head (Some (blk_offset block))
    invalid_identifier
  = Some found ->
  found = {| specifier_id := v1; version := v2 |}.
Proof.
  intros Hblock Hs Hv.
  pose proof (first_immediate_value _ _ _ _ _ Hs) as Hv1.
  pose proof (first_immediate_value _ _ _ _ _ Hv) as Hv2.
  destruct fuel as [| fuel]; cbn [collect_identifier_walk]; [discriminate |].
  rewrite Hblock. cbv zeta.
  rewrite collect_identifier_loop_fills, Hs, Hv.
  cbn [specifier_id version invalid_identifier value_or_invalid].
  rewrite Z.eqb_refl.
  destruct (block_type block);
    try (intros H; apply Some_inj in H; auto; fail).
  destruct (blk_data block) as [d |]; [| discriminate].
  intros H.
  apply (collect_identifier_walk_complete host data head fuel _ _ _) in H;
    [exact H | |]; cbn [specifier_id version]; unfold INVALID_KEY_VALUE; lia.
Qed.

(** The listing of a directory that was referred to as a unit or as a
    feature: the entries are printed with the identifier of the walk that
    starts at the directory itself. *)
Lemma format_unit_directory_block (head : list_head) (directory : ieee1212_block)
    (d : block_data) (data_length : Z) (lines : list string) :
  block_type directory = IEEE1212_DIRECTORY_BLOCK ->
  blk_data directory = Some d ->
  key_id d = KEY_ID_CSR_UNIT \/ key_id d = KEY_ID_CSR_FEATURE ->
  format_block host data head directory data_length = Some lines ->
  exists title rule found,
    collect_identifier_walk host (S (List.length head)) data head
      (Some (blk_offset directory)) invalid_identifier
    = Some found
    /\ lines
       = [title; rule]
           ++ format_directory_entries (blk_offset directory)
                (block_quadlet host data directory) (blk_length directory / 4)
                found.
Proof.
  intros Hty Hdat Hkey. unfold format_block. rewrite Hty.
  unfold format_directory_block. rewrite Hdat.
  assert (Hbase : directory_base directory d = Some (Some (blk_offset directory))).
  { unfold directory_base. destruct Hkey as [-> | ->]; reflexivity. }
  rewrite Hbase.
  destruct (collect_identifier_walk _ _ _ _ _ _) as [found |]; [| discriminate].
  cbv zeta.
  destruct (detect_key_formatter found KEY_TYPE_DIRECTORY (key_id d)) as [f name].
  destruct (format_content f); try discriminate.
  intros H. apply Some_inj in H. subst lines.
  do 3 eexists. split; reflexivity.
Qed.

(** The formatter of a key of the table of a registered specification
    comes with the name of the specification. *)
Lemma detect_key_formatter_registered (identifier' : spec_identifier)
    (e : spec_entry) (key_type key_id : Z) (f : key_formatter) :
  registered identifier' e ->
  find_formatter (formatters e) key_type key_id = Some f ->
  detect_key_formatter identifier' key_type key_id = (f, Some (spec_name e)).
Proof.
  unfold registered, detect_key_formatter. intros -> ->. reflexivity.
Qed.

(** The text of an entry that comes with the name of a specification. *)
Lemma format_entry_named (key_type offset value : Z) (name : string)
    (f : key_formatter) :
  exists arrow rest,
    format_entry key_type offset value (Some name) f
    = arrow +++ name +++ " " +++ rest
    /\ (arrow = EmptyString \/ arrow = "--> ").
Proof.
  unfold format_entry.
  destruct (key_type =? KEY_TYPE_IMMEDIATE);
    [| destruct (key_type =? KEY_TYPE_CSR_OFFSET);
       [| destruct (key_type =? KEY_TYPE_LEAF)]].
  - exists EmptyString. eexists. split; [| left; reflexivity].
    unfold format_immediate_entry, format_entry_spec_name.
    rewrite append_assoc. reflexivity.
  - exists "--> ". eexists. split; [| right; reflexivity].
    unfold format_csr_offset_entry, format_entry_spec_name. cbv zeta.
    rewrite (append_assoc name). reflexivity.
  - exists "--> ". eexists. split; [| right; reflexivity].
    unfold format_leaf_entry, format_entry_spec_name. cbv zeta.
    rewrite (append_assoc name). reflexivity.
  - exists "--> ". eexists. split; [| right; reflexivity].
    unfold format_directory_entry, format_entry_spec_name. cbv zeta.
    rewrite (append_assoc name). reflexivity.
Qed.

End Units.
